(** * bezier: generic geometry and floating point helpers

  A shallow embedding of [src/bezier/_helpers.py] and of the parts of the
  functional test harness ([functional_tests/runtime_utils.py],
  [functional_tests/test_curve_curve.py]) that pin the behaviour of the
  curve-curve intersection routine.

  Python's [float] and NumPy's [float64] are IEEE-754 binary64 numbers.
  They are modelled by the Standard Library's [spec_float] at precision 53
  and maximal exponent 1024, whose operations round to nearest, ties to
  even, exactly as the hardware does.  Nothing is idealised: overflow,
  underflow, signed zeros, infinities and NaN are all there.

  The file has two halves.  First the definitions: the arithmetic
  ([F64]), Python's exceptions and its conversion of integers
  ([Python]), the helpers ([Helpers]), plane geometry on exact positions
  ([Exact]), what a hull is ([HullSpec]), the test harness
  ([RuntimeUtils], [TestCurveCurve]).  Then the facts: how binary64
  numbers compare ([F64Facts]), Andrew's monotone chain with exact turns
  ([ExactFacts]), the helpers ([HelpersFacts]), the hull computed in
  floating point ([HullFacts]), and the order of the intersections in the
  functional tests ([TestCurveCurveFacts], [RuntimeUtilsFacts]).

  A second group covers the rest of the code: the strings of
  [scripts/clean_cython.py] ([PyStr], [CleanCython]) and the conversion of
  the test data ([ConvertFloat]) among the definitions; among the facts,
  when binary64 arithmetic is exact ([RoundingFacts]), what follows for
  the helpers ([HelpersEdgeFacts]) and for the hull on a grid
  ([GridFacts], [HullOrderFacts], [HullDistinctFacts]), and the two
  scripts ([VerifyDataFacts], [CleanCythonFacts], [ConvertFloatFacts]). *)

From Stdlib Require Import ZArith NArith List Bool Lia Sorted.
From Stdlib Require Import SpecFloat.
Import ListNotations.

Local Open Scope Z_scope.

(* ================================================================= *)
(** ** Binary64 arithmetic *)

Module F64.

Definition prec : Z := 53.
Definition emax : Z := 1024.

Definition float := spec_float.

Definition add : float -> float -> float := SFadd prec emax.
Definition sub : float -> float -> float := SFsub prec emax.
Definition mul : float -> float -> float := SFmul prec emax.
Definition div : float -> float -> float := SFdiv prec emax.
Definition sqrt : float -> float := SFsqrt prec emax.
Definition opp : float -> float := SFopp.
Definition abs : float -> float := SFabs.

(** Python's [==], [<] and [<=] on floats: false as soon as one side is NaN. *)
Definition eqb : float -> float -> bool := SFeqb.
Definition ltb : float -> float -> bool := SFltb.
Definition leb : float -> float -> bool := SFleb.

Definition is_nan (x : float) : bool :=
  match x with S754_nan => true | _ => false end.

Definition is_inf (x : float) : bool :=
  match x with S754_infinity _ => true | _ => false end.

Definition is_finite (x : float) : bool :=
  match x with S754_zero _ | S754_finite _ _ _ => true | _ => false end.

(** A float as the hardware stores it: a finite number has its canonical
    mantissa and exponent. *)
Definition valid (x : float) : bool := valid_binary prec emax x.

(** [dyadic m e] is the float nearest to [m * 2^e]; [of_int n] is the
    conversion of a Python [int] (correctly rounded, as [float(n)]). *)
Definition dyadic (m e : Z) : float := binary_normalize prec emax m e false.
Definition of_int (n : Z) : float := dyadic n 0.

Definition zero : float := S754_zero false.
Definition nan : float := S754_nan.
Definition one : float := Eval vm_compute in of_int 1.
Definition max_float : float := Eval vm_compute in SFmax_float prec emax.

(** NumPy's [_next(x, 1)] (npymath, ieee754): the bit pattern of [x] plus
    one, that is, the neighbour of [x] away from zero; a carry out of the
    mantissa moves to the next binade, and past the largest finite number
    the result is [x + x]. *)
Definition next_away (x : float) : float :=
  match x with
  | S754_nan => x
  | S754_zero _ => S754_finite false 1 (SpecFloat.emin prec emax)
  | S754_infinity _ => add x x
  | S754_finite s m e =>
      let m' := Pos.succ m in
      if Zpos (digits2_pos m') <=? prec then S754_finite s m' e
      else if e + 1 <=? emax - prec then S754_finite s (Pos.div2 m') (e + 1)
      else add x x
  end.

(** [np.spacing(x)]: NaN at an infinity, else [_next(x, 1) - x]; its sign
    is the sign of [x]. *)
Definition spacing (x : float) : float :=
  if is_inf x then nan else sub (next_away x) x.

(** Every finite binary64 number is an integer multiple of [2^-1074], the
    smallest subnormal.  [units x] is that integer: the exact value of [x],
    scaled by [2^1074]. *)
Definition units (x : float) : Z :=
  match x with
  | S754_finite s m e => cond_Zopp s (Zpos m * 2 ^ (e + 1074))
  | _ => 0
  end.

(** Shape of a rounded result: the sign given, never NaN. *)
Definition has_sign (sx : bool) (x : float) : Prop :=
  match x with
  | S754_zero s | S754_infinity s | S754_finite s _ _ => s = sx
  | S754_nan => False
  end.

(** In the normal range a positive mantissa is never rounded to zero, and
    the exponent of the result is at least the one the format assigns. *)
Definition at_least_exp (sx : bool) (emin_ : Z) (x : float) : Prop :=
  match x with
  | S754_infinity s => s = sx
  | S754_finite s _ e => s = sx /\ emin_ <= e
  | _ => False
  end.

(** A finite float as the hardware stores it. *)
Definition real (x : float) : Prop := valid x = true /\ is_finite x = true.



(** [x] is a finite binary64 number of exact value [u * 2^-1074]. *)
Definition worth (x : float) (u : Z) : Prop := real x /\ units x = u.

(** [x] is [k] steps of [2^(g - 1074)], for some [|k| <= bound]. *)
Definition on_grid (g bound : Z) (x : float) : Prop :=
  real x /\ exists k, units x = (k * 2 ^ g)%Z /\ (Z.abs k <= bound)%Z.

End F64.

Declare Scope f64_scope.
Delimit Scope f64_scope with f64.
Bind Scope f64_scope with F64.float.
Infix "+" := F64.add : f64_scope.
Infix "-" := F64.sub : f64_scope.
Infix "*" := F64.mul : f64_scope.
Infix "/" := F64.div : f64_scope.
Infix "==" := F64.eqb (at level 70, no associativity) : f64_scope.
Infix "<?" := F64.ltb : f64_scope.
Infix "<=?" := F64.leb : f64_scope.
Notation "- x" := (F64.opp x) : f64_scope.

Local Open Scope f64_scope.

(* ================================================================= *)
(** ** Python's exceptions and its conversion of integers *)

Module Python.

Import F64.

(** The exceptions that the code at hand raises by itself. *)
Inductive exn : Type := ValueError | OverflowError | ZeroDivisionError.

(** [float(n)] of a Python [int], which is also how [n * x] treats an
    [int] [n] next to a float [x]: correctly rounded, [OverflowError]
    ("int too large to convert to float") when the result is not finite. *)
Definition float_of_int (n : Z) : exn + float :=
  let x := of_int n in
  if is_inf x then inl OverflowError else inr x.

End Python.

(* ================================================================= *)
(** ** [bezier/_helpers.py] *)

Module Helpers.

Import F64 Python.

(** [_EPS = 0.5**40] *)
Definition EPS : float := Eval vm_compute in dyadic 1 (-40).

(** A [1 x D] or one-dimensional array is the list of its entries; an
    [N x D] array of nodes is the list of its rows. *)
Definition vector := list float.

(** [np.linalg.norm(v, ord=2)] of a real one-dimensional array:
    [sqrt(dot(v, v))].  The source does not say how the dot product is
    accumulated (it is left to BLAS, which may fuse a product with a sum
    or keep the running sum in wider registers); here it is accumulated
    from the first entry with every product and every sum rounded, which
    can differ from a given NumPy build in the last bit.  The facts proved
    of [norm] below (its sign, when it is zero or a NaN, and that it takes
    the same value on [v - w] and [w - v]) do not depend on that. *)
Definition dot (v w : vector) : float :=
  fold_left (fun acc xy => acc + fst xy * snd xy) (combine v w) zero.

Definition norm (v : vector) : float := sqrt (dot v v).

(** Entrywise [v - w] of two arrays of the same shape. *)
Definition vsub (v w : vector) : vector :=
  map (fun xy => fst xy - snd xy) (combine v w).

(** Python's builtin [min(a, b)]: [b] when [b < a], else [a]. *)
Definition py_min (a b : float) : float := if b <? a then b else a.

Definition vector_close (vec1 vec2 : vector) (eps : float) : bool :=
  let size1 := norm vec1 in
  let size2 := norm vec2 in
  if size1 == zero then size2 <=? eps
  else if size2 == zero then size1 <=? eps
  else
    let upper_bound := eps * py_min size1 size2 in
    norm (vsub vec1 vec2) <=? upper_bound.

Definition in_interval (value start end_ : float) : bool :=
  (start <=? value) && (value <=? end_).

(** NumPy's minimum and maximum reductions: a NaN operand wins, otherwise
    the comparison decides. *)
Definition np_minimum (a b : float) : float :=
  if is_nan a then a else if a <? b then a else b.

Definition np_maximum (a b : float) : float :=
  if is_nan a then a else if b <? a then a else b.

Definition map2 {A B C} (f : A -> B -> C) (l1 : list A) (l2 : list B) : list C :=
  map (fun ab => f (fst ab) (snd ab)) (combine l1 l2).

(** [np.min(nodes, axis=0)] and [np.max(nodes, axis=0)]: one entry per
    column.  NumPy raises [ValueError] on an array without rows. *)
Definition np_min_axis0 (nodes : list vector) : option vector :=
  match nodes with
  | [] => None
  | row :: rows => Some (fold_left (map2 np_minimum) rows row)
  end.

Definition np_max_axis0 (nodes : list vector) : option vector :=
  match nodes with
  | [] => None
  | row :: rows => Some (fold_left (map2 np_maximum) rows row)
  end.

(** [left, bottom = np.min(nodes, axis=0)] unpacks exactly two columns. *)
Definition bbox (nodes : list vector) : option (float * float * float * float) :=
  match np_min_axis0 nodes, np_max_axis0 nodes with
  | Some [left_; bottom], Some [right_; top] => Some (left_, right_, bottom, top)
  | _, _ => None
  end.

(** [np.all(a <= b)] for two arrays of the same length, as [_contains_nd]
    asks of its [point] ("in the same dimension as [nodes]"): other
    shapes, which NumPy broadcasts or refuses, are not modelled, and every
    fact below takes the dimensions equal. *)
Definition all_le (a b : vector) : bool :=
  forallb (fun xy => fst xy <=? snd xy) (combine a b).

Definition contains_nd (nodes : list vector) (point : vector) : option bool :=
  match np_min_axis0 nodes with
  | None => None
  | Some min_vals =>
      if negb (all_le min_vals point) then Some false
      else
        match np_max_axis0 nodes with
        | None => None
        | Some max_vals =>
            if negb (all_le point max_vals) then Some false
            else Some true
        end
  end.

(** The corners of the unit square, one per row. *)
Definition unit_square : list vector :=
  [ [zero; zero]; [one; zero]; [one; one]; [zero; one] ].

(** A point of the plane, or a [1 x 2] array. *)
Definition point : Type := float * float.

Definition cross_product (vec0 vec1 : point) : float :=
  fst vec0 * snd vec1 - snd vec0 * fst vec1.

(** [num_bits] is a Python [int]: the product [num_bits * abs(local_epsilon)]
    converts it to a float first, and raises [OverflowError] when it does
    not fit.  The two branches for a zero return before that. *)
Definition ulps_away (value1 value2 : float) (num_bits : Z) : exn + bool :=
  if value1 == zero then inr (abs value2 <? EPS)
  else if value2 == zero then inr (abs value1 <? EPS)
  else
    let local_epsilon := spacing value1 in
    match float_of_int num_bits with
    | inl e => inl e
    | inr bits => inr (abs (value1 - value2) <=? bits * abs local_epsilon)
    end.

(** The default [wiggle=0.5**45]. *)
Definition WIGGLE : float := Eval vm_compute in dyadic 1 (-45).

Definition wiggle_interval (value wiggle : float) : float * bool :=
  if (- wiggle <? value) && (value <? wiggle) then (zero, true)
  else if (wiggle <=? value) && (value <=? one - wiggle) then (value, true)
  else if (one - wiggle <? value) && (value <? one + wiggle) then (one, true)
  else (nan, false).

Definition psub (p q : point) : point := (fst p - fst q, snd p - snd q).

Definition cross_product_compare (start candidate1 candidate2 : point) : float :=
  let delta1 := psub candidate1 start in
  let delta2 := psub candidate2 start in
  cross_product delta1 delta2.

(** Python compares tuples lexicographically: the first entries that are
    not [==] decide by [<]. *)
Definition tuple_lt (p q : point) : bool :=
  if fst p == fst q then
    if snd p == snd q then false else snd p <? snd q
  else fst p <? fst q.

Definition tuple_eq (p q : point) : bool :=
  (fst p == fst q) && (snd p == snd q).

(** [sorted(...)]: a stable sort that only asks [<]. *)
Fixpoint insert_sorted (p : point) (l : list point) : list point :=
  match l with
  | [] => [p]
  | q :: l' => if tuple_lt p q then p :: l else q :: insert_sorted p l'
  end.

Definition sorted (l : list point) : list point :=
  fold_left (fun acc p => insert_sorted p acc) l [].

(** [np.unique(points, axis=1)]: the columns sorted lexicographically, then
    the first column of every run of equal ones
    ([mask[:1] = True; mask[1:] = aux[1:] != aux[:-1]]).  On columns with
    a NaN the result can differ from NumPy's, which sorts a NaN last and
    so merges equal columns that a NaN column keeps apart here; the facts
    below take finite points, or use only that what is returned is a
    column of the input. *)
Fixpoint drop_repeats_after (previous : point) (l : list point) : list point :=
  match l with
  | [] => []
  | p :: l' =>
      if tuple_eq p previous then drop_repeats_after p l'
      else p :: drop_repeats_after p l'
  end.

Definition drop_repeats (l : list point) : list point :=
  match l with
  | [] => []
  | p :: l' => p :: drop_repeats_after p l'
  end.

Definition np_unique (points : list point) : list point :=
  drop_repeats (sorted points).

(** The inner loop of both hull passes,
<<
    while (len(lower) >= 2 and
           cross_product_compare(lower[-2], lower[-1], point3) <= 0):
        lower.pop()
>>
    on a stack kept with its top ([lower[-1]]) at the head of the list. *)
Fixpoint pop_while (stack : list point) (point3 : point) : list point :=
  match stack with
  | last :: rest =>
      match rest with
      | second :: _ =>
          if cross_product_compare second last point3 <=? zero
          then pop_while rest point3
          else stack
      | [] => stack
      end
  | [] => stack
  end.

(** One hull pass over the points in the order given; the result is the
    stack, top first. *)
Definition hull_pass (points : list point) : list point :=
  fold_left (fun stack point3 => point3 :: pop_while stack point3) points [].

(** [points] is a [2 x N] array: the list of its columns. *)
Definition simple_convex_hull (points : list point) : list point :=
  match points with
  | [] => points
  | _ =>
      let unique_points := np_unique points in
      if (Z.of_nat (length unique_points) <? 2)%Z then unique_points
      else
        let points := sorted unique_points in
        let lower := rev (hull_pass points) in
        let upper := rev (hull_pass (rev points)) in
        removelast lower ++ removelast upper
  end.

(** [1.0 - wiggle] and [1.0 + wiggle] are computed without rounding error,
    as they are for the default [2^-45]. *)
Definition exact_at_one (wiggle : float) : Prop :=
  real (one - wiggle) /\ real (one + wiggle)
  /\ units (one - wiggle) = (units one - units wiggle)%Z
  /\ units (one + wiggle) = (units one + units wiggle)%Z.

(** The [j]-th column of an array of nodes. *)
Definition column (j : nat) (nodes : list vector) : list float :=
  map (fun row => nth j row zero) nodes.

(** [lo] and [hi] are the least and the greatest entry of [l], by exact value. *)
Definition is_min_of (l : list float) (lo : float) : Prop :=
  In lo l /\ forall x, In x l -> (units lo <= units x)%Z.

Definition is_max_of (l : list float) (hi : float) : Prop :=
  In hi l /\ forall x, In x l -> (units x <= units hi)%Z.

End Helpers.

(* ================================================================= *)
(** ** Exact plane geometry

    Points with integer coordinates, the exact orientation test, and the
    two passes of the monotone chain run with that test. They say what
    [simple_convex_hull] computes when no rounding error changes the sign
    of a cross product. *)

Module Exact.

Local Open Scope Z_scope.

Definition zpoint : Type := Z * Z.

Definition cross_Z (o a b : zpoint) : Z :=
  (fst a - fst o) * (snd b - snd o) - (snd a - snd o) * (fst b - fst o).

Definition lex_lt (a b : zpoint) : Prop :=
  fst a < fst b \/ (fst a = fst b /\ snd a < snd b).

Definition cross_v (u v : zpoint) : Z := fst u * snd v - snd u * fst v.
Definition lexpos (v : zpoint) : Prop := 0 < fst v \/ (fst v = 0 /\ 0 < snd v).

Definition vec (a b : zpoint) : zpoint := (fst b - fst a, snd b - snd a).

(** [before sgn a b]: [a] comes before [b] in the pass; the lower pass
    ([sgn = false]) walks up the lexicographic order, the upper pass down. *)
Definition before (sgn : bool) (a b : zpoint) : Prop :=
  if sgn then lex_lt b a else lex_lt a b.

(** The displacement from an earlier to a later point, turned so that it is
    lexicographically positive. *)
Definition dvec (sgn : bool) (a b : zpoint) : zpoint :=
  if sgn then vec b a else vec a b.

Fixpoint pop_while_exact (stack : list zpoint) (p : zpoint) : list zpoint :=
  match stack with
  | last :: rest =>
      match rest with
      | second :: _ =>
          if cross_Z second last p <=? 0 then pop_while_exact rest p else stack
      | [] => stack
      end
  | [] => stack
  end.

Definition hull_pass_exact (points : list zpoint) : list zpoint :=
  fold_left (fun stack p => p :: pop_while_exact stack p) points [].

Fixpoint adj2 {A : Type} (R : A -> A -> Prop) (l : list A) : Prop :=
  match l with
  | a :: l' => match l' with b :: _ => R a b /\ adj2 R l' | [] => True end
  | [] => True
  end.

Fixpoint adj3 {A : Type} (R : A -> A -> A -> Prop) (l : list A) : Prop :=
  match l with
  | a :: l' => match l' with b :: c :: _ => R a b c /\ adj3 R l' | _ => True end
  | [] => True
  end.

(** What holds of the stack (top first) once the points [done] are
    processed: it ends at the first point, runs backwards in the order of
    the pass, turns left at every vertex, and leaves every processed point
    on the left of every edge. *)
Definition chain_inv (sgn : bool) (bot : zpoint) (stack done : list zpoint) : Prop :=
  incl stack done
  /\ (exists l, stack = l ++ [bot])
  /\ (forall q, In q done -> q = bot \/ before sgn bot q)
  /\ adj2 (fun y x => before sgn x y) stack
  /\ adj3 (fun c b a => 0 < cross_Z a b c) stack
  /\ (forall q, In q done -> adj2 (fun b a => 0 <= cross_Z a b q) stack).

Definition ahead (sgn : bool) (p : zpoint) (stack done : list zpoint) : Prop :=
  match stack with
  | top :: _ =>
      forall q, In q done -> q = top \/ before sgn top q -> 0 <= cross_Z top p q
  | [] => True
  end.

Definition turns_to (p : zpoint) (stack : list zpoint) : Prop :=
  match stack with
  | b :: a :: _ => 0 < cross_Z a b p
  | _ => True
  end.

Definition top_max (sgn : bool) (stack done : list zpoint) : Prop :=
  match stack with
  | top :: _ => forall q, In q done -> q = top \/ before sgn q top
  | [] => True
  end.

Definition hull_exact (points : list zpoint) : list zpoint :=
  removelast (rev (hull_pass_exact points))
  ++ removelast (rev (hull_pass_exact (rev points))).

Definition lex_le (a b : zpoint) : Prop := lex_lt a b \/ a = b.

End Exact.

(* ================================================================= *)
(** ** What a convex hull is, for points given as floats *)

Module HullSpec.

Import F64 Helpers Exact.

(** The exact position of a point, in units of [2^-1074]. *)
Definition pos (p : point) : zpoint := (units (fst p), units (snd p)).

Definition real_point (p : point) : Prop := real (fst p) /\ real (snd p).

(** The orientation test of the hull passes, computed in floating point,
    decides as the exact cross product does. *)
Definition turn_exact (a b c : point) : bool :=
  Bool.eqb (cross_product_compare a b c <=? zero)
           (cross_Z (pos a) (pos b) (pos c) <=? 0)%Z.

Definition exact_turns (points : list point) : bool :=
  forallb (fun a => forallb (fun b => forallb (turn_exact a b) points) points) points.

(** [q] is on the left of, or on, every edge of the closed polygon. *)
Definition left_of_edges (polygon : list point) (q : point) : Prop :=
  adj2 (fun a b => (0 <= cross_Z (pos a) (pos b) (pos q))%Z)
       (polygon ++ firstn 1 polygon).

(** [q] is between two vertices in the lexicographic order. *)
Definition spanned (polygon : list point) (q : point) : Prop :=
  exists a b, In a polygon /\ In b polygon
              /\ lex_le (pos a) (pos q) /\ lex_le (pos q) (pos b).

(** Inside or on the boundary of a polygon given counter-clockwise (of a
    segment, of a point, when it has two vertices, or one). *)
Definition inside_polygon (polygon : list point) (q : point) : Prop :=
  left_of_edges polygon q /\ spanned polygon q.

(** Every three cyclically consecutive vertices turn strictly left. *)
Definition counter_clockwise (polygon : list point) : Prop :=
  adj3 (fun a b c => (0 < cross_Z (pos a) (pos b) (pos c))%Z)
       (polygon ++ firstn 2 polygon).

Definition not_collinear (points : list point) : Prop :=
  exists a b c, In a points /\ In b points /\ In c points
                /\ cross_Z (pos a) (pos b) (pos c) <> 0%Z.

(** The lexicographic order of the exact positions. *)
Definition plt (p q : point) : Prop := lex_lt (pos p) (pos q).
Definition ple (p q : point) : Prop := lex_le (pos p) (pos q).

(** [2^-600]: its square, [2^-1200], is below the smallest binary64
    subnormal [2^-1074] and rounds to zero. *)
Definition tiny : float := Eval vm_compute in dyadic 1 (-600).

(** Three corners of a right triangle of side [2^-600]. *)
Definition underflow_points : list point :=
  [ (zero, zero); (zero, tiny); (tiny, zero) ].

(** The corners of the unit right triangle, out of order, one of them
    twice, and a point inside. *)
Definition triangle_points : list point :=
  [ (one, zero); (zero, zero); (zero, one); (zero, zero);
    (dyadic 1 (-2), dyadic 1 (-2)) ].

(** Both coordinates are multiples of [2^G], at most [2^24] of them. *)
Definition grid_point (G : Z) (p : point) : Prop :=
  on_grid (G + 1074) (2 ^ 24) (fst p) /\ on_grid (G + 1074) (2 ^ 24) (snd p).

(** A point as a row of an [N x 2] array of nodes. *)
Definition as_row (p : point) : vector := [fst p; snd p].

End HullSpec.

(* ================================================================= *)
(** ** [functional_tests/runtime_utils.py] *)

Module RuntimeUtils.

Import F64 Helpers.

(** The part of [Config] the assertions read: the ULP budget [_wiggle],
    8 unless a test widens or narrows it with [CONFIG.wiggle(n)]. *)
Record Config := { _wiggle : Z }.

Definition CONFIG : Config := {| _wiggle := 8 |}.

(** [Config.assert_close]: [true] when the assertion holds, that is when
    [ulps_away] returns [True]; an exception of [ulps_away] goes through
    the [assert]. *)
Definition assert_close (self : Config) (approximated exact : float) : bool :=
  match ulps_away exact approximated (_wiggle self) with
  | inr within => within
  | inl _ => false
  end.

(** [np.sort] on a one-dimensional float array: ascending, NaN last. *)
Definition np_lt (a b : float) : bool :=
  (a <? b) || (is_nan b && negb (is_nan a)).

Fixpoint np_insert (a : float) (l : list float) : list float :=
  match l with
  | [] => [a]
  | b :: l' => if np_lt a b then a :: l else b :: np_insert a l'
  end.

Definition np_sort (l : list float) : list float :=
  fold_left (fun acc a => np_insert a acc) l [].

(** [CurveIntersectionInfo._verify_data]: [true] when no [ValueError] is
    raised, that is when [np.all(sorted_s == self.curve1_params)]. *)
Definition verify_data (curve1_params : list float) : bool :=
  let sorted_s := np_sort curve1_params in
  forallb (fun ab => fst ab == snd ab) (combine sorted_s curve1_params).

(** What [_verify_data] is there to check: the parameters are in ascending
    order, every one [<=] the next. *)
Fixpoint ascending (l : list float) : bool :=
  match l with
  | [] => true
  | a :: l' =>
      match l' with
      | [] => true
      | b :: _ => (a <=? b) && ascending l'
      end
  end.

(** [a] may come before [b] in the result of [np.sort]. *)
Definition np_le (a b : float) : Prop := np_lt b a = false.

End RuntimeUtils.

(* ================================================================= *)
(** ** [functional_tests/test_curve_curve.py] *)

Module TestCurveCurve.

Import F64 Helpers RuntimeUtils.

(** Modelled from the spec: the intersection record that
    [_intersection_helpers.all_intersections] returns (that module is not
    among the files at hand).  Of the record's fields (the two curves, the
    parameter [s] on the first, the parameter [t] on the second, the point)
    the order of the result is about [s] and [t], which are also what
    [curve_curve_check] reads first.  The result of [all_intersections] is
    taken as it comes: any list of such records. *)
Record Intersection := { s : float; t : float }.

(** [curve_curve_check], the assertions on the number of records and on
    their parameters, in the order of the source:
<<
    assert len(s_vals) == len(t_vals)
    assert len(intersections) == len(s_vals)
    for intersection, s_val, t_val, point in zip(...):
        CONFIG.assert_close(intersection.s, s_val)
        CONFIG.assert_close(intersection.t, t_val)
>>
    The assertions on the points (which call [Curve.evaluate]) only
    narrow what is accepted further. *)
Definition curve_curve_check (config : Config)
    (intersections : list Intersection) (s_vals t_vals : list float) : bool :=
  (length s_vals =? length t_vals)%nat
  && (length intersections =? length s_vals)%nat
  && forallb
       (fun ist =>
          let '(intersection, s_val, t_val) := ist in
          assert_close config (s intersection) s_val
          && assert_close config (t intersection) t_val)
       (combine (combine intersections s_vals) t_vals).

(** The expected parameters of [test_curves20_and_21]. *)
Definition sq5 : float := Eval vm_compute in sqrt (of_int 5).

Definition s_vals_20_21 : list float :=
  Eval vm_compute in
    [ dyadic 5 (-3) - dyadic 1 (-3) * sq5;
      zero;
      dyadic 3 (-2);
      dyadic 5 (-3) + dyadic 1 (-3) * sq5 ].

Definition t_vals_20_21 : list float :=
  Eval vm_compute in
    map (fun x => x / of_int 10)
      [ of_int 4 - sq5; of_int 9; of_int 3; of_int 4 + sq5 ].

(** Modelled from the spec: the order asked of the result of
    [all_intersections], ascending in curve1's parameter [s], ties broken
    by curve2's parameter [t]. *)
Definition in_order (i j : Intersection) : bool :=
  (s i <? s j) || ((s i == s j) && (t i <=? t j)).

Fixpoint sorted_by_s_then_t (l : list Intersection) : bool :=
  match l with
  | [] => true
  | i :: l' =>
      match l' with
      | [] => true
      | j :: _ => in_order i j && sorted_by_s_then_t l'
      end
  end.

(** The expected parameters of [test_curves20_and_21] as records, in the
    order of the test. *)
Definition expected_20_21 : list Intersection :=
  Eval vm_compute in
    map (fun st => {| s := fst st; t := snd st |})
        (combine s_vals_20_21 t_vals_20_21).

(** The first expected parameter of [test_curves20_and_21],
    [0.625 - 0.125 * sqrt 5], and eight of its spacings. *)
Definition s_val0 : float := S754_finite false 6223821613304664 (-54).
Definition tol0 : float := S754_finite false 4503599627370496 (-103).

End TestCurveCurve.

(* ================================================================= *)
(** ** Python strings *)

Module PyStr.

(** A Python [str]: the list of its code points. *)
Definition str : Type := list N.

Definition newline : N := 10%N.

(** The characters [str.rstrip()] removes (Python 3: the code points for
    which [str.isspace] holds). *)
Definition is_space (c : N) : bool :=
  ((9 <=? c) && (c <=? 13) || (28 <=? c) && (c <=? 32) || (c =? 133) || (c =? 160)
   || (c =? 5760) || (8192 <=? c) && (c <=? 8202) || (c =? 8232) || (c =? 8233)
   || (c =? 8239) || (c =? 8287) || (c =? 12288))%N.

Fixpoint lstrip (s : str) : str :=
  match s with
  | c :: s' => if is_space c then lstrip s' else s
  | [] => []
  end.

(** [s.rstrip()] *)
Definition rstrip (s : str) : str := rev (lstrip (rev s)).

(** [s.startswith(prefix)] *)
Fixpoint startswith (s prefix : str) : bool :=
  match prefix, s with
  | [], _ => true
  | p :: prefix', c :: s' => (c =? p)%N && startswith s' prefix'
  | _ :: _, [] => false
  end.

(** [s.replace(old, '')] for a non-empty [old]: the occurrences of [old]
    are dropped from the left, without overlap.  [skip] counts the
    characters of an occurrence still to drop. *)
Fixpoint remove_from (old : str) (skip : nat) (s : str) : str :=
  match s with
  | [] => []
  | c :: s' =>
      match skip with
      | S k => remove_from old k s'
      | O =>
          if startswith s old then remove_from old (length old - 1) s'
          else c :: remove_from old 0 s'
      end
  end.

Definition remove_all (s old : str) : str :=
  match old with
  | [] => s
  | _ => remove_from old 0 s
  end.

(** [s.split(c)] for a one-character separator. *)
Fixpoint split (c : N) (s : str) : list str :=
  match s with
  | [] => [[]]
  | x :: s' =>
      if (x =? c)%N then [] :: split c s'
      else
        match split c s' with
        | part :: parts => (x :: part) :: parts
        | [] => [[x]]
        end
  end.

End PyStr.

(* ================================================================= *)
(** ** [scripts/clean_cython.py] *)

Module CleanCython.

Import PyStr.

Definition sep : N := 47%N.

(** [posixpath.join(a, *p)] *)
Definition endswith_sep (path : str) : bool :=
  match rev path with
  | c :: _ => (c =? sep)%N
  | [] => false
  end.

Definition join2 (path b : str) : str :=
  if startswith b [sep] then b
  else
    match path with
    | [] => path ++ b
    | _ => if endswith_sep path then path ++ b else path ++ sep :: b
    end.

Definition path_join (a : str) (p : list str) : str := fold_left join2 p a.

(** The strings ['.nox'], ['lib'] and ['site-packages']. *)
Definition dot_nox : str := [46; 110; 111; 120]%N.
Definition lib : str := [108; 105; 98]%N.
Definition site_packages : str :=
  [115; 105; 116; 101; 45; 112; 97; 99; 107; 97; 103; 101; 115]%N.

(** [py_version] is the directory name of the running interpreter,
    [python] followed by its major and minor version. *)
Definition lib_path (py_version virtualenv_dirname : str) : str :=
  path_join dot_nox [virtualenv_dirname; lib; py_version; site_packages; []].

(** What [clean_file] writes back for the [contents] it has read. *)
Definition clean_file (py_version virtualenv_dirname contents : str) : str :=
  let contents := rstrip contents in
  let contents := remove_all contents (lib_path py_version virtualenv_dirname) in
  let lines := split newline contents in
  concat (map (fun line => rstrip line ++ [newline]) lines).

(** No trailing whitespace. *)
Definition trimmed (s : str) : Prop := rstrip s = s.

(** The lines joined by newlines, as [str.join] does. *)
Fixpoint join_lines (lines : list str) : str :=
  match lines with
  | [] => []
  | line :: lines' =>
      match lines' with
      | [] => line
      | _ :: _ => line ++ newline :: join_lines lines'
      end
  end.

(** The last character, if any, is no whitespace. *)
Definition ends_well (s : str) : Prop :=
  match rev s with c :: _ => is_space c = false | [] => True end.

(** [old] has no occurrence to remove. *)
Definition untouched (s old : str) : Prop := remove_all s old = s.

(** ['python3.6'], a directory [venv], and a few lines of C. *)
Definition python36 : str := [112; 121; 116; 104; 111; 110; 51; 46; 54]%N.
Definition venv : str := [118; 101; 110; 118]%N.
Definition some_source : str :=
  [105; 110; 116; 32; 120; 59; 32; 9; 10; 10; 32; 32; 121; 59; 32; 10; 9; 10; 32]%N.

End CleanCython.

(* ================================================================= *)
(** ** [functional_tests/runtime_utils.py]: [_convert_float] *)

Module ConvertFloat.

Import F64 Python PyStr.

(** The values [_convert_float] is written for: [None], an integer, a
    string, or a list of such values. *)
#[local] Unset Elimination Schemes.

Inductive value : Type :=
  | JNone
  | JInt (n : Z)
  | JStr (s : str)
  | JList (elements : list value).

Inductive converted : Type :=
  | PNone
  | PFloat (x : float)
  | PList (elements : list converted).

#[local] Set Elimination Schemes.

(** Python's [a / b] on floats. *)
Definition truediv (a b : float) : exn + float :=
  if b == zero then inl ZeroDivisionError else inr (a / b).

(** The character [/]. *)
Definition slash : N := 47%N.

Section Builtins.

(** [float.fromhex] and [float] on strings, as Python has them. *)
Variable float_fromhex : str -> exn + float.
Variable float_of_str : str -> exn + float.

Definition convert_str (value : str) : exn + float :=
  if startswith value [48; 120]%N || startswith value [45; 48; 120]%N
  then float_fromhex value
  else
    match split slash value with
    | [numerator; denominator] =>
        match float_of_str numerator with
        | inl e => inl e
        | inr a =>
            match float_of_str denominator with
            | inl e => inl e
            | inr b => truediv a b
            end
        end
    | _ => inl ValueError
    end.

Fixpoint convert_float (v : value) : exn + converted :=
  match v with
  | JNone => inr PNone
  | JList elements =>
      let convert_all :=
        fix convert_all (l : list value) : exn + list converted :=
          match l with
          | [] => inr []
          | element :: l' =>
              match convert_float element with
              | inl e => inl e
              | inr c =>
                  match convert_all l' with
                  | inl e => inl e
                  | inr cs => inr (c :: cs)
                  end
              end
          end in
      match convert_all elements with
      | inl e => inl e
      | inr cs => inr (PList cs)
      end
  | JInt n =>
      match float_of_int n with
      | inl e => inl e
      | inr x => inr (PFloat x)
      end
  | JStr s =>
      match convert_str s with
      | inl e => inl e
      | inr x => inr (PFloat x)
      end
  end.

End Builtins.

End ConvertFloat.

(* ================================================================= *)
(** ** Comparisons of binary64 numbers *)

Module F64Facts.

Import F64 Python.
Local Open Scope Z_scope.

Lemma eqb_zero_inv (x : float) :
  (x == zero) = true -> exists sgn, x = S754_zero sgn.
Proof.
  destruct x as [sx | sx | | sx m e]; simpl; try discriminate.
  - intros _. now exists sx.
  - destruct sx; discriminate.
  - destruct sx; discriminate.
Qed.

Lemma eqb_zero_zero (sgn : bool) : (S754_zero sgn == zero) = true.
Proof. reflexivity. Qed.

Lemma digits2_pos_bounds (p : positive) :
  2 ^ (Zpos (digits2_pos p) - 1) <= Zpos p < 2 ^ Zpos (digits2_pos p).
Proof.
  induction p as [p IH | p IH | ]; cbn [digits2_pos].
  - rewrite Pos2Z.inj_succ.
    replace (Z.succ (Zpos (digits2_pos p)) - 1) with (Z.succ (Zpos (digits2_pos p) - 1)) by lia.
    rewrite !Z.pow_succ_r by lia. lia.
  - rewrite Pos2Z.inj_succ.
    replace (Z.succ (Zpos (digits2_pos p)) - 1) with (Z.succ (Zpos (digits2_pos p) - 1)) by lia.
    rewrite !Z.pow_succ_r by lia. lia.
  - simpl. lia.
Qed.

Lemma digits2_pos_ge (p : positive) (k : Z) :
  2 ^ k <= Zpos p -> k < Zpos (digits2_pos p).
Proof.
  intros H. destruct (Z.lt_ge_cases k (Zpos (digits2_pos p))) as [|Hge]; [ assumption | ].
  pose proof (digits2_pos_bounds p) as [_ Hlt].
  assert (2 ^ Zpos (digits2_pos p) <= 2 ^ k) by (apply Z.pow_le_mono_r; lia).
  lia.
Qed.

Lemma digits2_pos_shift (m d : positive) :
  digits2_pos (Pos.iter xO m d) = (digits2_pos m + d)%positive.
Proof.
  induction d as [ | d IH ] using Pos.peano_ind.
  - simpl. lia.
  - rewrite Pos.iter_succ. cbn [digits2_pos]. rewrite IH. lia.
Qed.

Lemma iter_xO_value (m d : positive) :
  Zpos (Pos.iter xO m d) = Zpos m * 2 ^ Zpos d.
Proof.
  change (Pos.iter xO m d) with (shift_pos d m).
  rewrite shift_pos_correct, Zpower_pos_is_exp_pos || idtac.
  rewrite shift_pos_correct. rewrite Z.pow_pos_fold. lia.
Qed.

Lemma shr_1_m (mrs : shr_record) :
  0 <= shr_m mrs -> shr_m (shr_1 mrs) = shr_m mrs / 2.
Proof.
  rewrite <- Z.div2_div.
  destruct mrs as [m r s]; cbn [shr_m]. intros Hm.
  destruct m as [ | p | p ]; [ reflexivity | destruct p; reflexivity | lia ].
Qed.

Lemma iter_shr_1_m (p : positive) :
  forall mrs, 0 <= shr_m mrs ->
    shr_m (iter_pos shr_1 p mrs) = shr_m mrs / 2 ^ Zpos p.
Proof.
  induction p as [p IH | p IH | ]; intros mrs Hm; cbn [iter_pos].
  - assert (H1 : 0 <= shr_m (shr_1 mrs)) by (rewrite shr_1_m by assumption; apply Z.div_pos; lia).
    assert (H2 : 0 <= shr_m (iter_pos shr_1 p (shr_1 mrs)))
      by (rewrite IH by assumption; apply Z.div_pos; [ assumption | apply Z.pow_pos_nonneg; lia ]).
    rewrite IH, IH, shr_1_m by assumption.
    assert (0 < 2 ^ Zpos p) by (apply Z.pow_pos_nonneg; lia).
    rewrite !Z.div_div by lia. f_equal.
    change (Zpos p~1) with (2 * Zpos p + 1).
    replace (2 * Zpos p + 1) with (1 + Zpos p + Zpos p) by lia.
    rewrite !Z.pow_add_r by lia. lia.
  - assert (H2 : 0 <= shr_m (iter_pos shr_1 p mrs))
      by (rewrite IH by assumption; apply Z.div_pos; [ assumption | apply Z.pow_pos_nonneg; lia ]).
    rewrite IH, IH by assumption.
    assert (0 < 2 ^ Zpos p) by (apply Z.pow_pos_nonneg; lia).
    rewrite !Z.div_div by lia. f_equal.
    change (Zpos p~0) with (2 * Zpos p).
    replace (2 * Zpos p) with (Zpos p + Zpos p) by lia.
    rewrite Z.pow_add_r by lia. lia.
  - rewrite shr_1_m by assumption. reflexivity.
Qed.

Lemma shr_record_of_loc_m (m : Z) (l : location) : shr_m (shr_record_of_loc m l) = m.
Proof. destruct l as [ | [ | | ] ]; reflexivity. Qed.

Lemma shr_fexp_spec (m e : Z) (l : location) :
  0 <= m ->
  let n := Z.max 0 (fexp prec emax (Zdigits2 m + e) - e) in
  shr_m (fst (shr_fexp prec emax m e l)) = m / 2 ^ n
  /\ snd (shr_fexp prec emax m e l) = e + n.
Proof.
  intros Hm n. unfold shr_fexp, shr. subst n.
  destruct (fexp prec emax (Zdigits2 m + e) - e) as [ | p | p ]; cbn [fst snd].
  - rewrite shr_record_of_loc_m, Z.max_l, Z.div_1_r by lia. split; lia.
  - rewrite iter_shr_1_m by (rewrite shr_record_of_loc_m; assumption).
    rewrite shr_record_of_loc_m, Z.max_r by lia. split; reflexivity.
  - rewrite shr_record_of_loc_m, Z.max_l, Z.div_1_r by lia. split; lia.
Qed.

Lemma round_nearest_even_bounds (m : Z) (l : location) :
  m <= round_nearest_even m l <= m + 1.
Proof. destruct l as [ | [ | | ] ]; cbn; try destruct (Z.even m); lia. Qed.


Lemma binary_round_aux_sign (sx : bool) (m e : Z) (l : location) :
  0 <= m -> has_sign sx (binary_round_aux prec emax sx m e l).
Proof.
  intros Hm. unfold binary_round_aux.
  destruct (shr_fexp_spec m e l Hm) as [H1 _].
  destruct (shr_fexp prec emax m e l) as [mrs' e']. cbn [fst] in H1.
  set (m2 := round_nearest_even (shr_m mrs') (loc_of_shr_record mrs')).
  assert (Hm2 : 0 <= m2).
  { pose proof (round_nearest_even_bounds (shr_m mrs') (loc_of_shr_record mrs')).
    assert (0 <= shr_m mrs') by (rewrite H1; apply Z.div_pos; [ lia | apply Z.pow_pos_nonneg; lia ]).
    subst m2. lia. }
  destruct (shr_fexp_spec m2 e' loc_Exact Hm2) as [H3 _].
  destruct (shr_fexp prec emax m2 e' loc_Exact) as [mrs'' e'']. cbn [fst] in H3.
  assert (0 <= shr_m mrs'') by (rewrite H3; apply Z.div_pos; [ lia | apply Z.pow_pos_nonneg; lia ]).
  destruct (shr_m mrs'') as [ | p | p ]; [ reflexivity | | lia ].
  destruct (e'' <=? emax - prec); reflexivity.
Qed.


Lemma binary_round_aux_normal (sx : bool) (mx : positive) (ex : Z) (l : location) :
  SpecFloat.emin prec emax <= Zpos (digits2_pos mx) + ex - prec ->
  at_least_exp sx (Zpos (digits2_pos mx) + ex - prec)
    (binary_round_aux prec emax sx (Zpos mx) ex l).
Proof.
  intros Hn. unfold binary_round_aux.
  destruct (shr_fexp_spec (Zpos mx) ex l ltac:(lia)) as [H1 H1e].
  destruct (shr_fexp prec emax (Zpos mx) ex l) as [mrs' e']. cbn [fst snd] in H1, H1e.
  set (d := Zpos (digits2_pos mx)) in *.
  assert (Hf : fexp prec emax (Zdigits2 (Zpos mx) + ex) = d + ex - prec).
  { unfold fexp. cbn [Zdigits2]. fold d. lia. }
  rewrite Hf in H1, H1e.
  pose proof (digits2_pos_bounds mx) as [Hlo Hhi]. fold d in Hlo, Hhi.
  assert (Hd : 1 <= d) by (subst d; lia).
  set (n1 := Z.max 0 (d + ex - prec - ex)) in *.
  assert (Hn1 : 0 <= n1 <= d - 1) by (unfold prec in *; lia).
  assert (Hm1 : 1 <= shr_m mrs').
  { rewrite H1. apply Z.div_le_lower_bound; [ apply Z.pow_pos_nonneg; lia | ].
    rewrite Z.mul_1_r. transitivity (2 ^ (d - 1)); [ apply Z.pow_le_mono_r; lia | exact Hlo ]. }
  set (m2 := round_nearest_even (shr_m mrs') (loc_of_shr_record mrs')).
  assert (Hm2 : 1 <= m2).
  { pose proof (round_nearest_even_bounds (shr_m mrs') (loc_of_shr_record mrs')).
    subst m2. lia. }
  destruct (shr_fexp_spec m2 e' loc_Exact ltac:(lia)) as [H3 H3e].
  destruct (shr_fexp prec emax m2 e' loc_Exact) as [mrs'' e'']. cbn [fst snd] in H3, H3e.
  destruct m2 as [ | p2 | p2 ]; try lia.
  cbn [Zdigits2] in H3, H3e.
  pose proof (digits2_pos_bounds p2) as [Hlo2 Hhi2].
  set (d2 := Zpos (digits2_pos p2)) in *.
  assert (Hd2 : 1 <= d2) by (subst d2; lia).
  set (n2 := Z.max 0 (fexp prec emax (d2 + e') - e')) in *.
  assert (Hn2 : 0 <= n2 <= d2 - 1).
  { unfold n2, fexp, SpecFloat.emin, prec in *. lia. }
  assert (Hm3 : 1 <= shr_m mrs'').
  { rewrite H3. apply Z.div_le_lower_bound; [ apply Z.pow_pos_nonneg; lia | ].
    rewrite Z.mul_1_r. transitivity (2 ^ (d2 - 1)); [ apply Z.pow_le_mono_r; lia | exact Hlo2 ]. }
  destruct (shr_m mrs'') as [ | p | p ]; try lia.
  assert (He : d + ex - prec <= e'') by (unfold n1 in *; lia).
  destruct (e'' <=? emax - prec); cbn [at_least_exp]; [ split; [ reflexivity | exact He ] | reflexivity ].
Qed.

Lemma shl_align_spec (mx : positive) (ex ex' : Z) :
  Zpos (fst (shl_align mx ex ex')) = Zpos mx * 2 ^ (ex - Z.min ex ex')
  /\ snd (shl_align mx ex ex') = Z.min ex ex'
  /\ Zpos (digits2_pos (fst (shl_align mx ex ex'))) + snd (shl_align mx ex ex')
     = Zpos (digits2_pos mx) + ex.
Proof.
  unfold shl_align.
  destruct (ex' - ex) as [ | d | d ] eqn:Hd; cbn [fst snd].
  - replace (ex - Z.min ex ex') with 0 by lia. rewrite Z.pow_0_r. lia.
  - replace (ex - Z.min ex ex') with 0 by lia. rewrite Z.pow_0_r. lia.
  - rewrite iter_xO_value, digits2_pos_shift, Pos2Z.inj_add.
    replace (ex - Z.min ex ex') with (Zpos d) by lia. lia.
Qed.

Lemma binary_round_normal (sx : bool) (mx : positive) (ex : Z) :
  SpecFloat.emin prec emax <= Zpos (digits2_pos mx) + ex - prec ->
  at_least_exp sx (Zpos (digits2_pos mx) + ex - prec)
    (binary_round prec emax sx mx ex).
Proof.
  intros Hn. unfold binary_round.
  destruct (shl_align_spec mx ex (fexp prec emax (Zpos (digits2_pos mx) + ex)))
    as (_ & _ & Hd).
  destruct (shl_align mx ex (fexp prec emax (Zpos (digits2_pos mx) + ex))) as [mz ez].
  cbn [fst snd] in Hd. rewrite <- Hd. apply binary_round_aux_normal. lia.
Qed.

(** Below [2^1023] rounding cannot overflow: the exponent of the result
    is at most [971], a carry out of the mantissa included. *)
Lemma binary_round_aux_fits (sx : bool) (mx : positive) (ex : Z) (l : location) :
  ex <= fexp prec emax (Zpos (digits2_pos mx) + ex) ->
  Zpos (digits2_pos mx) + ex <= 1023 ->
  is_finite (binary_round_aux prec emax sx (Zpos mx) ex l) = true.
Proof.
  intros Hal Hd. unfold binary_round_aux.
  destruct (shr_fexp_spec (Zpos mx) ex l ltac:(lia)) as [H1 H1e].
  destruct (shr_fexp prec emax (Zpos mx) ex l) as [mrs' e']. cbn [fst snd] in H1, H1e.
  cbn [Zdigits2] in H1, H1e.
  set (d := Zpos (digits2_pos mx)) in *.
  pose proof (digits2_pos_bounds mx) as [_ Hhi]. fold d in Hhi.
  set (f := fexp prec emax (d + ex)) in *.
  assert (Hf : f = Z.max (d + ex - 53) (-1074))
    by (subst f; unfold fexp, SpecFloat.emin, emax, prec; lia).
  set (n1 := Z.max 0 (f - ex)) in *.
  set (k := Z.max 0 (d - n1)).
  assert (Hp1 : 0 < 2 ^ n1) by (apply Z.pow_pos_nonneg; lia).
  assert (Hm1 : 0 <= shr_m mrs' < 2 ^ k).
  { rewrite H1. split; [ apply Z.div_pos; lia | ].
    apply Z.div_lt_upper_bound; [ exact Hp1 | ].
    rewrite <- Z.pow_add_r by lia.
    apply Z.lt_le_trans with (1 := Hhi). apply Z.pow_le_mono_r; lia. }
  set (m2 := round_nearest_even (shr_m mrs') (loc_of_shr_record mrs')).
  assert (Hm2 : 0 <= m2 <= 2 ^ k).
  { pose proof (round_nearest_even_bounds (shr_m mrs') (loc_of_shr_record mrs')).
    subst m2. lia. }
  destruct (shr_fexp_spec m2 e' loc_Exact ltac:(lia)) as [H3 H3e].
  destruct (shr_fexp prec emax m2 e' loc_Exact) as [mrs'' e'']. cbn [fst snd] in H3, H3e.
  assert (Hm3 : 0 <= shr_m mrs'').
  { rewrite H3. apply Z.div_pos; [ lia | apply Z.pow_pos_nonneg; lia ]. }
  destruct (shr_m mrs'') as [ | p | p ]; [ reflexivity | | lia ].
  destruct m2 as [ | p2 | p2 ]; [ rewrite Z.div_0_l in H3 by (apply Z.pow_nonzero; lia); discriminate | | lia ].
  cbn [Zdigits2] in H3e.
  pose proof (digits2_pos_bounds p2) as [Hlo2 _].
  set (d2 := Zpos (digits2_pos p2)) in *.
  assert (Hd2 : d2 <= k + 1).
  { destruct (Z_le_gt_dec d2 (k + 1)) as [ Hle | Hgt ]; [ exact Hle | exfalso ].
    assert (2 ^ (k + 1) <= 2 ^ (d2 - 1)) by (apply Z.pow_le_mono_r; lia).
    rewrite Z.pow_add_r, Z.pow_1_r in H by lia. lia. }
  assert (He : e'' <= emax - prec).
  { rewrite H3e, H1e. unfold fexp, SpecFloat.emin, emax, prec. lia. }
  apply Z.leb_le in He. rewrite He. reflexivity.
Qed.

Lemma of_int_finite (n : Z) : Z.abs n < 2 ^ 1023 -> is_finite (of_int n) = true.
Proof.
  intros Hn. unfold of_int, dyadic.
  assert (H : forall (sx : bool) (p : positive),
             Zpos p < 2 ^ 1023 -> is_finite (binary_round prec emax sx p 0) = true).
  { intros sx p Hp. unfold binary_round.
    destruct (shl_align_spec p 0 (fexp prec emax (Zpos (digits2_pos p) + 0)))
      as (_ & He & Hd).
    destruct (shl_align p 0 (fexp prec emax (Zpos (digits2_pos p) + 0))) as [mz ez].
    cbn [fst snd] in He, Hd.
    pose proof (digits2_pos_bounds p) as [Hlo _].
    assert (Hdp : Zpos (digits2_pos p) <= 1023).
    { destruct (Z_le_gt_dec (Zpos (digits2_pos p)) 1023) as [ Hle | Hgt ];
        [ exact Hle | exfalso ].
      assert (2 ^ 1023 <= 2 ^ (Zpos (digits2_pos p) - 1)) by (apply Z.pow_le_mono_r; lia).
      lia. }
    apply binary_round_aux_fits; [ rewrite Hd, He; lia | lia ]. }
  destruct n as [ | p | p ]; cbn [binary_normalize]; [ reflexivity | | ];
    apply H; cbn [Z.abs] in Hn; exact Hn.
Qed.

(** An [int] below [2^1023] in magnitude is converted without
    [OverflowError]. *)
Lemma float_of_int_fits (n : Z) :
  Z.abs n < 2 ^ 1023 -> float_of_int n = inr (of_int n).
Proof.
  intros Hn. unfold float_of_int. cbv zeta.
  pose proof (of_int_finite n Hn) as F.
  destruct (of_int n); try discriminate; reflexivity.
Qed.

Lemma binary_round_sign (sx : bool) (mx : positive) (ex : Z) :
  has_sign sx (binary_round prec emax sx mx ex).
Proof.
  unfold binary_round.
  destruct (shl_align mx ex (fexp prec emax (Zpos (digits2_pos mx) + ex))) as [mz ez].
  apply binary_round_aux_sign. lia.
Qed.

Lemma binary_round_opp (mx : positive) (ex : Z) :
  binary_round prec emax true mx ex = SFopp (binary_round prec emax false mx ex).
Proof.
  unfold binary_round.
  destruct (shl_align mx ex (fexp prec emax (Zpos (digits2_pos mx) + ex))) as [mz ez].
  unfold binary_round_aux.
  destruct (shr_fexp prec emax (Zpos mz) ez loc_Exact) as [mrs' e'].
  destruct (shr_fexp prec emax _ e' loc_Exact) as [mrs'' e''].
  destruct (shr_m mrs'') as [ | p | p ]; try reflexivity.
  destruct (e'' <=? emax - prec); reflexivity.
Qed.

(** *** The order of finite floats is the order of their exact values *)

Lemma valid_finite_inv (s : bool) (m : positive) (e : Z) :
  valid (S754_finite s m e) = true ->
  SpecFloat.emin prec emax <= e <= emax - prec
  /\ Zpos (digits2_pos m) <= prec
  /\ (SpecFloat.emin prec emax < e -> Zpos (digits2_pos m) = prec).
Proof.
  unfold valid, valid_binary, bounded, canonical_mantissa, fexp.
  intros H. apply andb_true_iff in H as [H1 H2].
  apply Z.eqb_eq in H1. apply Z.leb_le in H2. lia.
Qed.

Lemma pow2_pos (k : Z) : 0 <= k -> 0 < 2 ^ k.
Proof. intros. apply Z.pow_pos_nonneg; lia. Qed.

Lemma scaled_lt (m1 m2 : positive) (e1 e2 : Z) :
  valid (S754_finite false m1 e1) = true ->
  valid (S754_finite false m2 e2) = true ->
  e1 < e2 ->
  Zpos m1 * 2 ^ (e1 + 1074) < Zpos m2 * 2 ^ (e2 + 1074).
Proof.
  intros V1 V2 He.
  apply valid_finite_inv in V1 as (Hr1 & Hd1 & _).
  apply valid_finite_inv in V2 as (Hr2 & _ & Hd2).
  unfold SpecFloat.emin, emax, prec in *.
  specialize (Hd2 ltac:(lia)).
  pose proof (digits2_pos_bounds m1) as [_ Hm1].
  pose proof (digits2_pos_bounds m2) as [Hm2 _].
  rewrite Hd2 in Hm2.
  assert (Hm1' : Zpos m1 < 2 ^ 53)
    by (eapply Z.lt_le_trans; [ exact Hm1 | apply Z.pow_le_mono_r; lia ]).
  replace (e2 + 1074) with ((e2 - e1 - 1) + 1 + (e1 + 1074)) by lia.
  rewrite (Z.pow_add_r 2 (e2 - e1 - 1 + 1) (e1 + 1074)) by lia.
  rewrite (Z.pow_add_r 2 (e2 - e1 - 1) 1) by lia.
  pose proof (pow2_pos (e1 + 1074) ltac:(lia)) as HA.
  pose proof (pow2_pos (e2 - e1 - 1) ltac:(lia)) as HB.
  set (A := 2 ^ (e1 + 1074)) in *. set (B := 2 ^ (e2 - e1 - 1)) in *.
  change (2 ^ 1) with 2. change (2 ^ (53 - 1)) with 4503599627370496 in Hm2.
  change (2 ^ 53) with 9007199254740992 in Hm1'.
  assert (Zpos m1 * A < 9007199254740992 * A) by nia.
  assert (HmB : 4503599627370496 <= Zpos m2 * B) by nia.
  assert (9007199254740992 * A <= (Zpos m2 * B) * 2 * A).
  { apply Z.mul_le_mono_nonneg_r; lia. }
  lia.
Qed.

Lemma compare_units_pos (m1 m2 : positive) (e1 e2 : Z) :
  valid (S754_finite false m1 e1) = true ->
  valid (S754_finite false m2 e2) = true ->
  match (e1 ?= e2) with
  | Lt => Lt
  | Gt => Gt
  | Eq => Pos.compare_cont Eq m1 m2
  end = (Zpos m1 * 2 ^ (e1 + 1074) ?= Zpos m2 * 2 ^ (e2 + 1074)).
Proof.
  intros V1 V2. symmetry.
  destruct (Z.compare_spec e1 e2) as [He | He | He].
  - subst e2. apply valid_finite_inv in V1 as (Hr1 & _).
    unfold SpecFloat.emin, emax, prec in *.
    pose proof (pow2_pos (e1 + 1074) ltac:(lia)) as HA.
    change (Pos.compare_cont Eq m1 m2) with (Zpos m1 ?= Zpos m2).
    destruct (Z.compare_spec (Zpos m1) (Zpos m2)) as [Hm | Hm | Hm].
    + rewrite Hm. apply Z.compare_refl.
    + apply Z.compare_lt_iff. nia.
    + apply Z.compare_gt_iff. nia.
  - apply Z.compare_lt_iff. now apply scaled_lt.
  - apply Z.compare_gt_iff. now apply scaled_lt.
Qed.

Lemma units_pos (s : bool) (m : positive) (e : Z) :
  valid (S754_finite s m e) = true -> 0 < Zpos m * 2 ^ (e + 1074).
Proof.
  intros V. apply valid_finite_inv in V as (Hr & _).
  unfold SpecFloat.emin, emax, prec in *.
  apply Z.mul_pos_pos; [ lia | apply pow2_pos; lia ].
Qed.

Lemma valid_sign (s s' : bool) (m : positive) (e : Z) :
  valid (S754_finite s m e) = valid (S754_finite s' m e).
Proof. reflexivity. Qed.

Theorem compare_units (x y : float) :
  valid x = true -> valid y = true ->
  is_finite x = true -> is_finite y = true ->
  SFcompare x y = Some (units x ?= units y).
Proof.
  intros Vx Vy Fx Fy.
  destruct x as [sx | sx | | sx mx ex]; try discriminate;
  destruct y as [sy | sy | | sy my ey]; try discriminate;
  cbn [SFcompare units].
  - reflexivity.
  - pose proof (units_pos _ _ _ Vy). f_equal. symmetry.
    destruct sy; cbn [cond_Zopp];
      [ apply Z.compare_gt_iff | apply Z.compare_lt_iff ]; lia.
  - pose proof (units_pos _ _ _ Vx). f_equal. symmetry.
    destruct sx; cbn [cond_Zopp];
      [ apply Z.compare_lt_iff | apply Z.compare_gt_iff ]; lia.
  - pose proof (units_pos _ _ _ Vx). pose proof (units_pos _ _ _ Vy).
    f_equal.
    destruct sx, sy; cbn [cond_Zopp].
    + rewrite (valid_sign true false) in Vx, Vy.
      rewrite Z.compare_opp.
      rewrite <- (compare_units_pos my mx ey ex Vy Vx).
      rewrite (Z.compare_antisym ey ex).
      destruct (ey ?= ex); cbn [CompOpp]; try reflexivity.
      change (Pos.compare_cont Eq) with Pos.compare.
      symmetry. apply Pos.compare_antisym.
    + symmetry. apply Z.compare_lt_iff. lia.
    + symmetry. apply Z.compare_gt_iff. lia.
    + exact (compare_units_pos mx my ex ey Vx Vy).
Qed.

Corollary ltb_units (x y : float) :
  valid x = true -> valid y = true ->
  is_finite x = true -> is_finite y = true ->
  (x <? y)%f64 = (units x <? units y).
Proof.
  intros. unfold ltb, SFltb, Z.ltb. rewrite compare_units by assumption.
  destruct (units x ?= units y); reflexivity.
Qed.

Corollary leb_units (x y : float) :
  valid x = true -> valid y = true ->
  is_finite x = true -> is_finite y = true ->
  (x <=? y)%f64 = (units x <=? units y).
Proof.
  intros. unfold leb, SFleb, Z.leb. rewrite compare_units by assumption.
  destruct (units x ?= units y); reflexivity.
Qed.

Corollary eqb_units (x y : float) :
  valid x = true -> valid y = true ->
  is_finite x = true -> is_finite y = true ->
  (x == y)%f64 = (units x =? units y).
Proof.
  intros. unfold eqb, SFeqb. rewrite compare_units by assumption.
  destruct (Z.compare_spec (units x) (units y)); symmetry;
    [ apply Z.eqb_eq | apply Z.eqb_neq | apply Z.eqb_neq ]; lia.
Qed.

(** *** Structural facts on comparisons, for every float *)

Lemma compare_antisym (x y : float) :
  SFcompare y x = option_map CompOpp (SFcompare x y).
Proof.
  destruct x as [sx | sx | | sx mx ex], y as [sy | sy | | sy my ey];
    cbn [SFcompare option_map]; try reflexivity;
    try (destruct sx; reflexivity); try (destruct sy; reflexivity);
    try (destruct sx, sy; reflexivity).
  destruct sx, sy; cbn [CompOpp]; try reflexivity;
    rewrite (Z.compare_antisym ex ey);
    destruct (ex ?= ey); cbn [CompOpp]; try reflexivity;
    change (Pos.compare_cont Eq) with Pos.compare;
    rewrite (Pos.compare_antisym mx my);
    destruct (mx ?= my)%positive; reflexivity.
Qed.

Lemma ltb_asym (x y : float) : (x <? y)%f64 = true -> (y <? x)%f64 = false.
Proof.
  unfold ltb, SFltb. rewrite (compare_antisym x y).
  destruct (SFcompare x y) as [ [ | | ] | ]; cbn; congruence.
Qed.

Lemma compare_eq_inv (x y : float) :
  SFcompare x y = Some Eq ->
  x = y \/ (exists s s', x = S754_zero s /\ y = S754_zero s').
Proof.
  destruct x as [sx | sx | | sx mx ex], y as [sy | sy | | sy my ey];
    cbn [SFcompare]; try discriminate;
    try (destruct sx; discriminate); try (destruct sy; discriminate).
  - intros _. right. now exists sx, sy.
  - destruct sx, sy; try discriminate; now left.
  - intros H. left.
    destruct sx, sy; try discriminate;
      destruct (Z.compare_spec ex ey) as [He | He | He]; try discriminate;
      change (Pos.compare_cont Eq mx my) with (mx ?= my)%positive in H;
      destruct (Pos.compare_spec mx my) as [Hm | Hm | Hm]; try discriminate;
      now subst.
Qed.

Lemma not_nan_compare (x y : float) :
  is_nan x = false -> is_nan y = false -> exists c, SFcompare x y = Some c.
Proof.
  destruct x, y; cbn; try discriminate; intros _ _; eexists; reflexivity.
Qed.

(** *** Signs of sums, squares and square roots *)

Lemma has_sign_not_nan (sx : bool) (x : float) : has_sign sx x -> is_nan x = false.
Proof. destruct x; cbn; tauto. Qed.

Lemma mul_self_sign (x : float) :
  is_nan x = false -> has_sign false (x * x)%f64.
Proof.
  destruct x as [s | s | | s m e]; cbn; try discriminate; intros _.
  - now destruct s.
  - now destruct s.
  - replace (xorb s s) with false by (now destruct s).
    apply binary_round_aux_sign. lia.
Qed.

Lemma add_sign (x y : float) :
  has_sign false x -> has_sign false y -> has_sign false (x + y)%f64.
Proof.
  destruct x as [sx | sx | | sx mx ex], y as [sy | sy | | sy my ey];
    cbn [has_sign]; try tauto; intros -> ->; try reflexivity.
  unfold add, SFadd. cbn [cond_Zopp Z.add binary_normalize].
  apply binary_round_sign.
Qed.

Lemma sqrt_sign (x : float) : has_sign false x -> has_sign false (sqrt x).
Proof.
  destruct x as [s | s | | s m e]; cbn [has_sign]; try tauto; intros ->;
    try reflexivity.
  unfold sqrt, SFsqrt, SFsqrt_core_binary.
  set (m' := match _ with Z0 => _ | Zpos _ => _ | Zneg _ => _ end).
  pose proof (Z.sqrtrem_sqrt m') as Hq. pose proof (Z.sqrt_nonneg m') as Hs.
  destruct (Z.sqrtrem m') as [q r]. cbn [fst] in Hq. subst q.
  apply binary_round_aux_sign. exact Hs.
Qed.

(** *** The spacing of a finite float *)

Local Open Scope f64_scope.



Lemma shl_align_same (m : positive) (e : Z) : shl_align m e e = (m, e).
Proof. unfold shl_align. now rewrite Z.sub_diag. Qed.

Lemma spacing_finite (s : bool) (m : positive) (e : Z) :
  valid (S754_finite s m e) = true ->
  spacing (S754_finite s m e) = binary_round prec emax s 1 e
  \/ (m = 9007199254740991%positive /\ e = 971%Z).
Proof.
  intros V. pose proof (valid_finite_inv _ _ _ V) as (Hr & Hd & _).
  unfold spacing, next_away. cbn [is_inf].
  destruct (Zpos (digits2_pos (Pos.succ m)) <=? prec)%Z eqn:Hs.
  - left. unfold sub, SFsub. rewrite Z.min_id, !shl_align_same. cbn [fst].
    replace (cond_Zopp s (Zpos (Pos.succ m)) - cond_Zopp s (Zpos m))%Z
      with (cond_Zopp s 1) by (destruct s; cbn [cond_Zopp]; lia).
    now destruct s.
  - apply Z.leb_gt in Hs.
    assert (Hm : m = 9007199254740991%positive).
    { pose proof (digits2_pos_bounds m) as [_ Hhi].
      pose proof (digits2_pos_bounds (Pos.succ m)) as [Hlo _].
      assert (2 ^ Zpos (digits2_pos m) <= 2 ^ 53)%Z
        by (apply Z.pow_le_mono_r; unfold prec in *; lia).
      assert (2 ^ 53 <= 2 ^ (Zpos (digits2_pos (Pos.succ m)) - 1))%Z
        by (apply Z.pow_le_mono_r; unfold prec in *; lia).
      change (2 ^ 53)%Z with 9007199254740992%Z in *. lia. }
    subst m.
    destruct (e + 1 <=? emax - prec)%Z eqn:He.
    + left. apply Z.leb_le in He.
      unfold sub, SFsub.
      replace (Z.min (e + 1) e) with e by lia.
      rewrite shl_align_same.
      unfold shl_align. replace (e - (e + 1))%Z with (-1)%Z by lia.
      cbn [fst Pos.succ Pos.div2 Pos.iter].
      replace (cond_Zopp s _ - cond_Zopp s _)%Z
        with (cond_Zopp s 1) by (destruct s; cbn [cond_Zopp]; lia).
      now destruct s.
    + right. apply Z.leb_gt in He. unfold SpecFloat.emin, emax, prec in *.
      split; [ reflexivity | lia ].
Qed.

(** *** Finite floats and their exact values *)

Lemma real_opp (x : float) : real x -> real (- x).
Proof. unfold real. destruct x; cbn; tauto. Qed.

Lemma units_opp (x : float) : units (- x) = (- units x)%Z.
Proof. destruct x as [ | | | s m e]; try reflexivity. cbn. destruct s; cbn; lia. Qed.

Lemma ltb_real (x y : float) : real x -> real y -> (x <? y) = (units x <? units y)%Z.
Proof. intros [] []. now apply ltb_units. Qed.

Lemma leb_real (x y : float) : real x -> real y -> (x <=? y) = (units x <=? units y)%Z.
Proof. intros [] []. now apply leb_units. Qed.

End F64Facts.

(* ================================================================= *)
(** ** The monotone chain is correct in exact arithmetic *)

Module ExactFacts.

Import Exact.
Local Open Scope Z_scope.

Lemma turn_trans (u v w : zpoint) :
  lexpos u -> lexpos v -> lexpos w ->
  0 <= cross_v u v -> 0 <= cross_v v w -> 0 <= cross_v u w.
Proof.
  destruct u as [ux uy], v as [vx vy], w as [wx wy].
  unfold lexpos, cross_v; cbn [fst snd]. intros Hu Hv Hw H1 H2.
  assert (I : vx * (ux * wy - uy * wx) = ux * (vx * wy - vy * wx) + wx * (ux * vy - uy * vx)) by ring.
  destruct Hv as [Hv | [Hv Hv']].
  - assert (0 <= ux) by lia. assert (0 <= wx) by lia.
    assert (0 <= vx * (ux * wy - uy * wx)) by (rewrite I; nia).
    nia.
  - subst vx. assert (wx = 0) by nia. subst wx. nia.
Qed.

Lemma turn_trans_strict (u v w : zpoint) :
  lexpos u -> lexpos v -> lexpos w ->
  0 < cross_v u v -> 0 < cross_v v w -> 0 < cross_v u w.
Proof.
  destruct u as [ux uy], v as [vx vy], w as [wx wy].
  unfold lexpos, cross_v; cbn [fst snd]. intros Hu Hv Hw H1 H2.
  assert (I : vx * (ux * wy - uy * wx) = ux * (vx * wy - vy * wx) + wx * (ux * vy - uy * vx)) by ring.
  destruct Hv as [Hv | [Hv Hv']].
  - assert (0 <= ux) by lia. assert (0 <= wx) by lia.
    assert (0 < ux \/ 0 < wx) by nia.
    assert (0 < vx * (ux * wy - uy * wx)) by (rewrite I; nia).
    nia.
  - subst vx. nia.
Qed.

Lemma before_lexpos (sgn : bool) (a b : zpoint) :
  before sgn a b -> lexpos (dvec sgn a b).
Proof.
  destruct sgn; unfold before, lex_lt, dvec, vec, lexpos; cbn [fst snd]; lia.
Qed.

Lemma before_trans (sgn : bool) (a b c : zpoint) :
  before sgn a b -> before sgn b c -> before sgn a c.
Proof. destruct sgn; unfold before, lex_lt; lia. Qed.

Lemma before_irrefl (sgn : bool) (a : zpoint) : ~ before sgn a a.
Proof. destruct sgn; unfold before, lex_lt; lia. Qed.

Lemma before_total (sgn : bool) (a b : zpoint) :
  before sgn a b \/ a = b \/ before sgn b a.
Proof.
  destruct a as [ax ay], b as [bx by_].
  destruct sgn; unfold before, lex_lt; cbn [fst snd];
    destruct (Z.lt_total ax bx) as [ | [ | ] ];
    destruct (Z.lt_total ay by_) as [ | [ | ] ]; subst; auto; lia.
Qed.

Lemma cross_dvec (sgn : bool) (o a b : zpoint) :
  cross_Z o a b = cross_v (dvec sgn o a) (dvec sgn o b).
Proof. destruct sgn; unfold cross_Z, cross_v, dvec, vec; cbn [fst snd]; ring. Qed.

(** G1: a strict left turn at [a], then one at [b], is one seen from [a']. *)
Lemma chain_turn (sgn : bool) (a' a b p : zpoint) :
  before sgn a' a -> before sgn a b -> before sgn b p ->
  0 < cross_Z a' a b -> 0 < cross_Z a b p -> 0 < cross_Z a' a p.
Proof.
  intros B1 B2 B3 H1 H2.
  pose proof (before_lexpos _ _ _ B1) as Pu.
  pose proof (before_lexpos _ _ _ B2) as Pv.
  pose proof (before_lexpos _ _ _ (before_trans _ _ _ _ B2 B3)) as Pw.
  pose proof (turn_trans_strict _ _ _ Pu Pv Pw) as T.
  assert (E1 : cross_Z a' a b = cross_v (dvec sgn a' a) (dvec sgn a b))
    by (destruct sgn; unfold cross_Z, cross_v, dvec, vec; cbn [fst snd]; ring).
  assert (E2 : cross_Z a b p = cross_v (dvec sgn a b) (dvec sgn a p))
    by (apply cross_dvec).
  assert (E3 : cross_Z a' a p = cross_v (dvec sgn a' a) (dvec sgn a p))
    by (destruct sgn; unfold cross_Z, cross_v, dvec, vec; cbn [fst snd]; ring).
  rewrite E3. apply T; [ now rewrite <- E1 | now rewrite <- E2 ].
Qed.

(** G2: [q] before [b], on the left of the edge [a -> b] that turns left
    towards [p]: [q] is on the left of [b -> p]. *)
Lemma behind_edge (sgn : bool) (a b p q : zpoint) :
  before sgn q b -> before sgn a b -> before sgn b p ->
  0 <= cross_Z a b q -> 0 < cross_Z a b p -> 0 <= cross_Z b p q.
Proof.
  intros Bq Ba Bp H1 H2.
  pose proof (before_lexpos _ _ _ Bq) as Pu.
  pose proof (before_lexpos _ _ _ Ba) as Pd.
  pose proof (before_lexpos _ _ _ Bp) as Pw.
  pose proof (turn_trans _ _ _ Pu Pd Pw) as T.
  assert (E1 : cross_Z a b q = cross_v (dvec sgn q b) (dvec sgn a b))
    by (destruct sgn; unfold cross_Z, cross_v, dvec, vec; cbn [fst snd]; ring).
  assert (E2 : cross_Z a b p = cross_v (dvec sgn a b) (dvec sgn b p))
    by (destruct sgn; unfold cross_Z, cross_v, dvec, vec; cbn [fst snd]; ring).
  assert (E3 : cross_Z b p q = cross_v (dvec sgn q b) (dvec sgn b p))
    by (destruct sgn; unfold cross_Z, cross_v, dvec, vec; cbn [fst snd]; ring).
  rewrite E3. apply T; [ now rewrite <- E1 | rewrite <- E2; lia ].
Qed.

(** G3: [q] after [b], on the left of the edge [b -> c] that does not turn
    left towards [p]: [q] is on the left of [b -> p]. *)
Lemma ahead_of_edge (sgn : bool) (b c p q : zpoint) :
  before sgn b q -> before sgn b c -> before sgn b p ->
  0 <= cross_Z b c q -> cross_Z b c p <= 0 -> 0 <= cross_Z b p q.
Proof.
  intros Bq Bc Bp H1 H2.
  pose proof (before_lexpos _ _ _ Bq) as Pz.
  pose proof (before_lexpos _ _ _ Bc) as Pv.
  pose proof (before_lexpos _ _ _ Bp) as Pw.
  pose proof (turn_trans _ _ _ Pw Pv Pz) as T.
  rewrite (cross_dvec sgn) in H1, H2 |- *.
  apply T; [ | exact H1 ].
  unfold cross_v in *. lia.
Qed.

Lemma cross_same (a b : zpoint) : cross_Z a b a = 0 /\ cross_Z a b b = 0.
Proof. unfold cross_Z. split; ring. Qed.

Lemma adj2_cons {A : Type} (R : A -> A -> Prop) (a b : A) (l : list A) :
  adj2 R (a :: b :: l) = (R a b /\ adj2 R (b :: l)).
Proof. reflexivity. Qed.

Lemma adj3_cons {A : Type} (R : A -> A -> A -> Prop) (a b c : A) (l : list A) :
  adj3 R (a :: b :: c :: l) = (R a b c /\ adj3 R (b :: c :: l)).
Proof. reflexivity. Qed.

Section Pass.

Variable sgn : bool.
Variable bot : zpoint.

Lemma chain_inv_tail (c b : zpoint) (rest done : list zpoint) :
  chain_inv sgn bot (c :: b :: rest) done -> chain_inv sgn bot (b :: rest) done.
Proof.
  intros (Hi & [l Hl] & Hb & H2 & H3 & Hq).
  refine (conj _ (conj _ (conj _ (conj _ (conj _ _))))).
  - intros x Hx. apply Hi. now right.
  - destruct l as [ | c' l ]; [ discriminate | ].
    injection Hl as _ Hl. now exists l.
  - exact Hb.
  - cbn [adj2] in H2. tauto.
  - cbn [adj3] in H3. destruct rest; [ exact I | tauto ].
  - intros q Hq'. specialize (Hq q Hq'). cbn [adj2] in Hq. tauto.
Qed.

Lemma pop_inv (p : zpoint) (done : list zpoint) :
  (forall q, In q done -> before sgn q p) ->
  forall stack,
    chain_inv sgn bot stack done -> ahead sgn p stack done ->
    chain_inv sgn bot (pop_while_exact stack p) done
    /\ ahead sgn p (pop_while_exact stack p) done
    /\ turns_to p (pop_while_exact stack p).
Proof.
  intros Hp stack. induction stack as [ | c stack IH ]; intros Hinv Hah.
  - cbn. tauto.
  - destruct stack as [ | b rest ].
    + cbn. tauto.
    + cbn [pop_while_exact].
      destruct (Z.leb_spec (cross_Z b c p) 0) as [Hle | Hgt].
      * apply IH; [ now apply chain_inv_tail with c | ].
        destruct Hinv as (Hi & _ & _ & H2 & _ & Hq).
        cbn [ahead]. intros q Hq' [-> | Hbq].
        -- pose proof (cross_same b p). lia.
        -- specialize (Hq q Hq'). cbn [adj2] in Hq, H2.
           apply (ahead_of_edge sgn b c p q); try tauto.
           apply Hp, Hi. right. now left.
      * cbn [turns_to]. tauto.
Qed.

Lemma turns_all (p : zpoint) :
  forall stack,
    adj2 (fun y x => before sgn x y) stack ->
    adj3 (fun c b a => 0 < cross_Z a b c) stack ->
    (forall x, In x stack -> before sgn x p) ->
    turns_to p stack ->
    adj2 (fun b a => 0 < cross_Z a b p) stack.
Proof.
  induction stack as [ | b stack IH ]; intros H2 H3 Hp Ht; [ exact I | ].
  destruct stack as [ | a rest ]; [ exact I | ].
  cbn [adj2 turns_to] in *. split; [ exact Ht | ].
  apply IH.
  - tauto.
  - cbn [adj3] in H3. destruct rest; [ exact I | tauto ].
  - intros x Hx. apply Hp. now right.
  - destruct rest as [ | a' rest' ]; [ exact I | ].
    cbn [turns_to adj2 adj3] in *.
    apply (chain_turn sgn a' a b p); try tauto.
    apply Hp. now left.
Qed.

Lemma before_asym (a b : zpoint) : before sgn a b -> before sgn b a -> False.
Proof. intros H1 H2. exact (before_irrefl _ _ (before_trans _ _ _ _ H1 H2)). Qed.

Lemma adj2_impl {A : Type} (R R' : A -> A -> Prop) (l : list A) :
  (forall a b, R a b -> R' a b) -> adj2 R l -> adj2 R' l.
Proof.
  intros HR. induction l as [ | a l IH ]; [ exact id | ].
  destruct l as [ | b l ]; [ exact id | ].
  cbn [adj2] in *. intros [H1 H2]. split; [ now apply HR | now apply IH ].
Qed.

Lemma push_inv (p : zpoint) (stack done : list zpoint) :
  (forall q, In q done -> before sgn q p) ->
  stack <> [] ->
  chain_inv sgn bot stack done -> ahead sgn p stack done -> turns_to p stack ->
  chain_inv sgn bot (p :: stack) (p :: done).
Proof.
  intros Hp Hne Hinv Hah Ht.
  destruct stack as [ | b rest ]; [ congruence | clear Hne ].
  pose proof Hinv as (Hi & [l Hl] & Hb & H2 & H3 & Hq).
  assert (Hbp : before sgn b p) by (apply Hp, Hi; now left).
  refine (conj _ (conj _ (conj _ (conj _ (conj _ _))))).
  - intros x [ <- | Hx ]; [ now left | right; now apply Hi ].
  - exists (p :: l). cbn. now rewrite Hl.
  - intros q [ <- | Hq' ]; [ | now apply Hb ].
    destruct (Hb b (Hi b (or_introl eq_refl))) as [ <- | Hbb ]; [ now right | ].
    right. now apply before_trans with b.
  - cbn [adj2]. split; assumption.
  - cbn [adj3]. destruct rest as [ | a rest' ]; [ exact I | ].
    split; [ exact Ht | exact H3 ].
  - intros q [ <- | Hq' ]; rewrite adj2_cons; split.
    + pose proof (cross_same b p). lia.
    + eapply adj2_impl; [ | apply (turns_all p (b :: rest)); try assumption ].
      * cbv beta. intros. lia.
      * intros x Hx. now apply Hp, Hi.
    + destruct (before_total sgn b q) as [ Hbq | [ <- | Hqb ] ].
      * apply Hah; [ exact Hq' | now right ].
      * apply Hah; [ exact Hq' | now left ].
      * destruct rest as [ | a rest' ].
        -- exfalso. destruct l as [ | ? [ | ] ]; try discriminate.
           injection Hl as <-.
           destruct (Hb q Hq') as [ -> | Hbq ];
             [ exact (before_irrefl _ _ Hqb) | exact (before_asym _ _ Hqb Hbq) ].
        -- specialize (Hq q Hq'). cbn [adj2 turns_to] in *.
           apply (behind_edge sgn a b p q); tauto.
    + now apply Hq.
Qed.

Lemma chain_inv_nonempty (stack done : list zpoint) :
  chain_inv sgn bot stack done -> stack <> [].
Proof. intros (_ & [l ->] & _). now destruct l. Qed.

Lemma step_inv (p : zpoint) (stack done : list zpoint) :
  (forall q, In q done -> before sgn q p) ->
  chain_inv sgn bot stack done -> top_max sgn stack done ->
  chain_inv sgn bot (p :: pop_while_exact stack p) (p :: done)
  /\ top_max sgn (p :: pop_while_exact stack p) (p :: done).
Proof.
  intros Hp Hinv Htop.
  assert (Hah : ahead sgn p stack done).
  { destruct stack as [ | top rest ]; [ exact I | ].
    cbn [ahead top_max] in *. intros q Hq [ -> | Htq ].
    - pose proof (cross_same top p). lia.
    - destruct (Htop q Hq) as [ -> | Hqt ].
      + pose proof (cross_same top p). lia.
      + destruct (before_asym _ _ Htq Hqt). }
  destruct (pop_inv p done Hp stack Hinv Hah) as (Hinv' & Hah' & Ht').
  split.
  - apply push_inv; try assumption. now apply chain_inv_nonempty with done.
  - cbn [top_max]. intros q [ <- | Hq ]; [ now left | right; now apply Hp ].
Qed.

Lemma pass_inv (rest : list zpoint) :
  forall stack done,
    StronglySorted (before sgn) rest ->
    (forall q p, In q done -> In p rest -> before sgn q p) ->
    chain_inv sgn bot stack done -> top_max sgn stack done ->
    chain_inv sgn bot (fold_left (fun st p => p :: pop_while_exact st p) rest stack)
              (rev rest ++ done).
Proof.
  induction rest as [ | p rest IH ]; intros stack done Hs Hd Hinv Htop.
  - exact Hinv.
  - cbn [fold_left rev]. rewrite <- app_assoc. cbn [app].
    inversion Hs as [ | ? ? Hs' Hall ]; subst.
    rewrite Forall_forall in Hall.
    destruct (step_inv p stack done) as [Hinv' Htop']; try assumption.
    { intros q Hq. apply Hd; [ exact Hq | now left ]. }
    apply IH; try assumption.
    intros q p' [ <- | Hq ] Hp'; [ now apply Hall | apply Hd; [ exact Hq | now right ] ].
Qed.

End Pass.

Lemma hull_pass_exact_snoc (l : list zpoint) (p : zpoint) :
  hull_pass_exact (l ++ [p]) = p :: pop_while_exact (hull_pass_exact l) p.
Proof. unfold hull_pass_exact. now rewrite fold_left_app. Qed.

(** One pass over a list sorted in the order of the pass. *)
Theorem pass_spec (sgn : bool) (bot : zpoint) (rest : list zpoint) :
  StronglySorted (before sgn) (bot :: rest) ->
  chain_inv sgn bot (hull_pass_exact (bot :: rest)) (rev rest ++ [bot]).
Proof.
  intros Hs. inversion Hs as [ | ? ? Hs' Hall ]; subst.
  rewrite Forall_forall in Hall.
  unfold hull_pass_exact. cbn [fold_left pop_while_exact].
  apply pass_inv; try assumption.
  - intros q p [ <- | [] ] Hp. now apply Hall.
  - refine (conj _ (conj _ (conj _ (conj _ (conj _ _))))); cbn; try tauto.
    + apply incl_refl.
    + now exists [].
    + intros q [ <- | [] ]. now left.
  - cbn. intros q [ <- | [] ]. now left.
Qed.

(** ** Lists of consecutive pairs and triples *)

Lemma adj2_glue {A : Type} (R : A -> A -> Prop) (x : A) (r : list A) :
  forall l, adj2 R (l ++ [x]) -> adj2 R (x :: r) -> adj2 R (l ++ x :: r).
Proof.
  induction l as [ | a l IH ]; intros H1 H2; [ exact H2 | ].
  destruct l as [ | b l ].
  - cbn [app] in *. rewrite adj2_cons in *. tauto.
  - cbn [app] in *. rewrite adj2_cons in *. split; [ tauto | ].
    apply IH; tauto.
Qed.

Lemma adj2_unglue {A : Type} (R : A -> A -> Prop) (x : A) (r : list A) :
  forall l, adj2 R (l ++ x :: r) -> adj2 R (l ++ [x]) /\ adj2 R (x :: r).
Proof.
  induction l as [ | a l IH ]; intros H; [ split; [ exact I | exact H ] | ].
  destruct l as [ | b l ].
  - cbn [app] in *. rewrite adj2_cons in H. cbn [adj2]. tauto.
  - cbn [app] in *. rewrite adj2_cons in *. destruct (IH (proj2 H)). tauto.
Qed.

Lemma adj2_rev {A : Type} (R : A -> A -> Prop) (l : list A) :
  adj2 (fun a b => R b a) l -> adj2 R (rev l).
Proof.
  induction l as [ | a l IH ]; intros H; [ exact I | ].
  destruct l as [ | b l ]; [ exact I | ].
  rewrite adj2_cons in H. cbn [rev] in *. rewrite <- app_assoc. cbn [app].
  apply adj2_glue; [ apply IH; tauto | cbn; tauto ].
Qed.

Lemma adj3_glue {A : Type} (T : A -> A -> A -> Prop) (y x z : A) (r : list A) :
  forall l, adj3 T (l ++ [y; x]) -> adj3 T (x :: z :: r) -> T y x z ->
            adj3 T (l ++ y :: x :: z :: r).
Proof.
  induction l as [ | a l IH ]; intros H1 H2 H3.
  - cbn [app]. rewrite adj3_cons. tauto.
  - destruct l as [ | b l ].
    + cbn [app] in *. rewrite adj3_cons in H1. rewrite !adj3_cons.
      rewrite adj3_cons in IH. tauto.
    + destruct l as [ | c l ].
      * cbn [app] in *. rewrite adj3_cons in H1. rewrite adj3_cons.
        split; [ tauto | ]. apply IH; tauto.
      * cbn [app] in *. rewrite adj3_cons in H1. rewrite adj3_cons.
        split; [ tauto | ]. apply IH; tauto.
Qed.

Lemma adj3_snoc {A : Type} (T : A -> A -> A -> Prop) (y x z : A) :
  forall l, adj3 T (l ++ [y; x]) -> T y x z -> adj3 T (l ++ [y; x; z]).
Proof.
  induction l as [ | a l IH ]; intros H1 H3.
  - cbn. tauto.
  - destruct l as [ | b l ].
    + cbn [app] in *. rewrite adj3_cons in H1. rewrite adj3_cons. cbn. tauto.
    + destruct l as [ | c l ].
      * cbn [app] in *. rewrite adj3_cons in H1. rewrite adj3_cons.
        split; [ tauto | ]. apply IH; tauto.
      * cbn [app] in *. rewrite adj3_cons in H1. rewrite adj3_cons.
        split; [ tauto | ]. apply IH; tauto.
Qed.

Lemma adj3_rev {A : Type} (T : A -> A -> A -> Prop) (l : list A) :
  adj3 (fun a b c => T c b a) l -> adj3 T (rev l).
Proof.
  induction l as [ | a l IH ]; intros H; [ exact I | ].
  destruct l as [ | b l ]; [ exact I | ].
  destruct l as [ | c l ]; [ exact I | ].
  rewrite adj3_cons in H. specialize (IH (proj2 H)).
  cbn [rev] in *. rewrite <- !app_assoc in *. cbn [app] in *.
  apply adj3_snoc; tauto.
Qed.

(** ** Corners: where the two chains meet *)

Lemma parallel_sign (d e w : zpoint) :
  lexpos d -> lexpos e -> cross_v d e = 0 ->
  0 <= cross_v d w -> cross_v e w <= 0 -> cross_v d w = 0.
Proof.
  destruct d as [dx dy], e as [ex ey], w as [wx wy].
  unfold lexpos, cross_v; cbn [fst snd]. intros Hd He Hp H1 H2.
  assert (I1 : dx * (ex * wy - ey * wx) = ex * (dx * wy - dy * wx) - wx * (dx * ey - dy * ex)) by ring.
  assert (I2 : dy * (ex * wy - ey * wx) = ey * (dx * wy - dy * wx) - wy * (dx * ey - dy * ex)) by ring.
  rewrite Hp in I1, I2. rewrite Z.mul_0_r, Z.sub_0_r in I1, I2.
  destruct Hd as [Hd | [Hd Hd']].
  - assert (0 < ex) by nia. nia.
  - subst dx. assert (ex = 0) by nia. subst ex. nia.
Qed.

Lemma collinear_three (d x a b c : zpoint) :
  d <> (0, 0) ->
  cross_v d (vec x a) = 0 -> cross_v d (vec x b) = 0 -> cross_v d (vec x c) = 0 ->
  cross_Z a b c = 0.
Proof.
  destruct d as [dx dy], x as [xx xy], a as [ax ay], b as [bx by_], c as [cx cy].
  unfold cross_v, cross_Z, vec; cbn [fst snd]. intros Hd Ha Hb Hc.
  set (ux := bx - ax) in *. set (uy := by_ - ay) in *.
  set (vx := cx - ax) in *. set (vy := cy - ay) in *.
  assert (Hu : dx * uy - dy * ux = 0) by (subst ux uy; lia).
  assert (Hv : dx * vy - dy * vx = 0) by (subst vx vy; lia).
  assert (Ix : dx * (ux * vy - uy * vx) = ux * (dx * vy - dy * vx) - vx * (dx * uy - dy * ux)) by ring.
  assert (Iy : dy * (ux * vy - uy * vx) = uy * (dx * vy - dy * vx) - vy * (dx * uy - dy * ux)) by ring.
  rewrite Hu, Hv in Ix, Iy.
  assert (Hnz : dx <> 0 \/ dy <> 0).
  { destruct (Z.eq_dec dx 0) as [ -> | ]; [ | now left ].
    destruct (Z.eq_dec dy 0) as [ -> | ]; [ congruence | now right ]. }
  clearbody ux uy vx vy. nia.
Qed.

Lemma corner_strict (sgn : bool) (pts : list zpoint) (y x z : zpoint) :
  before sgn y x -> before sgn z x ->
  In z pts ->
  (forall q, In q pts -> 0 <= cross_Z y x q) ->
  (forall q, In q pts -> 0 <= cross_Z x z q) ->
  (exists a b c, In a pts /\ In b pts /\ In c pts /\ cross_Z a b c <> 0) ->
  0 < cross_Z y x z.
Proof.
  intros By Bz Hz H1 H2 (a & b & c & Ha & Hb & Hc & Hn).
  pose proof (before_lexpos _ _ _ By) as Pd.
  pose proof (before_lexpos _ _ _ Bz) as Pe.
  destruct (Z.eq_dec (cross_Z y x z) 0) as [ H0 | H0 ];
    [ exfalso | specialize (H1 z Hz); lia ].
  assert (Hpar : cross_v (dvec sgn y x) (dvec sgn z x) = 0).
  { revert H0. destruct sgn; unfold cross_Z, cross_v, dvec, vec; cbn [fst snd]; lia. }
  assert (Hall : forall q, In q pts -> cross_v (dvec sgn y x) (vec x q) = 0).
  { intros q Hq. specialize (H1 q Hq). specialize (H2 q Hq).
    destruct sgn.
    - assert (E : cross_v (dvec true y x) (vec x q) = - cross_v (dvec true y x) (vec q x))
        by (unfold cross_v, dvec, vec; cbn [fst snd]; ring).
      rewrite E. 
      enough (cross_v (dvec true y x) (vec q x) = 0) by lia.
      apply (parallel_sign _ (dvec true z x)); try assumption.
      + revert H1. unfold cross_Z, cross_v, dvec, vec; cbn [fst snd]. lia.
      + revert H2. unfold cross_Z, cross_v, dvec, vec; cbn [fst snd]. lia.
    - apply (parallel_sign _ (dvec false z x)); try assumption.
      + revert H1. unfold cross_Z, cross_v, dvec, vec; cbn [fst snd]. lia.
      + revert H2. unfold cross_Z, cross_v, dvec, vec; cbn [fst snd]. lia. }
  apply Hn. apply (collinear_three (dvec sgn y x) x); auto.
  intros E. rewrite E in Pd. unfold lexpos in Pd. cbn in Pd. lia.
Qed.

Lemma pass_shape (sgn : bool) (first last_ : zpoint) (mid : list zpoint) :
  StronglySorted (before sgn) (first :: mid ++ [last_]) ->
  exists l',
    hull_pass_exact (first :: mid ++ [last_]) = last_ :: l' ++ [first]
    /\ chain_inv sgn first (last_ :: l' ++ [first]) (rev (mid ++ [last_]) ++ [first]).
Proof.
  intros Hs. pose proof (pass_spec sgn first (mid ++ [last_]) Hs) as Hinv.
  pose proof Hinv as (_ & [l Hl] & _).
  assert (Hhd : exists t, hull_pass_exact (first :: mid ++ [last_]) = last_ :: t).
  { change (first :: mid ++ [last_]) with ((first :: mid) ++ [last_]).
    rewrite hull_pass_exact_snoc. eauto. }
  destruct Hhd as [t Ht].
  assert (Hfl : before sgn first last_).
  { inversion Hs as [ | ? ? _ Hall ]; subst. rewrite Forall_forall in Hall.
    apply Hall, in_or_app. right. now left. }
  destruct l as [ | x l' ].
  - exfalso. rewrite Hl in Ht. injection Ht as -> _.
    exact (before_irrefl _ _ Hfl).
  - exists l'. rewrite Hl in Ht. injection Ht as -> _.
    rewrite Hl in Hinv. split; [ exact Hl | exact Hinv ].
Qed.

Lemma StronglySorted_snoc {A : Type} (R : A -> A -> Prop) (l : list A) (a : A) :
  StronglySorted R l -> Forall (fun x => R x a) l -> StronglySorted R (l ++ [a]).
Proof.
  induction l as [ | b l IH ]; intros Hs Ha; cbn [app].
  - constructor; constructor.
  - inversion Hs as [ | ? ? Hs' Hb ]; subst. inversion Ha as [ | ? ? Hba Ha' ]; subst.
    constructor; [ now apply IH | ].
    apply Forall_app. split; [ exact Hb | now constructor ].
Qed.

Lemma StronglySorted_rev {A : Type} (R : A -> A -> Prop) (l : list A) :
  StronglySorted R l -> StronglySorted (fun a b => R b a) (rev l).
Proof.
  induction 1 as [ | a l Hs IH Ha ]; cbn [rev]; [ constructor | ].
  apply StronglySorted_snoc; [ exact IH | ].
  apply Forall_rev. exact Ha.
Qed.

Lemma removelast_snoc {A : Type} (l : list A) (a : A) : removelast (l ++ [a]) = l.
Proof. apply removelast_last. Qed.

Lemma snoc_cases {A : Type} (a : A) (l : list A) :
  exists f y, a :: l = f ++ [y].
Proof.
  destruct (exists_last (l := a :: l) ltac:(discriminate)) as (f & y & E).
  now exists f, y.
Qed.

Lemma adj2_last_pair {A : Type} (R : A -> A -> Prop) (f : list A) (y x : A) :
  adj2 R (f ++ [y; x]) -> R y x.
Proof.
  intros H. apply adj2_unglue in H as [_ H]. cbn in H. tauto.
Qed.

Section Polygon.

Variables pmin pmax : zpoint.
Variable mid : list zpoint.

Let pts := pmin :: mid ++ [pmax].

Hypothesis pts_sorted : StronglySorted lex_lt pts.

Lemma rev_pts : rev pts = pmax :: rev mid ++ [pmin].
Proof. unfold pts. cbn [rev]. now rewrite rev_app_distr. Qed.

Lemma in_done_lower (q : zpoint) :
  In q pts <-> In q (rev (mid ++ [pmax]) ++ [pmin]).
Proof.
  unfold pts. cbn [In]. rewrite !in_app_iff, <- in_rev, in_app_iff. cbn [In]. tauto.
Qed.

Lemma in_done_upper (q : zpoint) :
  In q pts <-> In q (rev (rev mid ++ [pmin]) ++ [pmax]).
Proof.
  unfold pts. cbn [In]. rewrite !in_app_iff, <- in_rev, in_app_iff, <- in_rev.
  cbn [In]. tauto.
Qed.

Theorem hull_exact_spec :
  exists lo up,
    hull_exact pts = (pmin :: lo) ++ (pmax :: up)
    /\ incl (hull_exact pts) pts
    /\ (forall q, In q pts ->
          adj2 (fun a b => 0 <= cross_Z a b q)
               (hull_exact pts ++ firstn 1 (hull_exact pts)))
    /\ ((exists a b c, In a pts /\ In b pts /\ In c pts /\ cross_Z a b c <> 0) ->
          adj3 (fun a b c => 0 < cross_Z a b c)
               (hull_exact pts ++ firstn 2 (hull_exact pts))).
Proof.
  destruct (pass_shape false pmin pmax mid pts_sorted) as (l' & El & Il).
  assert (Hrs : StronglySorted (before true) (pmax :: rev mid ++ [pmin])).
  { rewrite <- rev_pts. apply (StronglySorted_rev lex_lt). exact pts_sorted. }
  destruct (pass_shape true pmax pmin (rev mid) Hrs) as (u' & Eu & Iu).
  fold pts in El. rewrite <- rev_pts in Eu.
  assert (EH : hull_exact pts = (pmin :: rev l') ++ (pmax :: rev u')).
  { unfold hull_exact. rewrite El, Eu. cbn [rev]. rewrite !rev_app_distr. cbn [rev app].
    change (pmin :: rev l' ++ [pmax]) with ((pmin :: rev l') ++ [pmax]).
    change (pmax :: rev u' ++ [pmin]) with ((pmax :: rev u') ++ [pmin]).
    now rewrite !removelast_snoc. }
  destruct Il as (Li & _ & _ & L2 & L3 & Lq).
  destruct Iu as (Ui & _ & _ & U2 & U3 & Uq).
  assert (Elo : rev (pmax :: l' ++ [pmin]) = (pmin :: rev l') ++ [pmax])
    by (cbn [rev]; rewrite rev_app_distr; reflexivity).
  assert (Eup : rev (pmin :: u' ++ [pmax]) = (pmax :: rev u') ++ [pmin])
    by (cbn [rev]; rewrite rev_app_distr; reflexivity).
  assert (Hedges : forall q, In q pts ->
            adj2 (fun a b => 0 <= cross_Z a b q) ((pmin :: rev l') ++ [pmax])
            /\ adj2 (fun a b => 0 <= cross_Z a b q) ((pmax :: rev u') ++ [pmin])).
  { intros q Hq. rewrite <- Elo, <- Eup. split; apply adj2_rev.
    - apply Lq. now apply in_done_lower.
    - apply Uq. now apply in_done_upper. }
  exists (rev l'), (rev u'). split; [ exact EH | ]. split; [ | split ].
  - rewrite EH. intros x Hx. apply in_app_or in Hx as [ Hx | Hx ].
    + apply in_done_lower, Li. rewrite in_rev, Elo. apply in_or_app. now left.
    + apply in_done_upper, Ui. rewrite in_rev, Eup. apply in_or_app. now left.
  - intros q Hq. rewrite EH. cbn [app firstn]. destruct (Hedges q Hq) as [Hl Hu].
    rewrite <- app_assoc. cbn [app].
    change (pmin :: rev l' ++ pmax :: rev u' ++ [pmin])
      with ((pmin :: rev l') ++ pmax :: (rev u' ++ [pmin])).
    apply adj2_glue; assumption.
  - intros Hnc. rewrite EH.
    assert (T3l : adj3 (fun a b c => 0 < cross_Z a b c) ((pmin :: rev l') ++ [pmax]))
      by (rewrite <- Elo; apply adj3_rev; exact L3).
    assert (T3u : adj3 (fun a b c => 0 < cross_Z a b c) ((pmax :: rev u') ++ [pmin]))
      by (rewrite <- Eup; apply adj3_rev; exact U3).
    assert (B2l : adj2 lex_lt ((pmin :: rev l') ++ [pmax]))
      by (rewrite <- Elo; apply adj2_rev; exact L2).
    assert (B2u : adj2 (fun a b => lex_lt b a) ((pmax :: rev u') ++ [pmin]))
      by (rewrite <- Eup; apply adj2_rev; exact U2).
    destruct (snoc_cases pmin (rev l')) as (f1 & y1 & E1).
    destruct (snoc_cases pmax (rev u')) as (f2 & y2 & E2).
    set (z1 := hd pmin (rev u' ++ [pmin])).
    set (h1 := hd pmax (rev l' ++ [pmax])).
    assert (Eu1 : exists r1, rev u' ++ [pmin] = z1 :: r1)
      by (subst z1; destruct (rev u'); cbn; eauto).
    assert (El1 : exists r2, rev l' ++ [pmax] = h1 :: r2)
      by (subst h1; destruct (rev l'); cbn; eauto).
    destruct Eu1 as [r1 Eu1]. destruct El1 as [r2 El1].
    assert (Hh1 : firstn 2 ((pmin :: rev l') ++ pmax :: rev u') = [pmin; h1]).
    { subst h1. destruct (rev l'); reflexivity. }
    rewrite Hh1.
    (* the corner at [pmax] *)
    assert (C1 : 0 < cross_Z y1 pmax z1).
    { apply (corner_strict false pts); try assumption.
      - rewrite E1, <- app_assoc in B2l. cbn [app] in B2l.
        exact (adj2_last_pair _ _ _ _ B2l).
      - change (pmax :: rev u') with ([pmax] ++ rev u') in B2u.
        rewrite <- app_assoc, Eu1 in B2u. cbn in B2u. tauto.
      - apply in_done_upper, Ui. rewrite in_rev, Eup.
        change ((pmax :: rev u') ++ [pmin]) with (pmax :: (rev u' ++ [pmin])).
        rewrite Eu1. right. now left.
      - intros q Hq. destruct (Hedges q Hq) as [Hl _].
        rewrite E1, <- app_assoc in Hl. cbn [app] in Hl.
        exact (adj2_last_pair _ _ _ _ Hl).
      - intros q Hq. destruct (Hedges q Hq) as [_ Hu].
        change ((pmax :: rev u') ++ [pmin]) with (pmax :: (rev u' ++ [pmin])) in Hu.
        rewrite Eu1 in Hu. cbn in Hu. tauto. }
    (* the corner at [pmin] *)
    assert (C2 : 0 < cross_Z y2 pmin h1).
    { apply (corner_strict true pts); try assumption.
      - rewrite E2, <- app_assoc in B2u. cbn [app] in B2u.
        exact (adj2_last_pair _ _ _ _ B2u).
      - change ((pmin :: rev l') ++ [pmax]) with (pmin :: (rev l' ++ [pmax])) in B2l.
        rewrite El1 in B2l. cbn in B2l. tauto.
      - apply in_done_lower, Li. rewrite in_rev, Elo.
        change ((pmin :: rev l') ++ [pmax]) with (pmin :: (rev l' ++ [pmax])).
        rewrite El1. right. now left.
      - intros q Hq. destruct (Hedges q Hq) as [_ Hu].
        rewrite E2, <- app_assoc in Hu. cbn [app] in Hu.
        exact (adj2_last_pair _ _ _ _ Hu).
      - intros q Hq. destruct (Hedges q Hq) as [Hl _].
        change ((pmin :: rev l') ++ [pmax]) with (pmin :: (rev l' ++ [pmax])) in Hl.
        rewrite El1 in Hl. cbn in Hl. tauto. }
    (* gluing *)
    assert (G1 : adj3 (fun a b c => 0 < cross_Z a b c)
                   ((pmin :: rev l') ++ (pmax :: rev u') ++ [pmin])).
    { rewrite E1, <- app_assoc. cbn [app].
      change ((pmax :: rev u') ++ [pmin]) with (pmax :: (rev u' ++ [pmin])).
      rewrite Eu1. apply adj3_glue; [ | | exact C1 ].
      - rewrite E1, <- app_assoc in T3l. exact T3l.
      - change ((pmax :: rev u') ++ [pmin]) with (pmax :: (rev u' ++ [pmin])) in T3u.
        now rewrite Eu1 in T3u. }
    assert (EG : ((pmin :: rev l') ++ pmax :: rev u') ++ [pmin; h1]
                 = ((pmin :: rev l') ++ f2) ++ [y2; pmin; h1])
      by (rewrite E2, <- !app_assoc; reflexivity).
    assert (EG1 : (pmin :: rev l') ++ (pmax :: rev u') ++ [pmin]
                  = ((pmin :: rev l') ++ f2) ++ [y2; pmin])
      by (rewrite E2, <- !app_assoc; reflexivity).
    rewrite EG. apply adj3_snoc; [ rewrite <- EG1; exact G1 | exact C2 ].
Qed.

End Polygon.

End ExactFacts.

(* ================================================================= *)
(** ** [wiggle_interval] and [ulps_away] *)

Module HelpersFacts.

Import F64 Python Helpers F64Facts.
Local Open Scope f64_scope.

(** A call that returns [True]. *)
Lemma returned_true (a : bool) : @inr exn bool a = inr true <-> a = true.
Proof. split; [ intros E; now injection E | now intros -> ]. Qed.

Lemma mul_opp_self (r : float) : (- r) * (- r) = r * r.
Proof. destruct r as [s | s | | s m e]; cbn; try reflexivity; now destruct s. Qed.

Lemma sub_swap_square (a b : float) :
  (a - b) * (a - b) = (b - a) * (b - a).
Proof.
  destruct a as [sa | sa | | sa ma ea], b as [sb | sb | | sb mb eb];
    try reflexivity;
    try (destruct sa, sb; reflexivity);
    try (destruct sa; reflexivity); try (destruct sb; reflexivity).
  unfold sub, SFsub. rewrite (Z.min_comm eb ea).
  set (A := cond_Zopp sa _). set (B := cond_Zopp sb _).
  replace (B - A)%Z with (- (A - B))%Z by lia.
  destruct (A - B)%Z as [ | p | p ]; cbn [Z.opp binary_normalize].
  - reflexivity.
  - rewrite binary_round_opp. symmetry. apply mul_opp_self.
  - rewrite binary_round_opp. apply mul_opp_self.
Qed.

Lemma dot_vsub_swap (v w : vector) :
  dot (vsub v w) (vsub v w) = dot (vsub w v) (vsub w v).
Proof.
  unfold dot. generalize zero as acc.
  revert w. induction v as [ | a v IH ]; intros [ | b w ] acc; try reflexivity.
  cbn [vsub combine map fold_left fst snd].
  rewrite (sub_swap_square a b). apply IH.
Qed.

Lemma norm_vsub_swap (v w : vector) : norm (vsub v w) = norm (vsub w v).
Proof. unfold norm. now rewrite dot_vsub_swap. Qed.

Lemma dot_self_sign (v : vector) :
  Forall (fun x => is_finite x = true) v -> has_sign false (dot v v).
Proof.
  unfold dot. assert (H0 : has_sign false zero) by reflexivity.
  revert H0. generalize zero as acc.
  induction v as [ | a v IH ]; intros acc Hacc Hv; cbn [combine fold_left fst snd].
  - exact Hacc.
  - inversion Hv as [ | ? ? Ha Hv' ]; subst.
    apply IH; [ | exact Hv' ].
    apply add_sign; [ exact Hacc | ].
    apply mul_self_sign. now destruct a.
Qed.

Lemma norm_sign (v : vector) :
  Forall (fun x => is_finite x = true) v -> has_sign false (norm v).
Proof. intros. now apply sqrt_sign, dot_self_sign. Qed.

Lemma leb_zero_l (s s' : bool) (y : float) :
  (S754_zero s <=? y) = (S754_zero s' <=? y).
Proof. destruct y; reflexivity. Qed.

Lemma py_min_comm (a b : float) :
  is_nan a = false -> is_nan b = false ->
  (a == zero) = false -> py_min a b = py_min b a.
Proof.
  intros Ha Hb Hz. unfold py_min.
  destruct (b <? a) eqn:Hba.
  - now rewrite (ltb_asym _ _ Hba).
  - destruct (a <? b) eqn:Hab; [ reflexivity | ].
    destruct (not_nan_compare a b Ha Hb) as [c Hc].
    unfold ltb, SFltb in Hba, Hab. rewrite (compare_antisym a b) in Hba.
    rewrite Hc in *. destruct c; cbn in *; try discriminate.
    destruct (compare_eq_inv _ _ Hc) as [ -> | (s & s' & -> & ->) ];
      [ reflexivity | discriminate ].
Qed.

(** C10. [vector_close] is symmetric: for finite vectors of the same
    dimension and any threshold [eps] (a NaN or an infinity too), the two
    orders of the arguments give the same answer.  The norms are the same
    two numbers, [min] of them is the same number in either order (neither
    is a NaN), and [vec1 - vec2] and [vec2 - vec1] have the same squares,
    hence the same norm, rounding included. *)
Theorem vector_close_sym (vec1 vec2 : vector) (eps : float) :
  length vec1 = length vec2 ->
  Forall (fun x => is_finite x = true) vec1 ->
  Forall (fun x => is_finite x = true) vec2 ->
  vector_close vec1 vec2 eps = vector_close vec2 vec1 eps.
Proof.
  intros _ H1 H2. unfold vector_close.
  pose proof (has_sign_not_nan _ _ (norm_sign _ H1)) as N1.
  pose proof (has_sign_not_nan _ _ (norm_sign _ H2)) as N2.
  rewrite (norm_vsub_swap vec1 vec2).
  destruct (norm vec1 == zero) eqn:Z1, (norm vec2 == zero) eqn:Z2.
  - apply F64Facts.eqb_zero_inv in Z1 as [s1 ->].
    apply F64Facts.eqb_zero_inv in Z2 as [s2 ->].
    apply leb_zero_l.
  - reflexivity.
  - reflexivity.
  - now rewrite (py_min_comm _ _ N1 N2 Z1).
Qed.

Lemma sub_self_finite (s : bool) (m : positive) (e : Z) :
  S754_finite s m e - S754_finite s m e = zero.
Proof.
  unfold sub, SFsub. now rewrite Z.sub_diag.
Qed.

Lemma leb_zero_sign (r : float) : has_sign false r -> (zero <=? r) = true.
Proof. destruct r as [s | s | | s m e]; cbn [has_sign]; try tauto; now intros ->. Qed.




(** C3 (amended). For a finite value and a finite wiggle room with
    [0 < wiggle <= 1/2] for which [1 - wiggle] and [1 + wiggle] are
    computed exactly (as for the default [2^-45]): a value strictly within
    [wiggle] of 0 becomes [(0.0, True)], a value strictly within [wiggle]
    of 1 becomes [(1.0, True)], a value in [[wiggle, 1 - wiggle]] is
    returned unchanged with [True], and a value at least [wiggle] outside
    of [[0, 1]] gives [(NaN, False)]. *)
Theorem wiggle_interval_spec (value wiggle : float) :
  real value -> real wiggle ->
  (0 < units wiggle)%Z -> (2 * units wiggle <= units one)%Z ->
  exact_at_one wiggle ->
  (Z.abs (units value) < units wiggle ->
     wiggle_interval value wiggle = (zero, true))%Z
  /\ (Z.abs (units value - units one) < units wiggle ->
     wiggle_interval value wiggle = (one, true))%Z
  /\ (units wiggle <= units value <= units one - units wiggle ->
     wiggle_interval value wiggle = (value, true))%Z
  /\ (units value <= - units wiggle \/ units one + units wiggle <= units value ->
     wiggle_interval value wiggle = (nan, false))%Z.
Proof.
  intros Rv Rw Hpos Hhalf (Rs & Ra & Us & Ua).
  pose proof (real_opp _ Rw) as Ro.
  unfold wiggle_interval.
  rewrite !ltb_real, !leb_real by assumption.
  rewrite units_opp, Us, Ua.
  set (v := units value) in *. set (w := units wiggle) in *.
  set (u := units one) in *.
  repeat split; intros H;
    repeat match goal with
      | |- context [(?a <? ?b)%Z] => destruct (Z.ltb_spec a b)
      | |- context [(?a <=? ?b)%Z] => destruct (Z.leb_spec a b)
      end; cbn [andb]; try reflexivity; lia.
Qed.

Lemma default_wiggle_exact : exact_at_one WIGGLE.
Proof. repeat split. Qed.

Lemma wiggle_interval_spec_witness :
  (Z.abs (units (dyadic 1 (-50))) < units WIGGLE ->
     wiggle_interval (dyadic 1 (-50)) WIGGLE = (zero, true))%Z
  /\ (Z.abs (units (dyadic 1 (-50)) - units one) < units WIGGLE ->
     wiggle_interval (dyadic 1 (-50)) WIGGLE = (one, true))%Z
  /\ (units WIGGLE <= units (dyadic 1 (-50)) <= units one - units WIGGLE ->
     wiggle_interval (dyadic 1 (-50)) WIGGLE = (dyadic 1 (-50), true))%Z
  /\ (units (dyadic 1 (-50)) <= - units WIGGLE \/ units one + units WIGGLE <= units (dyadic 1 (-50)) ->
     wiggle_interval (dyadic 1 (-50)) WIGGLE = (nan, false))%Z.
Proof.
  apply (wiggle_interval_spec (dyadic 1 (-50)) WIGGLE).
  - split; reflexivity.
  - split; reflexivity.
  - vm_compute. reflexivity.
  - vm_compute. discriminate.
  - exact default_wiggle_exact.
Defined.

(** With a wiggle room of [0.75] the value [0.5] is within [wiggle] of
    both endpoints; the first test wins and it is clamped to [0.0], not to
    [1.0]. *)
Lemma wiggle_interval_wide_wiggle :
  real (dyadic 1 (-1)) /\ real (dyadic 3 (-2))
  /\ (0 < units (dyadic 3 (-2)))%Z
  /\ (Z.abs (units (dyadic 1 (-1)) - units one) < units (dyadic 3 (-2)))%Z
  /\ wiggle_interval (dyadic 1 (-1)) (dyadic 3 (-2)) = (zero, true)
  /\ (zero, true) <> (one, true).
Proof. repeat split; vm_compute; congruence. Qed.

(** When [1 + wiggle] is not a binary64 number the third test uses its
    rounding: [1 + 2^-52] is within [1.25 * 2^-52] of 1 and is rejected. *)
Theorem wiggle_interval_rounded_wiggle :
  real (dyadic 5 (-54)) /\ real (dyadic 4503599627370497 (-52))
  /\ (Z.abs (units (dyadic 4503599627370497 (-52)) - units one) < units (dyadic 5 (-54)))%Z
  /\ wiggle_interval (dyadic 4503599627370497 (-52)) (dyadic 5 (-54)) = (nan, false).
Proof. repeat split; vm_compute; congruence. Qed.

(** *** [contains_nd] and [bbox] *)

Lemma real_not_nan (x : float) : real x -> is_nan x = false.
Proof. intros [_ F]. now destruct x. Qed.

Lemma np_minimum_real (a b : float) :
  real a -> real b ->
  np_minimum a b = if (units a <? units b)%Z then a else b.
Proof.
  intros Ra Rb. unfold np_minimum.
  now rewrite (real_not_nan a Ra), ltb_real.
Qed.

Lemma np_maximum_real (a b : float) :
  real a -> real b ->
  np_maximum a b = if (units b <? units a)%Z then a else b.
Proof.
  intros Ra Rb. unfold np_maximum.
  now rewrite (real_not_nan a Ra), ltb_real.
Qed.

Lemma fold_minimum_spec (l : list float) :
  forall a, real a -> Forall real l ->
    real (fold_left np_minimum l a) /\ is_min_of (a :: l) (fold_left np_minimum l a).
Proof.
  induction l as [ | b l IH ]; intros a Ra Rl; cbn [fold_left].
  - split; [ exact Ra | ]. split; [ now left | ].
    intros x [ <- | [] ]. lia.
  - inversion Rl as [ | ? ? Rb Rl' ]; subst.
    assert (Rm : real (np_minimum a b))
      by (rewrite np_minimum_real by assumption; now destruct (units a <? units b)%Z).
    destruct (IH _ Rm Rl') as (Rf & Hin & Hle). split; [ exact Rf | ].
    assert (Hm : (units (np_minimum a b) <= units a /\ units (np_minimum a b) <= units b)%Z
                 /\ (np_minimum a b = a \/ np_minimum a b = b)).
    { rewrite np_minimum_real by assumption.
      destruct (Z.ltb_spec (units a) (units b)); split; (lia || tauto). }
    destruct Hm as [[Hma Hmb] Hmab].
    split.
    + destruct Hin as [ Hin | Hin ]; [ | now right; right ].
      rewrite <- Hin. destruct Hmab as [ -> | -> ]; [ now left | now right; left ].
    + intros x [ <- | [ <- | Hx ] ].
      * specialize (Hle _ (or_introl eq_refl)). lia.
      * specialize (Hle _ (or_introl eq_refl)). lia.
      * apply Hle. now right.
Qed.

Lemma fold_maximum_spec (l : list float) :
  forall a, real a -> Forall real l ->
    real (fold_left np_maximum l a) /\ is_max_of (a :: l) (fold_left np_maximum l a).
Proof.
  induction l as [ | b l IH ]; intros a Ra Rl; cbn [fold_left].
  - split; [ exact Ra | ]. split; [ now left | ].
    intros x [ <- | [] ]. lia.
  - inversion Rl as [ | ? ? Rb Rl' ]; subst.
    assert (Rm : real (np_maximum a b))
      by (rewrite np_maximum_real by assumption; now destruct (units b <? units a)%Z).
    destruct (IH _ Rm Rl') as (Rf & Hin & Hle). split; [ exact Rf | ].
    assert (Hm : (units a <= units (np_maximum a b) /\ units b <= units (np_maximum a b))%Z
                 /\ (np_maximum a b = a \/ np_maximum a b = b)).
    { rewrite np_maximum_real by assumption.
      destruct (Z.ltb_spec (units b) (units a)); split; (lia || tauto). }
    destruct Hm as [[Hma Hmb] Hmab].
    split.
    + destruct Hin as [ Hin | Hin ]; [ | now right; right ].
      rewrite <- Hin. destruct Hmab as [ -> | -> ]; [ now left | now right; left ].
    + intros x [ <- | [ <- | Hx ] ].
      * specialize (Hle _ (or_introl eq_refl)). lia.
      * specialize (Hle _ (or_introl eq_refl)). lia.
      * apply Hle. now right.
Qed.

Lemma map2_length {A B C} (f : A -> B -> C) (l1 : list A) (l2 : list B) :
  length l1 = length l2 -> length (map2 f l1 l2) = length l1.
Proof.
  intros H. unfold map2. rewrite length_map, length_combine. lia.
Qed.

Lemma map2_nth (f : float -> float -> float) (l1 l2 : vector) (j : nat) :
  length l1 = length l2 -> (j < length l1)%nat ->
  nth j (map2 f l1 l2) zero = f (nth j l1 zero) (nth j l2 zero).
Proof.
  revert l2 j. induction l1 as [ | a l1 IH ]; intros [ | b l2 ] j Hl Hj;
    cbn [length] in *; try lia.
  destruct j as [ | j ]; [ reflexivity | ].
  cbn [map2 combine map nth]. apply (IH l2 j); lia.
Qed.

Lemma fold_map2_column (f : float -> float -> float) (d : nat) (rows : list vector) :
  forall row, length row = d -> Forall (fun r => length r = d) rows ->
    length (fold_left (map2 f) rows row) = d
    /\ forall j, (j < d)%nat ->
         nth j (fold_left (map2 f) rows row) zero
         = fold_left f (column j rows) (nth j row zero).
Proof.
  induction rows as [ | r rows IH ]; intros row Hrow Hrows; cbn [fold_left column map].
  - split; [ exact Hrow | reflexivity ].
  - apply Forall_cons_iff in Hrows as [Hr Hrows'].
    assert (Hl : length (map2 f row r) = d)
      by (rewrite map2_length; congruence).
    destruct (IH (map2 f row r) Hl Hrows') as [Hlen Hnth].
    split; [ exact Hlen | ].
    intros j Hj. rewrite (Hnth j Hj). fold (column j rows).
    rewrite map2_nth by congruence. reflexivity.
Qed.

Lemma all_le_spec (a b : vector) :
  length a = length b -> Forall real a -> Forall real b ->
  all_le a b = true
  <-> forall j, (j < length a)%nat -> (units (nth j a zero) <= units (nth j b zero))%Z.
Proof.
  unfold all_le. revert b.
  induction a as [ | x a IH ]; intros [ | y b ] Hl Ra Rb; cbn [length] in *; try lia.
  - split; [ intros _ j Hj; lia | reflexivity ].
  - inversion Ra as [ | ? ? Rx Ra' ]; inversion Rb as [ | ? ? Ry Rb' ]; subst.
    cbn [combine forallb fst snd]. rewrite andb_true_iff, leb_real by assumption.
    rewrite (IH b) by (assumption || lia). rewrite Z.leb_le. split.
    + intros [H0 HS] [ | j ] Hj; cbn [nth]; [ exact H0 | apply HS; lia ].
    + intros H. split; [ apply (H 0%nat); lia | ].
      intros j Hj. apply (H (S j)). lia.
Qed.

Lemma nth_real (l : vector) (j : nat) :
  Forall real l -> (j < length l)%nat -> real (nth j l zero).
Proof.
  intros Hl Hj. rewrite Forall_forall in Hl. apply Hl, nth_In, Hj.
Qed.

Lemma column_real (j d : nat) (nodes : list vector) :
  Forall (fun row => length row = d /\ Forall real row) nodes -> (j < d)%nat ->
  Forall real (column j nodes).
Proof.
  intros H Hj. unfold column. rewrite Forall_map.
  eapply Forall_impl; [ | exact H ].
  intros row [Hl Hr]. apply nth_real; [ exact Hr | lia ].
Qed.

Lemma fold_map2_real (f : float -> float -> float) (d : nat) (rows : list vector) (row : vector) :
  (forall a b, real a -> real b -> real (f a b)) ->
  length row = d -> Forall real row ->
  Forall (fun r => length r = d /\ Forall real r) rows ->
  Forall real (fold_left (map2 f) rows row).
Proof.
  intros Hf. revert row.
  induction rows as [ | r rows IH ]; intros row Hl Hr Hrows; cbn [fold_left].
  - exact Hr.
  - apply Forall_cons_iff in Hrows as [[Hlr Hrr] Hrows'].
    apply IH; [ rewrite map2_length; congruence | | exact Hrows' ].
    unfold map2. rewrite Forall_map, Forall_forall. intros [a b] Hin. cbn [fst snd].
    apply Hf.
    + rewrite Forall_forall in Hr. apply Hr. eapply in_combine_l, Hin.
    + rewrite Forall_forall in Hrr. apply Hrr. eapply in_combine_r, Hin.
Qed.

Lemma np_minimum_keeps_real (a b : float) : real a -> real b -> real (np_minimum a b).
Proof.
  intros Ra Rb. rewrite np_minimum_real by assumption.
  now destruct (units a <? units b)%Z.
Qed.

Lemma np_maximum_keeps_real (a b : float) : real a -> real b -> real (np_maximum a b).
Proof.
  intros Ra Rb. rewrite np_maximum_real by assumption.
  now destruct (units b <? units a)%Z.
Qed.

Lemma contains_nd_bool (nodes : list vector) (point mins maxs : vector) :
  np_min_axis0 nodes = Some mins -> np_max_axis0 nodes = Some maxs ->
  contains_nd nodes point = Some (all_le mins point && all_le point maxs).
Proof.
  intros Hmin Hmax. unfold contains_nd. rewrite Hmin, Hmax.
  destruct (all_le mins point), (all_le point maxs); reflexivity.
Qed.

(** C8. For a non-empty array of nodes of dimension [d] and a point of
    the same dimension, all entries finite, [contains_nd] returns, and
    returns [True] exactly when every coordinate of the point is between
    the least and the greatest entry of its column, bounds included.  For
    [d = 2] this is the test [left <= x <= right] and [bottom <= y <= top]
    on [(left, right, bottom, top) = bbox(nodes)]. *)
Theorem contains_nd_spec (d : nat) (nodes : list vector) (point : vector) :
  nodes <> [] ->
  Forall (fun row => length row = d /\ Forall real row) nodes ->
  length point = d -> Forall real point ->
  (exists b, contains_nd nodes point = Some b
     /\ (b = true <->
         forall j, (j < d)%nat ->
           exists lo hi,
             is_min_of (column j nodes) lo /\ is_max_of (column j nodes) hi
             /\ (units lo <= units (nth j point zero) <= units hi)%Z))
  /\ (forall x y left_ right_ bottom top,
        point = [x; y] -> bbox nodes = Some (left_, right_, bottom, top) ->
        contains_nd nodes point
        = Some ((left_ <=? x) && (x <=? right_) && (bottom <=? y) && (y <=? top))).
Proof.
  intros Hne Hnodes Hlen Hpoint.
  destruct nodes as [ | row rows ]; [ congruence | clear Hne ].
  apply Forall_cons_iff in Hnodes as [[Hlrow Hrrow] Hrows].
  assert (Hlens : Forall (fun r => length r = d) rows)
    by (eapply Forall_impl; [ | exact Hrows ]; cbn; tauto).
  set (mins := fold_left (map2 np_minimum) rows row).
  set (maxs := fold_left (map2 np_maximum) rows row).
  assert (Hb : contains_nd (row :: rows) point
               = Some (all_le mins point && all_le point maxs))
    by (now apply contains_nd_bool).
  split.
  - exists (all_le mins point && all_le point maxs). split; [ exact Hb | ].
    destruct (fold_map2_column np_minimum d rows row Hlrow Hlens) as [Lmin Nmin].
    destruct (fold_map2_column np_maximum d rows row Hlrow Hlens) as [Lmax Nmax].
    fold mins in Lmin, Nmin. fold maxs in Lmax, Nmax.
    assert (Rmin : Forall real mins)
      by (apply (fold_map2_real np_minimum d); auto using np_minimum_keeps_real).
    assert (Rmax : Forall real maxs)
      by (apply (fold_map2_real np_maximum d); auto using np_maximum_keeps_real).
    assert (Hcol : forall j, (j < d)%nat ->
              is_min_of (column j (row :: rows)) (nth j mins zero)
              /\ is_max_of (column j (row :: rows)) (nth j maxs zero)).
    { intros j Hj. rewrite (Nmin j Hj), (Nmax j Hj). cbn [column map].
      fold (column j rows).
      assert (Rc : Forall real (column j rows)) by (now apply (column_real j d)).
      assert (Ra : real (nth j row zero)) by (apply nth_real; [ assumption | lia ]).
      split; [ apply fold_minimum_spec | apply fold_maximum_spec ]; assumption. }
    rewrite andb_true_iff, !all_le_spec by (assumption || congruence).
    rewrite Lmin, Hlen. split.
    + intros [Hlo Hhi] j Hj. destruct (Hcol j Hj) as [Hmn Hmx].
      exists (nth j mins zero), (nth j maxs zero).
      specialize (Hlo j Hj). specialize (Hhi j Hj).
      split; [ exact Hmn | split; [ exact Hmx | lia ] ].
    + intros H. split; intros j Hj;
        destruct (H j Hj) as (lo & hi & [Ilo Hlo] & [Ihi Hhi] & Hp);
        destruct (Hcol j Hj) as [[Imn Hmn] [Imx Hmx]].
      * specialize (Hlo _ Imn). specialize (Hmn _ Ilo). lia.
      * specialize (Hhi _ Imx). specialize (Hmx _ Ihi). lia.
  - intros x y left_ right_ bottom top -> Hbox. rewrite Hb.
    unfold bbox in Hbox. cbn [np_min_axis0 np_max_axis0] in Hbox.
    fold mins maxs in Hbox.
    destruct mins as [ | l [ | b [ | ] ] ]; try discriminate.
    destruct maxs as [ | r [ | t [ | ] ] ]; try discriminate.
    injection Hbox as -> -> -> ->. f_equal. unfold all_le. cbn.
    destruct (left_ <=? x), (x <=? right_), (bottom <=? y), (y <=? top); reflexivity.
Qed.

(** C6. At the default wiggle room, [wiggle_interval] is idempotent on its
    value: whatever pair [(v, flag)] it returns for an input (a float in
    the interval, a clamped endpoint, or NaN with [false]), it returns the
    same pair again for [v]. *)
Theorem wiggle_interval_idempotent (value : float) :
  wiggle_interval (fst (wiggle_interval value WIGGLE)) WIGGLE
  = wiggle_interval value WIGGLE.
Proof.
  unfold wiggle_interval at 2 3.
  destruct ((- WIGGLE <? value) && (value <? WIGGLE)) eqn:Hzero;
    [ reflexivity | ].
  destruct ((WIGGLE <=? value) && (value <=? one - WIGGLE)) eqn:Hin.
  - cbn [fst]. unfold wiggle_interval. now rewrite Hzero, Hin.
  - destruct ((one - WIGGLE <? value) && (value <? one + WIGGLE));
      reflexivity.
Qed.

(** C7. [ulps_away] is not symmetric: at [x = 2], [y = 2 - 2^-51] and one
    bit, [y] is one spacing of [x] away from [x] but two spacings of [y]
    away from [y].  And when either argument is a zero, the result is the
    test [abs other < 2^-40], whatever [num_bits] is. *)
Theorem ulps_away_asymmetric_and_zero_case :
  (exists (x y : float) (num_bits : Z),
      is_finite x = true /\ is_finite y = true
      /\ (x == zero) = false /\ (y == zero) = false
      /\ (1 <= num_bits)%Z
      /\ ulps_away x y num_bits = inr true
      /\ ulps_away y x num_bits = inr false)
  /\ (forall (sgn : bool) (other : float) (num_bits : Z),
         ulps_away (S754_zero sgn) other num_bits = inr (abs other <? EPS)
         /\ ulps_away other (S754_zero sgn) num_bits = inr (abs other <? EPS)).
Proof.
  split.
  - exists (of_int 2), (of_int 2 - dyadic 1 (-51)), 1%Z.
    repeat split; try (vm_compute; congruence).
  - intros sgn other num_bits. split; [ reflexivity | ].
    unfold ulps_away.
    destruct (other == zero) eqn:Hother.
    + apply F64Facts.eqb_zero_inv in Hother as [s' ->]. reflexivity.
    + reflexivity.
Qed.

Lemma contains_nd_spec_witness :
  (exists b, contains_nd unit_square [dyadic 1 (-1); one] = Some b
     /\ (b = true <->
         forall j, (j < 2)%nat ->
           exists lo hi,
             is_min_of (column j unit_square) lo /\ is_max_of (column j unit_square) hi
             /\ (units lo <= units (nth j [dyadic 1 (-1); one] zero) <= units hi)%Z))
  /\ (forall x y left_ right_ bottom top,
        [dyadic 1 (-1); one] = [x; y] ->
        bbox unit_square = Some (left_, right_, bottom, top) ->
        contains_nd unit_square [dyadic 1 (-1); one]
        = Some ((left_ <=? x) && (x <=? right_) && (bottom <=? y) && (y <=? top))).
Proof.
  apply (contains_nd_spec 2 unit_square [dyadic 1 (-1); one]).
  - discriminate.
  - repeat constructor.
  - reflexivity.
  - repeat constructor.
Defined.

Lemma vector_close_sym_witness :
  vector_close [of_int 3; of_int 4] [of_int 3; of_int 4 + EPS] EPS
  = vector_close [of_int 3; of_int 4 + EPS] [of_int 3; of_int 4] EPS.
Proof.
  apply (vector_close_sym [of_int 3; of_int 4] [of_int 3; of_int 4 + EPS] EPS).
  - reflexivity.
  - repeat constructor.
  - repeat constructor.
Defined.


(** C5. At the largest finite number [ulps_away(x, x, 0)] returns
    [False], not [True]: there [np.spacing] overflows to infinity, zero
    times infinity is NaN, and no number is [<=] NaN.  And a [num_bits]
    that does not convert to a float, such as [2^1024], makes the product
    raise [OverflowError], here at [x = 1.0]. *)
Lemma ulps_away_max_float_zero_bits :
  valid max_float = true /\ is_finite max_float = true
  /\ spacing max_float = S754_infinity false
  /\ of_int 0 * abs (spacing max_float) = nan
  /\ ulps_away max_float max_float 0 = inr false
  /\ ulps_away one one (2 ^ 1024) = inl OverflowError.
Proof. repeat split; vm_compute; reflexivity. Qed.

End HelpersFacts.

(* ================================================================= *)
(** ** [simple_convex_hull] *)

Module HullFacts.

Import F64 Helpers F64Facts Exact ExactFacts HullSpec.
Local Open Scope Z_scope.
Local Open Scope f64_scope.

Lemma tuple_lt_pos (p q : point) :
  real_point p -> real_point q ->
  tuple_lt p q = true <-> plt p q.
Proof.
  intros [Rpx Rpy] [Rqx Rqy]. unfold tuple_lt, plt, lex_lt, pos. cbn [fst snd].
  destruct Rpx, Rpy, Rqx, Rqy.
  rewrite !eqb_units, !ltb_units by assumption.
  destruct (Z.eqb_spec (units (fst p)) (units (fst q)));
    destruct (Z.eqb_spec (units (snd p)) (units (snd q)));
    rewrite ?Z.ltb_lt; split; (discriminate || lia).
Qed.

Lemma tuple_eq_pos (p q : point) :
  real_point p -> real_point q ->
  tuple_eq p q = true <-> pos p = pos q.
Proof.
  intros [Rpx Rpy] [Rqx Rqy]. unfold tuple_eq, pos.
  destruct Rpx, Rpy, Rqx, Rqy.
  rewrite !eqb_units by assumption.
  rewrite andb_true_iff, !Z.eqb_eq. split.
  - intros [E1 E2]. now rewrite E1, E2.
  - intros E. injection E as E1 E2. split; assumption.
Qed.

Lemma lex_total (a b : zpoint) : lex_lt a b \/ a = b \/ lex_lt b a.
Proof. exact (before_total false a b). Qed.

Lemma ple_of_not_lt (p q : point) : ~ plt p q -> ple q p.
Proof.
  unfold plt, ple, lex_le. intros H.
  destruct (lex_total (pos p) (pos q)) as [ | [ | ] ]; auto; tauto.
Qed.

Lemma plt_ple (p q : point) : plt p q -> ple p q.
Proof. unfold plt, ple, lex_le. tauto. Qed.

(** *** [sorted] *)

Lemma insert_sorted_In (x p : point) (l : list point) :
  In x (insert_sorted p l) <-> x = p \/ In x l.
Proof.
  induction l as [ | q l IH ]; cbn [insert_sorted].
  - cbn. intuition congruence.
  - destruct (tuple_lt p q); cbn [In]; [ intuition congruence | ].
    rewrite IH. intuition congruence.
Qed.

Lemma fold_insert_In (x : point) (l : list point) :
  forall acc, In x (fold_left (fun acc p => insert_sorted p acc) l acc)
              <-> In x l \/ In x acc.
Proof.
  induction l as [ | p l IH ]; intros acc; cbn [fold_left].
  - cbn. tauto.
  - rewrite IH, insert_sorted_In. cbn [In]. intuition congruence.
Qed.

Lemma sorted_In (x : point) (l : list point) : In x (sorted l) <-> In x l.
Proof. unfold sorted. rewrite fold_insert_In. cbn. tauto. Qed.

Lemma insert_sorted_Sorted (p : point) (l : list point) :
  real_point p -> Forall real_point l ->
  Sorted ple l -> Sorted ple (insert_sorted p l).
Proof.
  intros Rp. induction l as [ | q l IH ]; intros Rl Hs; cbn [insert_sorted].
  - repeat constructor.
  - apply Forall_cons_iff in Rl as [Rq Rl].
    destruct (tuple_lt p q) eqn:Hpq.
    + constructor; [ exact Hs | constructor ].
      apply plt_ple. now apply tuple_lt_pos.
    + assert (Hqp : ple q p).
      { apply ple_of_not_lt. intros H. apply (tuple_lt_pos p q Rp Rq) in H. congruence. }
      inversion Hs as [ | ? ? Hs' Hhd ]; subst.
      constructor; [ now apply IH | ].
      destruct l as [ | r l ]; cbn [insert_sorted].
      * now constructor.
      * destruct (tuple_lt p r); constructor; [ exact Hqp | ].
        now inversion Hhd.
Qed.

Lemma fold_insert_Sorted (l : list point) :
  forall acc, Forall real_point l -> Forall real_point acc -> Sorted ple acc ->
    Sorted ple (fold_left (fun acc p => insert_sorted p acc) l acc).
Proof.
  induction l as [ | p l IH ]; intros acc Rl Ra Hs; cbn [fold_left]; [ exact Hs | ].
  apply Forall_cons_iff in Rl as [Rp Rl].
  apply IH; [ exact Rl | | now apply insert_sorted_Sorted ].
  rewrite Forall_forall in *. intros x Hx.
  apply insert_sorted_In in Hx as [ -> | Hx ]; auto.
Qed.

Lemma sorted_Sorted (l : list point) :
  Forall real_point l -> Sorted ple (sorted l).
Proof. intros Rl. apply fold_insert_Sorted; [ exact Rl | constructor | constructor ]. Qed.

Lemma sorted_real (l : list point) :
  Forall real_point l -> Forall real_point (sorted l).
Proof.
  intros Rl. rewrite Forall_forall in *. intros x Hx. apply Rl. now apply sorted_In.
Qed.

(** *** [np_unique] *)

Lemma drop_repeats_after_In (x : point) (l : list point) :
  forall prev, In x (drop_repeats_after prev l) -> In x l.
Proof.
  induction l as [ | p l IH ]; intros prev; cbn [drop_repeats_after]; [ tauto | ].
  destruct (tuple_eq p prev); cbn [In]; intros H.
  - right. exact (IH _ H).
  - destruct H as [ | H ]; [ now left | right; exact (IH _ H) ].
Qed.

Lemma drop_repeats_In (x : point) (l : list point) :
  In x (drop_repeats l) -> In x l.
Proof.
  destruct l as [ | p l ]; cbn [drop_repeats In]; [ tauto | ].
  intros [ | H ]; [ now left | right; exact (drop_repeats_after_In _ _ _ H) ].
Qed.

Lemma drop_repeats_after_covers (l : list point) :
  forall prev, real_point prev -> Forall real_point l ->
    forall x, In x l ->
      exists y, In y (prev :: drop_repeats_after prev l) /\ pos y = pos x.
Proof.
  induction l as [ | p l IH ]; intros prev Rprev Rl x Hx; [ destruct Hx | ].
  apply Forall_cons_iff in Rl as [Rp Rl].
  cbn [drop_repeats_after].
  assert (Hp : exists y, In y (prev :: (if tuple_eq p prev then drop_repeats_after p l
                                        else p :: drop_repeats_after p l))
                         /\ pos y = pos p).
  { destruct (tuple_eq p prev) eqn:E.
    - exists prev. split; [ now left | ]. symmetry. now apply tuple_eq_pos.
    - exists p. split; [ right; now left | reflexivity ]. }
  destruct Hx as [ <- | Hx ]; [ exact Hp | ].
  destruct (IH p Rp Rl x Hx) as (y & [ <- | Hy ] & Ey).
  - destruct Hp as (y' & Hy' & Ey'). exists y'. split; [ exact Hy' | congruence ].
  - exists y. split; [ | exact Ey ].
    right. destruct (tuple_eq p prev); [ exact Hy | now right ].
Qed.

Lemma drop_repeats_covers (l : list point) (x : point) :
  Forall real_point l -> In x l ->
  exists y, In y (drop_repeats l) /\ pos y = pos x.
Proof.
  destruct l as [ | p l ]; intros Rl Hx; [ destruct Hx | ].
  apply Forall_cons_iff in Rl as [Rp Rl]. cbn [drop_repeats].
  destruct Hx as [ <- | Hx ]; [ exists p; split; [ now left | reflexivity ] | ].
  exact (drop_repeats_after_covers l p Rp Rl x Hx).
Qed.

Lemma drop_repeats_after_Sorted (l : list point) :
  forall prev p0, real_point prev -> Forall real_point l ->
    Sorted ple (prev :: l) -> pos p0 = pos prev ->
    Sorted plt (p0 :: drop_repeats_after prev l).
Proof.
  induction l as [ | q l IH ]; intros prev p0 Rprev Rl Hs E0; cbn [drop_repeats_after].
  - repeat constructor.
  - apply Forall_cons_iff in Rl as [Rq Rl].
    inversion Hs as [ | ? ? Hs' Hhd ]; subst. inversion Hhd as [ | ? ? Hle ]; subst.
    destruct (tuple_eq q prev) eqn:E.
    + apply (IH q p0); try assumption.
      rewrite E0. symmetry. now apply tuple_eq_pos.
    + constructor; [ now apply (IH q q) | constructor ].
      unfold plt. rewrite E0. destruct Hle as [ Hlt | Heq ]; [ exact Hlt | exfalso ].
      assert (tuple_eq q prev = true) by (apply tuple_eq_pos; auto).
      congruence.
Qed.

Lemma drop_repeats_Sorted (l : list point) :
  Forall real_point l -> Sorted ple l -> Sorted plt (drop_repeats l).
Proof.
  destruct l as [ | p l ]; intros Rl Hs; [ constructor | ].
  apply Forall_cons_iff in Rl as [Rp Rl]. cbn [drop_repeats].
  now apply (drop_repeats_after_Sorted l p p).
Qed.

Lemma plt_trans : forall p q r, plt p q -> plt q r -> plt p r.
Proof. unfold plt. intros p q r. apply (before_trans false). Qed.

Lemma Sorted_plt_strong (l : list point) : Sorted plt l -> StronglySorted plt l.
Proof. apply Sorted_StronglySorted. exact plt_trans. Qed.

(** Sorting again what is sorted without repeats changes nothing. *)
Lemma insert_sorted_last (p : point) (acc : list point) :
  real_point p -> Forall real_point acc -> Forall (fun q => plt q p) acc ->
  insert_sorted p acc = acc ++ [p].
Proof.
  intros Rp. induction acc as [ | q acc IH ]; intros Ra Hlt; [ reflexivity | ].
  apply Forall_cons_iff in Ra as [Rq Ra]. apply Forall_cons_iff in Hlt as [Hq Hlt].
  cbn [insert_sorted app].
  destruct (tuple_lt p q) eqn:E.
  - apply tuple_lt_pos in E; try assumption.
    destruct (before_irrefl false _ (before_trans false _ _ _ E Hq)).
  - now rewrite IH.
Qed.

Lemma fold_insert_sorted_id (l : list point) :
  forall acc, Forall real_point (acc ++ l) -> StronglySorted plt (acc ++ l) ->
    fold_left (fun acc p => insert_sorted p acc) l acc = acc ++ l.
Proof.
  induction l as [ | p l IH ]; intros acc Rl Hs; cbn [fold_left].
  - now rewrite app_nil_r.
  - assert (E : acc ++ p :: l = (acc ++ [p]) ++ l) by (rewrite <- app_assoc; reflexivity).
    rewrite E in Rl, Hs |- *.
    rewrite insert_sorted_last.
    + now apply IH.
    + apply Forall_app in Rl as [Rl _]. apply Forall_app in Rl as [_ Rl].
      now inversion Rl.
    + apply Forall_app in Rl as [Rl _]. now apply Forall_app in Rl as [Rl _].
    + clear IH E Rl. induction acc as [ | a acc IHa ]; [ constructor | ].
      cbn [app] in Hs. inversion Hs as [ | ? ? Hs' Ha ]; subst.
      constructor; [ | now apply IHa ].
      rewrite Forall_forall in Ha. apply Ha. rewrite !in_app_iff. cbn. tauto.
Qed.

Lemma sorted_id (l : list point) :
  Forall real_point l -> StronglySorted plt l -> sorted l = l.
Proof. intros Rl Hs. exact (fold_insert_sorted_id l [] Rl Hs). Qed.

(** *** The passes, and the passes with exact tests *)

Lemma exact_turns_spec (points : list point) :
  exact_turns points = true ->
  forall a b c, In a points -> In b points -> In c points ->
    (cross_product_compare a b c <=? zero)
    = (cross_Z (pos a) (pos b) (pos c) <=? 0)%Z.
Proof.
  unfold exact_turns. intros H a b c Ha Hb Hc.
  rewrite forallb_forall in H. specialize (H a Ha).
  rewrite forallb_forall in H. specialize (H b Hb).
  rewrite forallb_forall in H. specialize (H c Hc).
  unfold turn_exact in H. now apply eqb_prop in H.
Qed.

Lemma pop_while_incl (p : point) (stack : list point) :
  incl (pop_while stack p) stack.
Proof.
  induction stack as [ | last_ rest IH ]; [ apply incl_refl | ].
  cbn [pop_while]. destruct rest as [ | second rest' ]; [ apply incl_refl | ].
  destruct (cross_product_compare second last_ p <=? zero); [ | apply incl_refl ].
  now apply incl_tl.
Qed.

Section Refinement.

Variable points : list point.
Hypothesis turns : exact_turns points = true.

Lemma pop_while_refines (p : point) (stack : list point) :
  In p points -> incl stack points ->
  map pos (pop_while stack p) = pop_while_exact (map pos stack) (pos p).
Proof.
  intros Hp. induction stack as [ | last_ rest IH ]; intros Hi; [ reflexivity | ].
  cbn [pop_while map pop_while_exact].
  destruct rest as [ | second rest' ]; [ reflexivity | ].
  cbn [map]. rewrite (exact_turns_spec points turns).
  - destruct (cross_Z (pos second) (pos last_) (pos p) <=? 0)%Z; [ | reflexivity ].
    apply IH. intros x Hx. apply Hi. now right.
  - apply Hi. right. now left.
  - apply Hi. now left.
  - exact Hp.
Qed.

Lemma fold_pass_refines (l : list point) :
  forall stack, incl l points -> incl stack points ->
    map pos (fold_left (fun stack point3 => point3 :: pop_while stack point3) l stack)
    = fold_left (fun stack p => p :: pop_while_exact stack p) (map pos l) (map pos stack).
Proof.
  induction l as [ | p l IH ]; intros stack Hl Hs; [ reflexivity | ].
  cbn [fold_left map].
  assert (Hp : In p points) by (apply Hl; now left).
  rewrite <- pop_while_refines by assumption.
  apply (IH (p :: pop_while stack p)).
  - intros x Hx. apply Hl. now right.
  - intros x [ <- | Hx ]; [ exact Hp | ]. apply Hs. exact (pop_while_incl _ _ _ Hx).
Qed.

Lemma hull_pass_refines (l : list point) :
  incl l points -> map pos (hull_pass l) = hull_pass_exact (map pos l).
Proof.
  intros Hl. unfold hull_pass, hull_pass_exact.
  apply (fold_pass_refines l []); [ exact Hl | intros x [] ].
Qed.

End Refinement.

Lemma fold_pass_incl (l : list point) :
  forall stack,
    incl (fold_left (fun stack point3 => point3 :: pop_while stack point3) l stack)
         (stack ++ l).
Proof.
  induction l as [ | p l IH ]; intros stack; cbn [fold_left].
  - rewrite app_nil_r. apply incl_refl.
  - intros x Hx. apply IH in Hx. apply in_app_or in Hx as [ [ <- | Hx ] | Hx ].
    + apply in_or_app. right. now left.
    + apply in_or_app. left. exact (pop_while_incl _ _ _ Hx).
    + apply in_or_app. right. now right.
Qed.

Lemma hull_pass_incl (l : list point) : incl (hull_pass l) l.
Proof. exact (fold_pass_incl l []). Qed.

Lemma removelast_incl {A : Type} (l : list A) : incl (removelast l) l.
Proof.
  induction l as [ | a l IH ]; [ apply incl_refl | ].
  cbn [removelast]. destruct l as [ | b l ]; [ intros x [] | ].
  intros x [ <- | Hx ]; [ now left | right; now apply IH ].
Qed.

Lemma map_removelast {A B : Type} (f : A -> B) (l : list A) :
  map f (removelast l) = removelast (map f l).
Proof.
  induction l as [ | a l IH ]; [ reflexivity | ].
  cbn [removelast map]. destruct l as [ | b l ]; [ reflexivity | ].
  cbn [map] in *. now rewrite IH.
Qed.

Lemma adj2_map {A B : Type} (f : A -> B) (R : B -> B -> Prop) (l : list A) :
  adj2 R (map f l) <-> adj2 (fun a b => R (f a) (f b)) l.
Proof.
  induction l as [ | a l IH ]; [ reflexivity | ].
  destruct l as [ | b l ]; [ reflexivity | ].
  cbn [map] in *. rewrite !adj2_cons, IH. reflexivity.
Qed.

Lemma adj3_map {A B : Type} (f : A -> B) (R : B -> B -> B -> Prop) (l : list A) :
  adj3 R (map f l) <-> adj3 (fun a b c => R (f a) (f b) (f c)) l.
Proof.
  induction l as [ | a l IH ]; [ reflexivity | ].
  destruct l as [ | b l ]; [ reflexivity | ].
  destruct l as [ | c l ]; [ reflexivity | ].
  cbn [map] in *. rewrite !adj3_cons, IH. reflexivity.
Qed.

(** The vertices are input points, whatever the input. *)
Lemma simple_convex_hull_incl (points : list point) :
  incl (simple_convex_hull points) points.
Proof.
  unfold simple_convex_hull. destruct points as [ | p0 points' ]; [ apply incl_refl | ].
  set (points := p0 :: points').
  assert (Hu : incl (np_unique points) points).
  { intros x Hx. unfold np_unique in Hx. apply drop_repeats_In in Hx.
    exact (proj1 (sorted_In x points) Hx). }
  destruct (Z.of_nat (length (np_unique points)) <? 2)%Z; [ exact Hu | ].
  assert (Hs : incl (sorted (np_unique points)) points).
  { intros x Hx. apply Hu. exact (proj1 (sorted_In x _) Hx). }
  intros x Hx. apply in_app_or in Hx as [ Hx | Hx ];
    apply removelast_incl in Hx; apply in_rev in Hx; apply hull_pass_incl in Hx.
  - now apply Hs.
  - apply in_rev in Hx. now apply Hs.
Qed.

(** *** The hull of points whose orientation tests are exact *)

Lemma StronglySorted_map_pos (l : list point) :
  StronglySorted plt l -> StronglySorted lex_lt (map pos l).
Proof.
  induction 1 as [ | a l Hs IH Ha ]; cbn [map]; constructor; [ exact IH | ].
  rewrite Forall_map. exact Ha.
Qed.

Lemma sorted_first_le (a : zpoint) (l : list zpoint) (q : zpoint) :
  StronglySorted lex_lt (a :: l) -> In q (a :: l) -> lex_le a q.
Proof.
  intros Hs [ <- | Hq ]; [ now right | left ].
  inversion Hs as [ | ? ? _ Ha ]; subst. rewrite Forall_forall in Ha. now apply Ha.
Qed.

Lemma sorted_last_le (l : list zpoint) (b q : zpoint) :
  StronglySorted lex_lt (l ++ [b]) -> In q (l ++ [b]) -> lex_le q b.
Proof.
  intros Hs Hq. apply (StronglySorted_rev lex_lt) in Hs.
  rewrite rev_app_distr in Hs. cbn [rev app] in Hs.
  apply in_rev in Hq. rewrite rev_app_distr in Hq. cbn [rev app] in Hq.
  destruct Hq as [ <- | Hq ]; [ now right | left ].
  inversion Hs as [ | ? ? _ Ha ]; subst. rewrite Forall_forall in Ha. now apply Ha.
Qed.

Lemma simple_convex_hull_nonempty (points : list point) :
  points <> [] ->
  simple_convex_hull points =
    let unique_points := np_unique points in
    if (Z.of_nat (length unique_points) <? 2)%Z then unique_points
    else
      let points := sorted unique_points in
      let lower := rev (hull_pass points) in
      let upper := rev (hull_pass (rev points)) in
      removelast lower ++ removelast upper.
Proof. destruct points; [ congruence | reflexivity ]. Qed.

Section Hull.

Variable points : list point.
Hypothesis points_real : Forall real_point points.
Hypothesis turns : exact_turns points = true.

Let unique_points := np_unique points.

Lemma unique_real : Forall real_point unique_points.
Proof.
  rewrite Forall_forall in *. intros x Hx. apply points_real.
  unfold unique_points, np_unique in Hx. apply drop_repeats_In in Hx.
  exact (proj1 (sorted_In x points) Hx).
Qed.

Lemma unique_incl : incl unique_points points.
Proof.
  intros x Hx. unfold unique_points, np_unique in Hx. apply drop_repeats_In in Hx.
  exact (proj1 (sorted_In x points) Hx).
Qed.

Lemma unique_sorted : StronglySorted plt unique_points.
Proof.
  apply Sorted_plt_strong, drop_repeats_Sorted.
  - now apply sorted_real.
  - now apply sorted_Sorted.
Qed.

Lemma unique_covers (q : point) :
  In q points -> exists y, In y unique_points /\ pos y = pos q.
Proof.
  intros Hq. apply drop_repeats_covers.
  - now apply sorted_real.
  - now apply sorted_In.
Qed.

Lemma sorted_unique : sorted unique_points = unique_points.
Proof. apply sorted_id; [ exact unique_real | exact unique_sorted ]. Qed.

Lemma hull_refines :
  (Z.of_nat (length unique_points) <? 2)%Z = false ->
  map pos (simple_convex_hull points) = hull_exact (map pos unique_points).
Proof.
  intros Hlen.
  assert (Hne : points <> []).
  { intros E. unfold unique_points in Hlen. rewrite E in Hlen. discriminate. }
  rewrite (simple_convex_hull_nonempty points Hne). cbv zeta.
  fold unique_points. rewrite Hlen, sorted_unique.
  unfold hull_exact.
  rewrite map_app, !map_removelast, !map_rev.
  rewrite !(hull_pass_refines points turns), map_rev; try reflexivity.
  - intros x Hx. apply unique_incl. now apply in_rev.
  - exact unique_incl.
Qed.

Lemma in_pos_unique (q : point) : In q points -> In (pos q) (map pos unique_points).
Proof.
  intros Hq. destruct (unique_covers q Hq) as (y & Hy & E).
  rewrite <- E. now apply in_map.
Qed.

Lemma cross_degenerate (a q : zpoint) : cross_Z a a q = 0%Z.
Proof. unfold cross_Z. ring. Qed.

(** Every input point is inside the hull, or on its boundary. *)
Lemma hull_contains (q : point) :
  In q points -> inside_polygon (simple_convex_hull points) q.
Proof.
  intros Hq.
  destruct (unique_covers q Hq) as (y & Hy & Ey).
  destruct (Z.of_nat (length unique_points) <? 2)%Z eqn:Hlen.
  - (* one unique point *)
    assert (EU : unique_points = [y]).
    { apply Z.ltb_lt in Hlen. destruct unique_points as [ | u [ | ? ? ] ];
        cbn [length] in Hlen; try lia; [ destruct Hy | ].
      destruct Hy as [ -> | [] ]. reflexivity. }
    assert (EH : simple_convex_hull points = [y]).
    { rewrite simple_convex_hull_nonempty by (intros E; rewrite E in Hq; destruct Hq).
      cbv zeta. fold unique_points. now rewrite Hlen, EU. }
    rewrite EH. split.
    + unfold left_of_edges. cbn. rewrite cross_degenerate. lia.
    + exists y, y. rewrite Ey. repeat split; try (now left); now right.
  - (* at least two *)
    pose proof (hull_refines Hlen) as Hmap.
    pose proof (StronglySorted_map_pos _ unique_sorted) as Hs.
    pose proof (in_pos_unique q Hq) as Hin.
    destruct unique_points as [ | a U' ] eqn:EU; [ discriminate | ].
    destruct (exists_last (l := U') ltac:(intros ->; discriminate)) as (mid & b & EU').
    subst U'. cbn [map] in Hmap, Hs, Hin. rewrite map_app in Hmap, Hs, Hin.
    cbn [map] in Hmap, Hs, Hin.
    destruct (hull_exact_spec (pos a) (pos b) (map pos mid) Hs)
      as (lo & up & EH & Hincl & Hedges & _).
    split.
    + unfold left_of_edges.
      apply (proj1 (adj2_map pos (fun a b => (0 <= cross_Z a b (pos q))%Z) _)).
      rewrite map_app, <- firstn_map, Hmap. now apply Hedges.
    + assert (Ha : In (pos a) (map pos (simple_convex_hull points)))
        by (rewrite Hmap, EH; now left).
      assert (Hb : In (pos b) (map pos (simple_convex_hull points)))
        by (rewrite Hmap, EH; apply in_or_app; right; now left).
      apply in_map_iff in Ha as (a' & Ea & Ha). apply in_map_iff in Hb as (b' & Eb & Hb).
      exists a', b'. rewrite Ea, Eb. repeat split; try assumption.
      * exact (sorted_first_le _ _ _ Hs Hin).
      * change (pos a :: map pos mid ++ [pos b])
          with ((pos a :: map pos mid) ++ [pos b]) in Hs, Hin.
        exact (sorted_last_le _ _ _ Hs Hin).
Qed.

(** The hull starts at the least point and turns left at every vertex. *)
Lemma hull_counter_clockwise :
  not_collinear points ->
  (exists p0 rest,
      simple_convex_hull points = p0 :: rest
      /\ forall q, In q points -> lex_le (pos p0) (pos q))
  /\ (3 <= length (simple_convex_hull points))%nat
  /\ counter_clockwise (simple_convex_hull points).
Proof.
  intros (ca & cb & cc & Hca & Hcb & Hcc & Hcross).
  assert (Hlen : (Z.of_nat (length unique_points) <? 2)%Z = false).
  { apply Z.ltb_ge. destruct (unique_covers ca Hca) as (ya & Hya & Ea).
    destruct (unique_covers cb Hcb) as (yb & Hyb & Eb).
    destruct (unique_covers cc Hcc) as (yc & Hyc & Ec).
    destruct unique_points as [ | u [ | u' U' ] ]; cbn [length]; try lia;
      [ destruct Hya | ].
    destruct Hya as [ -> | [] ], Hyb as [ -> | [] ], Hyc as [ -> | [] ].
    exfalso. apply Hcross. rewrite <- Ea, <- Eb, <- Ec. unfold cross_Z. ring. }
  pose proof (hull_refines Hlen) as Hmap.
  pose proof (StronglySorted_map_pos _ unique_sorted) as Hs.
  pose proof in_pos_unique as Hin.
  destruct unique_points as [ | a U' ] eqn:EU; [ discriminate | ].
  destruct (exists_last (l := U') ltac:(intros ->; discriminate)) as (mid & b & EU').
  subst U'. cbn [map] in Hmap, Hs, Hin. rewrite map_app in Hmap, Hs, Hin.
  cbn [map] in Hmap, Hs, Hin.
  destruct (hull_exact_spec (pos a) (pos b) (map pos mid) Hs)
    as (lo & up & EH & Hincl & _ & Hccw).
  assert (Hnc : exists x y z,
             In x (pos a :: map pos mid ++ [pos b])
             /\ In y (pos a :: map pos mid ++ [pos b])
             /\ In z (pos a :: map pos mid ++ [pos b])
             /\ cross_Z x y z <> 0%Z).
  { exists (pos ca), (pos cb), (pos cc). repeat split; auto. }
  specialize (Hccw Hnc). rewrite EH in Hmap.
  assert (Hcc' : counter_clockwise (simple_convex_hull points)).
  { unfold counter_clockwise.
    apply (proj1 (adj3_map pos (fun a b c => (0 < cross_Z a b c)%Z) _)).
    rewrite map_app, <- firstn_map, Hmap, <- EH. exact Hccw. }
  split; [ | split; [ | exact Hcc' ] ].
  - destruct (simple_convex_hull points) as [ | p0 rest ]; [ discriminate | ].
    exists p0, rest. split; [ reflexivity | ].
    apply (f_equal (hd (0, 0)%Z)) in Hmap. cbn [map app hd] in Hmap. rewrite Hmap.
    intros q Hq. exact (sorted_first_le _ _ _ Hs (Hin q Hq)).
  - rewrite <- (length_map pos), Hmap, length_app. cbn [length].
    destruct lo as [ | ? ? ]; [ | cbn [length]; lia ].
    destruct up as [ | ? ? ]; [ exfalso | cbn [length]; lia ].
    rewrite EH in Hccw. cbn in Hccw. destruct Hccw as [H _].
    revert H. unfold cross_Z. intros H. ring_simplify in H. lia.
Qed.

End Hull.


Lemma triangle_points_real : Forall real_point triangle_points.
Proof. repeat constructor. Qed.


(** C4. On the three corners [(0, 0)], [(0, 2^-600)], [(2^-600, 0)] the
    hull computed is the segment from [(0, 0)] to [(2^-600, 0)], which
    does not contain the input: the cross product of the two legs of the
    tiny triangle underflows to zero, the pass takes its corners for
    collinear, and the corner [(0, 2^-600)] is left strictly on the right
    of the edge from [(2^-600, 0)] back to [(0, 0)], outside the returned
    polygon. *)
Lemma simple_convex_hull_underflow :
  Forall real_point underflow_points
  /\ simple_convex_hull underflow_points = [ (zero, zero); (tiny, zero) ]
  /\ In (zero, tiny) underflow_points
  /\ (cross_Z (pos (tiny, zero)) (pos (zero, zero)) (pos (zero, tiny)) < 0)%Z.
Proof.
  split; [ repeat constructor | ].
  split; [ vm_compute; reflexivity | ].
  split; [ right; left; reflexivity | ].
  vm_compute. reflexivity.
Qed.




(** C9. The corners [(0, 0)], [(0, 2^-600)], [(2^-600, 0)] are three
    unique points that turn left, exactly, so not on one line, and the
    hull computed has two vertices: the corner [(0, 2^-600)] of the
    triangle, a vertex of the hull, is not returned. *)
Lemma simple_convex_hull_drops_vertex :
  Forall real_point underflow_points
  /\ (0 < cross_Z (pos (zero, zero)) (pos (tiny, zero)) (pos (zero, tiny)))%Z
  /\ length (np_unique underflow_points) = 3%nat
  /\ length (simple_convex_hull underflow_points) = 2%nat.
Proof.
  split; [ repeat constructor | ].
  repeat split; vm_compute; reflexivity.
Qed.

(** The hull of the unit triangle, as computed. *)
Lemma triangle_hull :
  simple_convex_hull triangle_points = [ (zero, zero); (one, zero); (zero, one) ].
Proof. vm_compute. reflexivity. Qed.

(** X4. Finite points that all sit at one position (duplicates, or zeros
    of either sign) leave one unique point, which is returned as it is. *)
Theorem simple_convex_hull_single (points : list point) :
  points <> [] -> Forall real_point points ->
  (forall p q, In p points -> In q points -> pos p = pos q) ->
  exists u, In u points /\ simple_convex_hull points = [u].
Proof.
  intros Hne Hr Hsame.
  rewrite (simple_convex_hull_nonempty points Hne). cbv zeta.
  assert (Hs : Forall real_point (sorted points)) by now apply sorted_real.
  assert (Hsame' : forall p q, In p (sorted points) -> In q (sorted points) ->
                     tuple_eq p q = true).
  { intros p q Hp Hq. rewrite Forall_forall in Hs.
    apply tuple_eq_pos; [ now apply Hs | now apply Hs | ].
    apply Hsame; now apply sorted_In. }
  assert (Hne' : sorted points <> []).
  { destruct points as [ | p0 l ]; [ congruence | ].
    intros E. assert (H : In p0 (sorted (p0 :: l))) by (apply sorted_In; now left).
    rewrite E in H. destruct H. }
  unfold np_unique.
  destruct (sorted points) as [ | u l ] eqn:E; [ congruence | ].
  assert (Hd : forall prev l', incl l' (u :: l) -> In prev (u :: l) ->
                 drop_repeats_after prev l' = []).
  { intros prev l'. revert prev. induction l' as [ | p l' IH ]; intros prev Hi Hp;
      [ reflexivity | ].
    cbn [drop_repeats_after].
    assert (Hpin : In p (u :: l)) by (apply Hi; now left).
    rewrite (Hsame' p prev Hpin Hp).
    apply IH; [ | exact Hpin ]. intros x Hx. apply Hi. now right. }
  cbn [drop_repeats]. rewrite (Hd u l); [ | apply incl_tl, incl_refl | now left ].
  cbn. exists u. split; [ | reflexivity ].
  apply sorted_In. rewrite E. now left.
Qed.

Lemma simple_convex_hull_single_witness :
  exists u, In u [ (one, zero); (one, S754_zero true); (one, zero) ]
            /\ simple_convex_hull [ (one, zero); (one, S754_zero true); (one, zero) ] = [u].
Proof.
  apply (simple_convex_hull_single [ (one, zero); (one, S754_zero true); (one, zero) ]).
  - discriminate.
  - repeat constructor.
  - intros p q [ <- | [ <- | [ <- | [] ] ] ] [ <- | [ <- | [ <- | [] ] ] ]; reflexivity.
Defined.

(** X3. Every vertex returned by [simple_convex_hull] is an input point,
    whatever the input: infinities, NaN and inexact turns included. *)
Theorem simple_convex_hull_subset (points : list point) (p : point) :
  In p (simple_convex_hull points) -> In p points.
Proof. apply simple_convex_hull_incl. Qed.

Lemma simple_convex_hull_subset_witness :
  In (one, zero) triangle_points.
Proof.
  apply (simple_convex_hull_subset triangle_points (one, zero)).
  vm_compute. right. left. reflexivity.
Defined.

End HullFacts.

(* ================================================================= *)
(** ** The order of the intersections in [test_curve_curve.py] *)

Module TestCurveCurveFacts.

Import F64 Python Helpers F64Facts HelpersFacts RuntimeUtils TestCurveCurve.
Local Open Scope Z_scope.
Local Open Scope f64_scope.

Lemma at_least_exp_mono (sx : bool) (k k' : Z) (x : float) :
  (k' <= k)%Z -> at_least_exp sx k x -> at_least_exp sx k' x.
Proof. destruct x; cbn; intuition lia. Qed.

(** A difference whose exact value is at least [2^k * 2^ez] rounds to a
    float of exponent at least [k + 1 + ez - 53], or overflows. *)
Lemma sub_lower_bound (mc : positive) (ec : Z) (s : bool) (m : positive) (e k : Z) :
  let ez := Z.min ec e in
  (2 ^ k <= Zpos mc * 2 ^ (ec - ez) - cond_Zopp s (Zpos m * 2 ^ (e - ez)))%Z ->
  (0 <= k)%Z ->
  (SpecFloat.emin prec emax <= k + 1 + ez - prec)%Z ->
  at_least_exp false (k + 1 + ez - prec)
    (S754_finite false mc ec - S754_finite s m e).
Proof.
  intros ez HD Hk Hn. unfold sub, SFsub. fold ez.
  destruct (shl_align_spec mc ec ez) as (Hc & _ & _).
  destruct (shl_align_spec m e ez) as (Ha & _ & _).
  replace (Z.min ec ez) with ez in Hc by (subst ez; lia).
  replace (Z.min e ez) with ez in Ha by (subst ez; lia).
  change (cond_Zopp false (Zpos (fst (shl_align mc ec ez))))
    with (Zpos (fst (shl_align mc ec ez))).
  replace (cond_Zopp s (Zpos (fst (shl_align m e ez))))
    with (cond_Zopp s (Zpos m * 2 ^ (e - ez))) by (now rewrite Ha).
  rewrite Hc.
  set (D := (Zpos mc * 2 ^ (ec - ez) - cond_Zopp s (Zpos m * 2 ^ (e - ez)))%Z) in *.
  assert (0 < 2 ^ k)%Z by (apply pow2_pos; lia).
  destruct D as [ | p | p ] eqn:HDp; try lia.
  cbn [binary_normalize].
  pose proof (digits2_pos_ge p k HD) as Hdig.
  apply (at_least_exp_mono _ (Zpos (digits2_pos p) + ez - prec)); [ lia | ].
  apply binary_round_normal. lia.
Qed.

Lemma s_val0_eq : nth 0 s_vals_20_21 zero = s_val0.
Proof. reflexivity. Qed.

Lemma tol0_eq : of_int 8 * abs (spacing s_val0) = tol0.
Proof. vm_compute. reflexivity. Qed.

Lemma leb_tol0_false (x : float) :
  at_least_exp false (-55) x -> (abs x <=? tol0) = false.
Proof.
  destruct x as [ | sx | | sx m e ]; cbn [at_least_exp]; try tauto.
  intros [-> He]. unfold leb, SFleb, tol0. cbn [abs SFabs SFcompare].
  destruct (Z.compare_spec e (-103)); (reflexivity || lia).
Qed.

(** An assertion that holds: [ulps_away] has returned [True]. *)
Lemma assert_close_inv (config : Config) (approximated exact : float) :
  assert_close config approximated exact = true ->
  ulps_away exact approximated (_wiggle config) = inr true.
Proof.
  unfold assert_close.
  destruct (ulps_away exact approximated (_wiggle config)) as [ e | [ | ] ];
    (reflexivity || discriminate).
Qed.

Lemma close_to_s_val0 (a : float) :
  valid a = true -> ulps_away s_val0 a 8 = inr true ->
  exists m e, a = S754_finite false m e /\ (-92 < e)%Z.
Proof.
  intros V. unfold ulps_away.
  change (s_val0 == zero) with false. cbv iota.
  change (float_of_int 8) with (@inr exn float (of_int 8)). cbv beta iota zeta.
  rewrite tol0_eq.
  destruct a as [ sa | sa | | sa m e ].
  - change (S754_zero sa == zero) with true. cbv iota. vm_compute. discriminate.
  - destruct sa; vm_compute; discriminate.
  - vm_compute. discriminate.
  - replace (S754_finite sa m e == zero) with false by (now destruct sa).
    intros H.
    pose proof (valid_finite_inv _ _ _ V) as (Hr & Hd & _).
    pose proof (digits2_pos_bounds m) as [_ Hm].
    assert (Hm' : (Zpos m < 2 ^ 53)%Z)
      by (eapply Z.lt_le_trans; [ exact Hm | apply Z.pow_le_mono_r; unfold prec in *; lia ]).
    change (2 ^ 53)%Z with 9007199254740992%Z in Hm'.
    unfold SpecFloat.emin, emax, prec in Hr.
    destruct sa.
    + exfalso.
      pose proof (sub_lower_bound 6223821613304664 (-54) true m e (-2 - Z.min (-54) e)) as L.
      cbv zeta in L. unfold SpecFloat.emin, emax, prec in L.
      assert (HP : (0 < 2 ^ (-54 - Z.min (-54) e))%Z) by (apply pow2_pos; lia).
      assert (HQ : (0 <= 2 ^ (e - Z.min (-54) e))%Z) by (apply Z.pow_nonneg; lia).
      clear Hm.
      replace (-2 - Z.min (-54) e)%Z with (52 + (-54 - Z.min (-54) e))%Z in L at 1 by lia.
      rewrite Z.pow_add_r in L by lia.
      change (2 ^ 52)%Z with 4503599627370496%Z in L.
      cbn [cond_Zopp] in L.
      set (P := (2 ^ (-54 - Z.min (-54) e))%Z) in *.
      set (X := (Zpos m * 2 ^ (e - Z.min (-54) e))%Z) in *.
      assert (HX : (0 <= X)%Z) by (subst X; apply Z.mul_nonneg_nonneg; lia).
      clearbody P X.
      specialize (L ltac:(lia) ltac:(lia) ltac:(lia)).
      apply (at_least_exp_mono _ _ (-55)) in L; [ | lia ].
      apply leb_tol0_false in L. fold s_val0 in L. congruence.
    + destruct (Z_lt_le_dec (-92) e) as [ He | He ];
        [ exists m, e; split; [ reflexivity | exact He ] | exfalso ].
      pose proof (sub_lower_bound 6223821613304664 (-54) false m e (-3 - e)) as L.
      cbv zeta in L. unfold SpecFloat.emin, emax, prec in L.
      replace (Z.min (-54) e) with e in L by lia.
      rewrite Z.sub_diag, Z.pow_0_r, Z.mul_1_r in L.
      assert (HP : (0 < 2 ^ (-92 - e))%Z) by (apply pow2_pos; lia).
      replace (-54 - e)%Z with (38 + (-92 - e))%Z in L by lia.
      replace (-3 - e)%Z with (89 + (-92 - e))%Z in L at 1 by lia.
      rewrite !Z.pow_add_r in L by lia.
      change (2 ^ 38)%Z with 274877906944%Z in L.
      change (2 ^ 89)%Z with 618970019642690137449562112%Z in L.
      cbn [cond_Zopp] in L.
      set (P := (2 ^ (-92 - e))%Z) in *. clearbody P.
      specialize (L ltac:(lia) ltac:(lia) ltac:(lia)).
      apply (at_least_exp_mono _ _ (-55)) in L; [ | lia ].
      apply leb_tol0_false in L. fold s_val0 in L. congruence.
Qed.

Lemma close_to_zero (a : float) (m0 : positive) (e0 : Z) :
  (abs a <? EPS) = true -> (-92 < e0)%Z ->
  (a <? S754_finite false m0 e0) = true.
Proof.
  unfold ltb, SFltb, EPS.
  destruct a as [ sa | sa | | sa m e ]; cbn [abs SFabs SFcompare]; try discriminate;
    intros H He; try reflexivity.
  destruct sa; [ reflexivity | ].
  destruct (Z.compare_spec e (-92)); destruct (Z.compare_spec e e0);
    try reflexivity; try lia; discriminate.
Qed.

Lemma ltb_not_in_order (i j : Intersection) :
  (s j <? s i) = true -> in_order i j = false.
Proof.
  intros H. unfold in_order. rewrite (ltb_asym _ _ H).
  unfold ltb, SFltb, eqb, SFeqb in *. rewrite (compare_antisym (s j) (s i)).
  destruct (SFcompare (s j) (s i)) as [ [ | | ] | ]; try discriminate. reflexivity.
Qed.

(** C1 (amended). The result of [all_intersections] is not sorted by [s]
    for every pair of curves: whatever list of records
    [test_curves20_and_21] accepts for curves 20 and 21 (as many records
    as expected parameters, each [s] and [t] within 8 ULPs of the expected
    one at the same place) has the [s] of its second record strictly below
    the [s] of its first, and so is not in ascending order of [s]. *)
Theorem curves20_and_21_out_of_order (intersections : list Intersection) :
  Forall (fun i => valid (s i) = true) intersections ->
  curve_curve_check CONFIG intersections s_vals_20_21 t_vals_20_21 = true ->
  exists i0 i1 rest,
    intersections = i0 :: i1 :: rest
    /\ (s i1 <? s i0) = true
    /\ sorted_by_s_then_t intersections = false.
Proof.
  intros V H. unfold curve_curve_check in H.
  apply andb_true_iff in H as [H Hall]. apply andb_true_iff in H as [_ Hlen].
  apply Nat.eqb_eq in Hlen.
  destruct intersections as [ | i0 [ | i1 rest ] ]; try discriminate.
  exists i0, i1, rest. split; [ reflexivity | ].
  unfold s_vals_20_21, t_vals_20_21 in Hall.
  cbn [combine forallb] in Hall.
  apply andb_true_iff in Hall as [H0 Hall].
  apply andb_true_iff in H0 as [H0 _].
  destruct rest as [ | i2 rest ]; [ discriminate | ].
  cbn [combine forallb] in Hall.
  apply andb_true_iff in Hall as [H1 _].
  apply andb_true_iff in H1 as [H1 _].
  apply assert_close_inv in H0, H1. unfold CONFIG in H0, H1. cbn [_wiggle] in H0, H1.
  assert (H1' : (abs (s i1) <? EPS) = true) by (injection H1 as H1; exact H1).
  apply Forall_cons_iff in V as [V0 _].
  destruct (close_to_s_val0 (s i0) V0 H0) as (m0 & e0 & E0 & He0).
  assert (Hlt : (s i1 <? s i0) = true).
  { rewrite E0. apply close_to_zero; [ exact H1' | exact He0 ]. }
  split; [ exact Hlt | ].
  cbn [sorted_by_s_then_t]. now rewrite (ltb_not_in_order i0 i1 Hlt).
Qed.

Lemma curves20_and_21_out_of_order_witness :
  exists i0 i1 rest,
    expected_20_21 = i0 :: i1 :: rest
    /\ (s i1 <? s i0) = true
    /\ sorted_by_s_then_t expected_20_21 = false.
Proof.
  apply (curves20_and_21_out_of_order expected_20_21).
  - repeat constructor.
  - vm_compute. reflexivity.
Defined.

(** The expected parameters themselves: finite numbers that the check
    accepts, and that are not in ascending order of [s]. *)
Lemma curves20_and_21_expected_unsorted :
  Forall (fun i => real (s i) /\ real (t i)) expected_20_21
  /\ map s expected_20_21 = s_vals_20_21
  /\ map t expected_20_21 = t_vals_20_21
  /\ curve_curve_check CONFIG expected_20_21 s_vals_20_21 t_vals_20_21 = true
  /\ sorted_by_s_then_t expected_20_21 = false.
Proof.
  split; [ repeat constructor | ].
  repeat split; vm_compute; reflexivity.
Qed.

End TestCurveCurveFacts.

(* ================================================================= *)
(** ** The order of the stored parameters in [runtime_utils.py] *)

Module RuntimeUtilsFacts.

Import F64 Helpers F64Facts RuntimeUtils.
Local Open Scope Z_scope.
Local Open Scope f64_scope.

(** *** [np.sort] and [_verify_data] *)

Lemma np_lt_asym (a b : float) : np_lt a b = true -> np_lt b a = false.
Proof.
  unfold np_lt. intros H. apply orb_true_iff in H as [H | H].
  - rewrite (ltb_asym _ _ H).
    destruct a, b; try discriminate; reflexivity.
  - apply andb_true_iff in H as [Hb Ha].
    destruct a, b; try discriminate; reflexivity.
Qed.

Lemma np_insert_HdRel (x a : float) (l : list float) :
  np_le x a -> HdRel np_le x l -> HdRel np_le x (np_insert a l).
Proof.
  intros Ha Hl. destruct l as [ | b l' ]; cbn [np_insert].
  - now constructor.
  - destruct (np_lt a b); constructor; [ exact Ha | ].
    now inversion Hl.
Qed.

Lemma np_insert_Sorted (a : float) (l : list float) :
  Sorted np_le l -> Sorted np_le (np_insert a l).
Proof.
  induction 1 as [ | b l' Hs IH Hb ]; cbn [np_insert].
  - repeat constructor.
  - destruct (np_lt a b) eqn:E.
    + constructor; [ now constructor | ].
      constructor. now apply np_lt_asym.
    + constructor; [ exact IH | ].
      apply np_insert_HdRel; [ exact E | exact Hb ].
Qed.

Lemma np_sort_Sorted (l : list float) : Sorted np_le (np_sort l).
Proof.
  unfold np_sort.
  assert (H : forall acc, Sorted np_le acc ->
                Sorted np_le (fold_left (fun acc a => np_insert a acc) l acc)).
  { induction l as [ | a l IH ]; intros acc Hacc; [ exact Hacc | ].
    cbn [fold_left]. apply IH. now apply np_insert_Sorted. }
  apply H. constructor.
Qed.

Lemma np_insert_length (a : float) (l : list float) :
  length (np_insert a l) = S (length l).
Proof.
  induction l as [ | b l IH ]; [ reflexivity | ].
  cbn [np_insert]. destruct (np_lt a b); cbn [length]; congruence.
Qed.

Lemma np_sort_length (l : list float) : length (np_sort l) = length l.
Proof.
  unfold np_sort.
  assert (H : forall acc,
             length (fold_left (fun acc a => np_insert a acc) l acc)
             = (length l + length acc)%nat).
  { induction l as [ | a l IH ]; intros acc; [ reflexivity | ].
    cbn [fold_left length]. rewrite IH, np_insert_length. lia. }
  rewrite H. cbn [length]. lia.
Qed.

Lemma eqb_compare (x y : float) :
  (x == y) = true ->
  is_nan x = false
  /\ (forall z, SFcompare x z = SFcompare y z)
  /\ (forall z, SFcompare z x = SFcompare z y).
Proof.
  unfold eqb, SFeqb. intros H.
  destruct (SFcompare x y) as [ [ | | ] | ] eqn:E; try discriminate.
  destruct (compare_eq_inv _ _ E) as [ <- | (sx & sy & -> & ->) ].
  - split; [ | split; reflexivity ]. now destruct x.
  - split; [ reflexivity | ].
    split; intros z; destruct z as [ | sz | | sz ? ? ]; try reflexivity;
      destruct sz; reflexivity.
Qed.

Lemma np_le_leb (x x' y y' : float) :
  (x == y) = true -> (x' == y') = true -> np_le x x' -> (y <=? y') = true.
Proof.
  intros E E' H.
  destruct (eqb_compare _ _ E) as (N & L & _).
  destruct (eqb_compare _ _ E') as (N' & _ & R').
  unfold leb, SFleb. rewrite <- L, <- R'.
  unfold np_le, np_lt in H. apply orb_false_iff in H as [H _].
  unfold ltb, SFltb in H. rewrite (compare_antisym x x') in H.
  destruct (not_nan_compare x x' N N') as (c & Hc). rewrite Hc in *.
  destruct c; cbn in *; congruence.
Qed.

Lemma pointwise_eqb (a b : list float) :
  length a = length b ->
  forallb (fun ab => fst ab == snd ab) (combine a b) = true ->
  Forall2 (fun x y => (x == y) = true) a b.
Proof.
  revert b. induction a as [ | x a IH ]; intros [ | y b ] Hl H; try discriminate.
  - constructor.
  - cbn [combine forallb fst snd] in H. apply andb_true_iff in H as [H1 H2].
    constructor; [ exact H1 | ]. apply IH; [ | exact H2 ].
    cbn [length] in Hl. congruence.
Qed.

Lemma ascending_of_pointwise (a b : list float) :
  Forall2 (fun x y => (x == y) = true) a b ->
  Sorted np_le a -> ascending b = true.
Proof.
  induction 1 as [ | x y a b E Hab IH ]; intros Hs; [ reflexivity | ].
  cbn [ascending]. destruct Hab as [ | x' y' a' b' E' Hab' ]; [ reflexivity | ].
  inversion Hs as [ | ? ? Hs' Hd ]; subst.
  apply andb_true_iff. split.
  - inversion Hd; subst. now apply (np_le_leb x x').
  - apply IH. exact Hs'.
Qed.

(** X1. [_verify_data] raises no [ValueError] only when the parameters
    [curve1_params] are in ascending order (and none of them is a NaN,
    which [<=] rules out). *)
Theorem verify_data_ascending (curve1_params : list float) :
  verify_data curve1_params = true -> ascending curve1_params = true.
Proof.
  unfold verify_data. intros H.
  apply (ascending_of_pointwise (np_sort curve1_params)).
  - apply pointwise_eqb; [ apply np_sort_length | exact H ].
  - apply np_sort_Sorted.
Qed.

Lemma verify_data_ascending_witness :
  ascending [zero; dyadic 3 (-2); dyadic 3 (-2); one] = true.
Proof.
  apply (verify_data_ascending [zero; dyadic 3 (-2); dyadic 3 (-2); one]).
  vm_compute. reflexivity.
Defined.

(** The parameters that [test_curves20_and_21] expects of
    [all_intersections], in the order it expects them, are not what
    [_verify_data] accepts. *)
Theorem verify_data_rejects_20_21 :
  verify_data TestCurveCurve.s_vals_20_21 = false.
Proof. vm_compute. reflexivity. Qed.

End RuntimeUtilsFacts.

(* ================================================================= *)
(** ** When binary64 arithmetic is exact, and when it is monotone *)

Module RoundingFacts.

Import F64 F64Facts.
Local Open Scope Z_scope.

(** *** Rounding a number that needs no rounding *)

Lemma digits_unique (p : positive) (d : Z) :
  2 ^ (d - 1) <= Zpos p < 2 ^ d -> Zpos (digits2_pos p) = d.
Proof.
  intros [Hlo Hhi]. pose proof (digits2_pos_bounds p) as [Dlo Dhi].
  set (D := Zpos (digits2_pos p)) in *.
  destruct (Z.lt_trichotomy D d) as [ H | [ H | H ] ]; [ exfalso | exact H | exfalso ].
  - assert (2 ^ D <= 2 ^ (d - 1)) by (apply Z.pow_le_mono_r; lia). lia.
  - assert (2 ^ d <= 2 ^ (D - 1)) by (apply Z.pow_le_mono_r; lia). lia.
Qed.

Lemma digits_shift (k : positive) (n : Z) (m : positive) :
  0 <= n -> Zpos m = Zpos k * 2 ^ n ->
  Zpos (digits2_pos m) = Zpos (digits2_pos k) + n.
Proof.
  intros Hn E. apply digits_unique.
  pose proof (digits2_pos_bounds k) as [Dlo Dhi].
  set (D := Zpos (digits2_pos k)) in *.
  assert (HD : 1 <= D) by (subst D; lia).
  replace (D + n - 1) with ((D - 1) + n) by lia.
  rewrite !Z.pow_add_r by lia. rewrite E.
  pose proof (pow2_pos n Hn). nia.
Qed.

Lemma shr_1_double (x : Z) :
  0 <= x ->
  shr_1 {| shr_m := x * 2; shr_r := false; shr_s := false |}
  = {| shr_m := x; shr_r := false; shr_s := false |}.
Proof.
  intros Hx. destruct x as [ | p | p ]; [ reflexivity | | lia ].
  replace (Zpos p * 2) with (Zpos p~0) by lia. reflexivity.
Qed.

Lemma iter_shr_exact (p : positive) :
  forall k, 0 <= k ->
    iter_pos shr_1 p {| shr_m := k * 2 ^ Zpos p; shr_r := false; shr_s := false |}
    = {| shr_m := k; shr_r := false; shr_s := false |}.
Proof.
  induction p as [p IH | p IH | ]; intros k Hk; cbn [iter_pos].
  - pose proof (pow2_pos (Zpos p) ltac:(lia)) as HP.
    replace (k * 2 ^ Zpos p~1) with (((k * 2 ^ Zpos p) * 2 ^ Zpos p) * 2).
    + rewrite shr_1_double by nia. rewrite IH by nia. now rewrite IH.
    + change (Zpos p~1) with (2 * Zpos p + 1).
      replace (2 * Zpos p + 1) with (Zpos p + Zpos p + 1) by lia.
      rewrite !Z.pow_add_r by lia. change (2 ^ 1) with 2. ring.
  - pose proof (pow2_pos (Zpos p) ltac:(lia)) as HP.
    replace (k * 2 ^ Zpos p~0) with ((k * 2 ^ Zpos p) * 2 ^ Zpos p).
    + rewrite IH by nia. now rewrite IH.
    + change (Zpos p~0) with (2 * Zpos p).
      replace (2 * Zpos p) with (Zpos p + Zpos p) by lia.
      rewrite !Z.pow_add_r by lia. ring.
  - change (2 ^ 1) with 2. now apply shr_1_double.
Qed.

Lemma shr_exact (k e n : Z) :
  0 <= k -> 0 <= n ->
  shr {| shr_m := k * 2 ^ n; shr_r := false; shr_s := false |} e n
  = ({| shr_m := k; shr_r := false; shr_s := false |}, e + n).
Proof.
  intros Hk Hn. unfold shr. destruct n as [ | p | p ]; [ | | lia ].
  - rewrite Z.pow_0_r, Z.mul_1_r, Z.add_0_r. reflexivity.
  - now rewrite iter_shr_exact.
Qed.

(** The mantissa [k * 2^n] at exponent [e] is [k] at the exponent [e + n]
    that the format assigns: nothing is rounded away. *)
Lemma binary_round_aux_exact (sx : bool) (k : positive) (n e : Z) (m : positive) :
  0 <= n -> Zpos m = Zpos k * 2 ^ n ->
  fexp prec emax (Zpos (digits2_pos m) + e) = e + n ->
  e + n <= emax - prec ->
  binary_round_aux prec emax sx (Zpos m) e loc_Exact = S754_finite sx k (e + n).
Proof.
  intros Hn Em Hf Hb. unfold binary_round_aux, shr_fexp.
  cbn [Zdigits2 shr_record_of_loc]. rewrite Hf.
  replace (e + n - e) with n by lia. rewrite Em.
  rewrite shr_exact by lia. cbn [shr_m loc_of_shr_record round_nearest_even].
  cbn [Zdigits2 shr_record_of_loc].
  rewrite (digits_shift k n m Hn Em) in Hf.
  replace (Zpos (digits2_pos k) + (e + n)) with (Zpos (digits2_pos k) + n + e) by lia.
  rewrite Hf, Z.sub_diag. cbn [shr shr_m].
  apply Z.leb_le in Hb. now rewrite Hb.
Qed.

Lemma exact_valid (sx : bool) (k : positive) (n e : Z) (m : positive) :
  0 <= n -> Zpos m = Zpos k * 2 ^ n ->
  fexp prec emax (Zpos (digits2_pos m) + e) = e + n ->
  e + n <= emax - prec ->
  valid (S754_finite sx k (e + n)) = true.
Proof.
  intros Hn Em Hf Hb. unfold valid, valid_binary, bounded, canonical_mantissa.
  rewrite (digits_shift k n m Hn Em) in Hf.
  replace (Zpos (digits2_pos k) + (e + n)) with (Zpos (digits2_pos k) + n + e) by lia.
  rewrite Hf, Z.eqb_refl. now apply Z.leb_le.
Qed.

Lemma pow2_split (a b : Z) : 0 <= a -> 0 <= b -> 2 ^ (a + b) = 2 ^ a * 2 ^ b.
Proof. intros. now apply Z.pow_add_r. Qed.

Lemma pow2_cancel (x y c : Z) : 0 <= c -> x * 2 ^ c = y * 2 ^ c -> x = y.
Proof.
  intros Hc H. pose proof (pow2_pos c Hc).
  apply (Z.mul_cancel_r x y (2 ^ c)); [ lia | exact H ].
Qed.

(** A mantissa [m] at exponent [e] whose value is [K] steps of a grid of
    step [2^(g - 1074)], with [K < 2^53], is a binary64 number.  The offset
    [c] only makes the exponents of the equation non-negative. *)
Lemma round_aux_grid (sx : bool) (m : positive) (e K g c : Z) :
  e <= fexp prec emax (Zpos (digits2_pos m) + e) ->
  0 <= e + c -> 1074 <= c -> 0 <= g <= 2045 ->
  Zpos m * 2 ^ (e + c) = K * 2 ^ (g + c - 1074) ->
  K < 2 ^ 53 ->
  exists k f,
    binary_round_aux prec emax sx (Zpos m) e loc_Exact = S754_finite sx k f
    /\ valid (S754_finite sx k f) = true
    /\ Zpos k * 2 ^ (f + 1074) = K * 2 ^ g.
Proof.
  intros He Hec Hc Hg Eq HK.
  set (D := Zpos (digits2_pos m)) in *.
  set (f := fexp prec emax (D + e)) in *.
  assert (HD : 1 <= D) by (subst D; lia).
  assert (Hfmin : -1074 <= f) by (subst f; unfold fexp, SpecFloat.emin, emax, prec; lia).
  assert (HKpos : 0 < K).
  { pose proof (pow2_pos (e + c) Hec). pose proof (pow2_pos (g + c - 1074) ltac:(lia)).
    assert (0 < K * 2 ^ (g + c - 1074)) by (rewrite <- Eq; lia). nia. }
  assert (Hfg : f + 1074 <= g).
  { destruct (Z.eq_dec f (-1074)) as [ -> | Hne ]; [ lia | ].
    assert (Ef : f = D + e - 53)
      by (subst f; unfold fexp, SpecFloat.emin, emax, prec in *; lia).
    pose proof (digits2_pos_bounds m) as [Dlo _]. fold D in Dlo.
    assert (H1 : 2 ^ (D - 1 + (e + c)) <= Zpos m * 2 ^ (e + c)).
    { rewrite pow2_split by lia. apply Z.mul_le_mono_nonneg_r; [ | exact Dlo ].
      apply Z.lt_le_incl, pow2_pos; lia. }
    assert (H2 : K * 2 ^ (g + c - 1074) < 2 ^ (53 + (g + c - 1074))).
    { rewrite pow2_split by lia. apply Z.mul_lt_mono_pos_r; [ apply pow2_pos; lia | exact HK ]. }
    assert (H3 : 2 ^ (D - 1 + (e + c)) < 2 ^ (53 + (g + c - 1074))) by lia.
    apply Z.pow_lt_mono_r_iff in H3; lia. }
  set (n := f - e).
  assert (Hn : 0 <= n) by (subst n; lia).
  set (kz := K * 2 ^ (g - f - 1074)).
  assert (Hkz : 0 < kz).
  { subst kz. apply Z.mul_pos_pos; [ exact HKpos | apply pow2_pos; lia ]. }
  assert (Em : Zpos m = kz * 2 ^ n).
  { apply (pow2_cancel _ _ (e + c) Hec). rewrite Eq. subst kz n.
    rewrite <- !Z.mul_assoc, <- !pow2_split by lia. f_equal. f_equal. lia. }
  destruct kz as [ | k | k ] eqn:Ek; try lia.
  exists k, f.
  assert (Hfe : fexp prec emax (D + e) = e + n) by (subst n; fold f; lia).
  assert (Hb : e + n <= emax - prec) by (subst n; unfold emax, prec; lia).
  replace f with (e + n) at 1 2 by (subst n; lia).
  split; [ now apply (binary_round_aux_exact sx k n e m) | ].
  split; [ now apply (exact_valid sx k n e m) | ].
  rewrite <- Ek. subst kz.
  rewrite <- Z.mul_assoc, <- pow2_split by lia. f_equal. f_equal. lia.
Qed.

Lemma normalize_grid (z e K g : Z) :
  -1074 <= e -> 0 <= g <= 2045 ->
  z * 2 ^ (e + 1074) = K * 2 ^ g -> Z.abs K < 2 ^ 53 ->
  worth (binary_normalize prec emax z e false) (K * 2 ^ g).
Proof.
  intros He Hg Eq HK.
  pose proof (pow2_pos (e + 1074) ltac:(lia)) as HP.
  pose proof (pow2_pos g ltac:(lia)) as HG.
  assert (Hround : forall sx (m : positive) K',
             Zpos m * 2 ^ (e + 1074) = K' * 2 ^ g -> K' < 2 ^ 53 ->
             worth (binary_round prec emax sx m e) (cond_Zopp sx (K' * 2 ^ g))).
  { intros sx m K' Eq' HK'. unfold binary_round.
    set (f0 := fexp prec emax (Zpos (digits2_pos m) + e)).
    assert (Hf0 : -1074 <= f0) by (subst f0; unfold fexp, SpecFloat.emin, emax, prec; lia).
    destruct (shl_align_spec m e f0) as (Hmz & Hez & Hdz).
    destruct (shl_align m e f0) as [mz ez]. cbn [fst snd] in Hmz, Hez, Hdz.
    destruct (round_aux_grid sx mz ez K' g 1074) as (k & f & Er & Vr & Ur); try lia.
    - rewrite Hdz. fold f0. lia.
    - replace (g + 1074 - 1074) with g by lia.
      rewrite Hmz, <- Eq'. rewrite <- !Z.mul_assoc, <- pow2_split by lia.
      f_equal. f_equal. lia.
    - rewrite Er. split; [ split; [ exact Vr | reflexivity ] | ].
      cbn [units]. now rewrite Ur. }
  destruct z as [ | m | m ]; cbn [binary_normalize].
  - assert (K = 0) by nia. subst K. split; [ split; reflexivity | reflexivity ].
  - apply (Hround false m K); [ exact Eq | lia ].
  - replace (K * 2 ^ g) with (cond_Zopp true ((- K) * 2 ^ g)) by (cbn [cond_Zopp]; lia).
    apply (Hround true m (- K)); [ | lia ].
    rewrite <- Pos2Z.opp_pos in Eq. lia.
Qed.

Local Open Scope f64_scope.

Lemma units_finite (s : bool) (m : positive) (e : Z) :
  units (S754_finite s m e) = cond_Zopp s (Zpos m * 2 ^ (e + 1074)).
Proof. reflexivity. Qed.

Lemma cond_Zopp_mul (s : bool) (a b : Z) : (cond_Zopp s a * b = cond_Zopp s (a * b))%Z.
Proof. destruct s; cbn [cond_Zopp]; lia. Qed.

(** A difference that is a binary64 number is computed exactly. *)
Lemma sub_worth (x y : float) (K g : Z) :
  real x -> real y -> (0 <= g <= 2045)%Z ->
  (units x - units y = K * 2 ^ g)%Z -> (Z.abs K < 2 ^ 53)%Z ->
  worth (x - y) (K * 2 ^ g).
Proof.
  intros [Vx Fx] [Vy Fy] Hg Eq HK. rewrite <- Eq.
  destruct x as [sx | sx | | sx mx ex]; try discriminate;
    destruct y as [sy | sy | | sy my ey]; try discriminate.
  - destruct sx, sy; (split; [ split; reflexivity | reflexivity ]).
  - split; [ split; [ exact Vy | reflexivity ] | ].
    cbn. destruct sy; cbn; lia.
  - split; [ split; [ exact Vx | reflexivity ] | ]. cbn. lia.
  - rewrite Eq. unfold sub, SFsub.
    pose proof (valid_finite_inv _ _ _ Vx) as (Hrx & _).
    pose proof (valid_finite_inv _ _ _ Vy) as (Hry & _).
    unfold SpecFloat.emin, emax, prec in Hrx, Hry.
    set (ez := Z.min ex ey).
    destruct (shl_align_spec mx ex ez) as (Hmx & _ & _).
    destruct (shl_align_spec my ey ez) as (Hmy & _ & _).
    replace (Z.min ex ez) with ez in Hmx by (subst ez; lia).
    replace (Z.min ey ez) with ez in Hmy by (subst ez; lia).
    apply normalize_grid; try assumption; [ subst ez; lia | ].
    rewrite <- Eq, !units_finite, Hmx, Hmy.
    rewrite Z.mul_sub_distr_r, !cond_Zopp_mul.
    rewrite <- !Z.mul_assoc, <- !pow2_split by (subst ez; lia).
    f_equal; f_equal; f_equal; f_equal; lia.
Qed.

Lemma mul_digits (mx my : positive) :
  (Zpos (digits2_pos mx) + Zpos (digits2_pos my) - 1 <= Zpos (digits2_pos (mx * my)))%Z.
Proof.
  pose proof (digits2_pos_bounds mx) as [Lx _].
  pose proof (digits2_pos_bounds my) as [Ly _].
  pose proof (digits2_pos_bounds (mx * my)) as [_ H].
  set (dx := Zpos (digits2_pos mx)) in *. set (dy := Zpos (digits2_pos my)) in *.
  set (D := Zpos (digits2_pos (mx * my))) in *.
  assert (1 <= dx)%Z by (subst dx; lia). assert (1 <= dy)%Z by (subst dy; lia).
  assert (H2 : (2 ^ ((dx - 1) + (dy - 1)) <= Zpos mx * Zpos my)%Z).
  { rewrite pow2_split by lia. apply Z.mul_le_mono_nonneg; try assumption;
      apply Z.lt_le_incl, pow2_pos; lia. }
  rewrite Pos2Z.inj_mul in H.
  assert (H3 : (2 ^ ((dx - 1) + (dy - 1)) < 2 ^ D)%Z) by lia.
  apply Z.pow_lt_mono_r_iff in H3; subst D; lia.
Qed.

(** A product that is a binary64 number is computed exactly. *)
Lemma mul_worth (x y : float) (K g : Z) :
  real x -> real y -> (0 <= g <= 2045)%Z ->
  (units x * units y = K * 2 ^ (g + 1074))%Z -> (Z.abs K < 2 ^ 53)%Z ->
  worth (x * y) (K * 2 ^ g).
Proof.
  intros [Vx Fx] [Vy Fy] Hg Eq HK.
  pose proof (pow2_pos (g + 1074) ltac:(lia)) as HP.
  destruct x as [sx | sx | | sx mx ex]; try discriminate;
    destruct y as [sy | sy | | sy my ey]; try discriminate;
    try (assert (K = 0)%Z by (cbn [units] in Eq; nia); subst K;
         split; [ split; reflexivity | reflexivity ]).
  unfold mul, SFmul.
  pose proof (valid_finite_inv _ _ _ Vx) as (Hrx & Hdx & Hnx).
  pose proof (valid_finite_inv _ _ _ Vy) as (Hry & Hdy & Hny).
  unfold SpecFloat.emin, emax, prec in Hrx, Hry, Hdx, Hdy, Hnx, Hny.
  pose proof (mul_digits mx my) as HD.
  assert (HPx : (0 < 2 ^ (ex + 1074))%Z) by (apply pow2_pos; lia).
  assert (HPy : (0 < 2 ^ (ey + 1074))%Z) by (apply pow2_pos; lia).
  assert (EqA : (Zpos (mx * my) * 2 ^ (ex + ey + 2148)
                 = Z.abs K * 2 ^ (g + 2148 - 1074))%Z).
  { replace (g + 2148 - 1074)%Z with (g + 1074)%Z by lia.
    replace (ex + ey + 2148)%Z with ((ex + 1074) + (ey + 1074))%Z by lia.
    rewrite pow2_split, Pos2Z.inj_mul by lia.
    rewrite !units_finite in Eq.
    set (A := (Zpos mx * 2 ^ (ex + 1074))%Z) in *.
    set (B := (Zpos my * 2 ^ (ey + 1074))%Z) in *.
    assert (HA : (0 < A)%Z) by (subst A; lia).
    assert (HB : (0 < B)%Z) by (subst B; lia).
    transitivity (A * B)%Z; [ subst A B; ring | ].
    assert (HAB : (0 < A * B)%Z) by nia.
    set (P := (2 ^ (g + 1074))%Z) in *.
    destruct (Z.abs_spec K) as [[HK0 ->] | [HK0 ->]];
      destruct sx, sy; cbn [cond_Zopp] in Eq;
      rewrite ?Z.mul_opp_l, ?Z.mul_opp_r, ?Z.opp_involutive in Eq;
      try lia; exfalso; nia. }
  destruct (round_aux_grid (xorb sx sy) (mx * my) (ex + ey) (Z.abs K) g 2148)
    as (k & f & Er & Vr & Ur); try lia.
  - unfold fexp, SpecFloat.emin, emax, prec. lia.
  - rewrite Er. split; [ split; [ exact Vr | reflexivity ] | ].
    rewrite units_finite, Ur.
    assert (Hs : (cond_Zopp (xorb sx sy) (Z.abs K) = K)%Z).
    { rewrite !units_finite in Eq.
      set (A := (Zpos mx * 2 ^ (ex + 1074))%Z) in *.
      set (B := (Zpos my * 2 ^ (ey + 1074))%Z) in *.
      assert (HA : (0 < A)%Z) by (subst A; lia).
      assert (HB : (0 < B)%Z) by (subst B; lia).
      assert (HAB : (0 < A * B)%Z) by nia.
      destruct (Z.abs_spec K) as [[? ->] | [? ->]];
        destruct sx, sy; cbn [cond_Zopp xorb] in *; nia. }
    rewrite <- cond_Zopp_mul, Hs. reflexivity.
Qed.

(** *** [<=] on floats is transitive, canonical or not *)

Lemma cmp_pairs_trans (e1 e2 e3 : Z) (m1 m2 m3 : positive) :
  let c e e' (m m' : positive) :=
    match (e ?= e')%Z with Lt => Lt | Gt => Gt | Eq => Pos.compare_cont Eq m m' end in
  c e1 e2 m1 m2 <> Gt -> c e2 e3 m2 m3 <> Gt -> c e1 e3 m1 m3 <> Gt.
Proof.
  cbv beta zeta. change (Pos.compare_cont Eq) with Pos.compare.
  destruct (Z.compare_spec e1 e2), (Z.compare_spec e2 e3), (Z.compare_spec e1 e3);
    try (exfalso; lia); try congruence;
    destruct (Pos.compare_spec m1 m2), (Pos.compare_spec m2 m3), (Pos.compare_spec m1 m3);
    try (exfalso; lia); congruence.
Qed.

Lemma cmp_pairs_trans_opp (e1 e2 e3 : Z) (m1 m2 m3 : positive) :
  let c e e' (m m' : positive) :=
    match (e ?= e')%Z with Lt => Gt | Gt => Lt | Eq => CompOpp (Pos.compare_cont Eq m m') end in
  c e1 e2 m1 m2 <> Gt -> c e2 e3 m2 m3 <> Gt -> c e1 e3 m1 m3 <> Gt.
Proof.
  cbv beta zeta. change (Pos.compare_cont Eq) with Pos.compare.
  destruct (Z.compare_spec e1 e2), (Z.compare_spec e2 e3), (Z.compare_spec e1 e3);
    try (exfalso; lia); try congruence;
    destruct (Pos.compare_spec m1 m2), (Pos.compare_spec m2 m3), (Pos.compare_spec m1 m3);
    cbn [CompOpp]; try (exfalso; lia); congruence.
Qed.

Lemma leb_not_gt (x y : float) :
  (x <=? y) = true <-> exists c, SFcompare x y = Some c /\ c <> Gt.
Proof.
  unfold leb, SFleb. destruct (SFcompare x y) as [ [ | | ] | ]; split;
    try discriminate; try (intros _; eexists; split; [ reflexivity | discriminate ]);
    try reflexivity; intros (c & E & H); congruence.
Qed.

Lemma leb_trans (x y z : float) :
  (x <=? y) = true -> (y <=? z) = true -> (x <=? z) = true.
Proof.
  rewrite !leb_not_gt. intros (c1 & E1 & H1) (c2 & E2 & H2).
  destruct x as [sx | sx | | sx mx ex], y as [sy | sy | | sy my ey],
    z as [sz | sz | | sz mz ez];
    cbn [SFcompare] in *; try discriminate;
    try (eexists; split; [ reflexivity | ]);
    injection E1 as <-; injection E2 as <-;
    try (destruct sx); try (destruct sy); try (destruct sz);
    try congruence; try discriminate.
  - now apply (cmp_pairs_trans_opp ex ey ez mx my mz).
  - now apply (cmp_pairs_trans ex ey ez mx my mz).
Qed.

(** *** A number below one is not rounded above one *)

Lemma round_aux_below_one (mx : positive) (ex : Z) (l : location) :
  (Zpos (digits2_pos mx) + ex <= 0)%Z ->
  (ex <= fexp prec emax (Zpos (digits2_pos mx) + ex))%Z ->
  (binary_round_aux prec emax false (Zpos mx) ex l <=? one) = true.
Proof.
  intros Hlt He. unfold binary_round_aux.
  destruct (shr_fexp_spec (Zpos mx) ex l ltac:(lia)) as [H1 H1e].
  destruct (shr_fexp prec emax (Zpos mx) ex l) as [mrs' e']. cbn [fst snd] in H1, H1e.
  cbn [Zdigits2] in H1, H1e.
  set (D := Zpos (digits2_pos mx)) in *.
  set (f := fexp prec emax (D + ex)) in *.
  assert (Hf : (D + ex - 53 <= f /\ -1074 <= f <= -53)%Z)
    by (subst f; unfold fexp, SpecFloat.emin, emax, prec; lia).
  rewrite Z.max_r in H1, H1e by lia.
  replace (ex + (f - ex))%Z with f in H1e by lia. subst e'.
  pose proof (digits2_pos_bounds mx) as [_ Dhi]. fold D in Dhi.
  assert (HD : (1 <= D)%Z) by (subst D; lia).
  set (w := Z.max 0 (D - (f - ex))).
  assert (Hw : (0 <= w <= 53)%Z) by (subst w; lia).
  assert (Hm1 : (0 <= shr_m mrs' < 2 ^ w)%Z).
  { rewrite H1. split; [ apply Z.div_pos; [ lia | apply pow2_pos; lia ] | ].
    apply Z.div_lt_upper_bound; [ apply pow2_pos; lia | ].
    rewrite <- pow2_split by lia.
    eapply Z.lt_le_trans; [ exact Dhi | apply Z.pow_le_mono_r; lia ]. }
  set (m2 := round_nearest_even (shr_m mrs') (loc_of_shr_record mrs')).
  assert (Hm2 : (0 <= m2 <= 2 ^ w)%Z).
  { pose proof (round_nearest_even_bounds (shr_m mrs') (loc_of_shr_record mrs')).
    subst m2. lia. }
  destruct (shr_fexp_spec m2 f loc_Exact ltac:(lia)) as [H3 H3e].
  destruct (shr_fexp prec emax m2 f loc_Exact) as [mrs'' e'']. cbn [fst snd] in H3, H3e.
  assert (Hw53 : (2 ^ w <= 2 ^ 53)%Z) by (apply Z.pow_le_mono_r; lia).
  change (2 ^ 53)%Z with 9007199254740992%Z in Hw53.
  destruct m2 as [ | p2 | p2 ]; [ | | lia ].
  - (* rounded to zero *)
    rewrite H3. rewrite Z.div_0_l by (apply Z.pow_nonzero; lia). reflexivity.
  - cbn [Zdigits2] in H3, H3e.
    pose proof (digits2_pos_bounds p2) as [Lo2 Hi2].
    set (d2 := Zpos (digits2_pos p2)) in *.
    assert (Hd2 : (1 <= d2 <= 54)%Z).
    { split; [ subst d2; lia | ].
      assert (H : (2 ^ (d2 - 1) < 2 ^ 54)%Z).
      { change (2 ^ 54)%Z with 18014398509481984%Z. lia. }
      apply Z.pow_lt_mono_r_iff in H; lia. }
    destruct (Z.eq_dec d2 54) as [E54 | N54].
    + (* the mantissa reached [2^53]: one more shift *)
      assert (Ep : Zpos p2 = 9007199254740992%Z).
      { rewrite E54 in Lo2. change (2 ^ (54 - 1))%Z with 9007199254740992%Z in Lo2. lia. }
      assert (En : Z.max 0 (fexp prec emax (d2 + f) - f) = 1%Z).
      { rewrite E54. unfold fexp, SpecFloat.emin, emax, prec. lia. }
      rewrite En in H3, H3e. rewrite Ep in H3.
      change (9007199254740992 / 2 ^ 1)%Z with 4503599627370496%Z in H3.
      rewrite H3.
      replace (e'' <=? emax - prec)%Z with true
        by (symmetry; apply Z.leb_le; unfold emax, prec; lia).
      unfold leb, SFleb, one. cbn [SFcompare].
      subst e''. destruct (Z.compare_spec (f + 1) (-52)); try reflexivity; lia.
    + assert (En : Z.max 0 (fexp prec emax (d2 + f) - f) = 0%Z).
      { unfold fexp, SpecFloat.emin, emax, prec. lia. }
      rewrite En in H3, H3e. rewrite Z.pow_0_r, Z.div_1_r in H3. rewrite H3.
      replace (e'' <=? emax - prec)%Z with true
        by (symmetry; apply Z.leb_le; unfold emax, prec; lia).
      unfold leb, SFleb, one. cbn [SFcompare].
      subst e''. rewrite Z.add_0_r.
      destruct (Z.compare_spec f (-52)); try reflexivity; lia.
Qed.

Lemma negative_le_one (x : float) : has_sign true x -> (x <=? one) = true.
Proof.
  unfold leb, SFleb, one.
  destruct x as [ [ | ] | [ | ] | | [ | ] m e ]; cbn [has_sign SFcompare];
    intros H; try reflexivity; try discriminate; destruct H.
Qed.

(** [1.0 - w <= 1.0] for every [w >= 0], rounding included. *)
Lemma one_minus_le_one (w : float) :
  (zero <=? w) = true -> (one - w <=? one) = true.
Proof.
  destruct w as [ sw | [ | ] | | [ | ] mw ew ]; try discriminate; intros _;
    try reflexivity.
  unfold sub, SFsub, one.
  set (ez := Z.min (-52) ew).
  destruct (shl_align_spec 4503599627370496 (-52) ez) as (H1 & _ & _).
  destruct (shl_align_spec mw ew ez) as (Hw & _ & _).
  replace (Z.min (-52) ez) with ez in H1 by (subst ez; lia).
  replace (Z.min ew ez) with ez in Hw by (subst ez; lia).
  cbn [cond_Zopp].
  set (a := Zpos (fst (shl_align 4503599627370496 (-52) ez))) in *.
  set (b := Zpos (fst (shl_align mw ew ez))) in *.
  assert (Ha : a = (2 ^ (- ez))%Z).
  { rewrite H1. change 4503599627370496%Z with (2 ^ 52)%Z.
    rewrite <- pow2_split by (subst ez; lia). f_equal. lia. }
  assert (Hb : (0 < b)%Z) by (subst b; lia).
  destruct (a - b)%Z as [ | z | z ] eqn:Ez; cbn [binary_normalize].
  - reflexivity.
  - unfold binary_round.
    set (f0 := fexp prec emax (Zpos (digits2_pos z) + ez)).
    destruct (shl_align_spec z ez f0) as (_ & Hez & Hdz).
    destruct (shl_align z ez f0) as [mz ez']. cbn [fst snd] in Hez, Hdz.
    assert (Hdig : (Zpos (digits2_pos z) + ez <= 0)%Z).
    { pose proof (digits2_pos_bounds z) as [Lo _].
      assert (H : (2 ^ (Zpos (digits2_pos z) - 1) < 2 ^ (- ez))%Z) by lia.
      apply Z.pow_lt_mono_r_iff in H; subst ez; lia. }
    apply round_aux_below_one; rewrite Hdz; [ exact Hdig | fold f0; lia ].
  - apply negative_le_one, binary_round_sign.
Qed.

End RoundingFacts.

(* ================================================================= *)
(** ** Edge cases of the helpers *)

Module HelpersEdgeFacts.

Import F64 Python Helpers F64Facts HelpersFacts RoundingFacts.
Local Open Scope Z_scope.
Local Open Scope f64_scope.

(** *** [wiggle_interval] and [in_interval] *)

(** X12. For every wiggle room [>= 0] (and every value, NaN and infinities
    included) the flag returned by [wiggle_interval] says whether the value
    returned is in the unit interval: [in_interval(v, 0.0, 1.0)] holds of an
    accepted value, and a rejected one is NaN. *)
Theorem wiggle_interval_in_unit_interval (value wiggle : float) :
  (zero <=? wiggle) = true ->
  in_interval (fst (wiggle_interval value wiggle)) zero one
  = snd (wiggle_interval value wiggle).
Proof.
  intros Hw. unfold wiggle_interval.
  destruct ((- wiggle <? value) && (value <? wiggle)); [ reflexivity | ].
  destruct ((wiggle <=? value) && (value <=? one - wiggle)) eqn:Hin.
  - apply andb_true_iff in Hin as [H1 H2]. cbn [fst snd]. unfold in_interval.
    rewrite (leb_trans _ _ _ Hw H1).
    rewrite (leb_trans _ _ _ H2 (one_minus_le_one wiggle Hw)). reflexivity.
  - destruct ((one - wiggle <? value) && (value <? one + wiggle)); reflexivity.
Qed.

Lemma wiggle_interval_in_unit_interval_witness :
  in_interval (fst (wiggle_interval (dyadic 3 (-2)) WIGGLE)) zero one
  = snd (wiggle_interval (dyadic 3 (-2)) WIGGLE).
Proof.
  apply (wiggle_interval_in_unit_interval (dyadic 3 (-2)) WIGGLE). reflexivity.
Defined.

(** *** More bits never hurt *)

Lemma of_int_worth (n : Z) : (Z.abs n < 2 ^ 53)%Z -> worth (of_int n) (n * 2 ^ 1074).
Proof.
  intros Hn. unfold of_int, dyadic.
  apply (normalize_grid n 0 n 1074); [ lia | lia | reflexivity | exact Hn ].
Qed.

Lemma abs_worth (x : float) (u : Z) : worth x u -> worth (abs x) (Z.abs u).
Proof.
  intros [[V F] <-]. destruct x as [ s | s | | s m e ]; try discriminate.
  - split; [ split; reflexivity | reflexivity ].
  - split; [ split; [ exact V | reflexivity ] | ].
    pose proof (units_pos _ _ _ V). cbn [abs SFabs units].
    destruct s; cbn [cond_Zopp]; lia.
Qed.

Lemma ulp_worth (s : bool) (e : Z) :
  (-1074 <= e <= 971)%Z ->
  worth (binary_round prec emax s 1 e) (cond_Zopp s (2 ^ (e + 1074))).
Proof.
  intros He. destruct s; cbn [cond_Zopp].
  - replace (- 2 ^ (e + 1074))%Z with (-1 * 2 ^ (e + 1074))%Z by lia.
    apply (normalize_grid (-1) e (-1) (e + 1074)); try lia; reflexivity.
  - replace (2 ^ (e + 1074))%Z with (1 * 2 ^ (e + 1074))%Z by lia.
    apply (normalize_grid 1 e 1 (e + 1074)); try lia; reflexivity.
Qed.

(** [num_bits * abs(np.spacing(x))] is computed exactly. *)
Lemma bits_times_spacing (s : bool) (m : positive) (e n : Z) :
  valid (S754_finite s m e) = true -> (0 <= n < 2 ^ 53)%Z ->
  worth (of_int n * abs (spacing (S754_finite s m e))) (n * 2 ^ (e + 1074))
  \/ (m = 9007199254740991%positive /\ e = 971%Z).
Proof.
  intros V Hn. pose proof (valid_finite_inv _ _ _ V) as (Hr & _).
  unfold SpecFloat.emin, emax, prec in Hr.
  destruct (spacing_finite s m e V) as [ -> | H ]; [ left | now right ].
  pose proof (abs_worth _ _ (ulp_worth s e Hr)) as [Ra Ua].
  pose proof (of_int_worth n ltac:(lia)) as [Rn Un].
  pose proof (pow2_pos (e + 1074) ltac:(lia)) as HP.
  assert (Ua' : units (abs (binary_round prec emax s 1 e)) = (2 ^ (e + 1074))%Z).
  { rewrite Ua. destruct s; cbn [cond_Zopp]; lia. }
  apply mul_worth; try assumption; try lia.
  rewrite Un, Ua'. rewrite (pow2_split (e + 1074) 1074) by lia. ring.
Qed.

(** X13. A comparison that passes with [num_bits = n] passes with every
    larger [n' < 2^53], for a finite [value1] and any [value2]: the bound
    [num_bits * abs(np.spacing(value1))] is computed exactly.  So
    [Config.assert_close] accepts under a wider [wiggle] what it accepts
    under a narrower one. *)
Theorem ulps_away_more_bits (x y : float) (n n' : Z) :
  real x -> (0 <= n <= n')%Z -> (n' < 2 ^ 53)%Z ->
  ulps_away x y n = inr true -> ulps_away x y n' = inr true.
Proof.
  intros [V F] Hn Hn'. unfold ulps_away.
  destruct (x == zero) eqn:Zx; [ trivial | ].
  destruct (y == zero); [ trivial | ].
  destruct x as [ s | s | | s m e ]; try discriminate.
  cbv zeta.
  assert (Hbig : (2 ^ 53 < 2 ^ 1023)%Z) by (apply Z.pow_lt_mono_r; lia).
  rewrite (float_of_int_fits n), (float_of_int_fits n') by (rewrite Z.abs_eq; lia).
  rewrite !returned_true.
  destruct (bits_times_spacing s m e n V ltac:(lia)) as [ [Rn Un] | [-> ->] ].
  - destruct (bits_times_spacing s m e n' V ltac:(lia)) as [ [Rn' Un'] | [-> ->] ].
    + intros H. apply (leb_trans _ _ _ H).
      rewrite (leb_real _ _ Rn Rn'), Un, Un'. apply Z.leb_le.
      apply Z.mul_le_mono_nonneg_r; [ apply Z.lt_le_incl, pow2_pos | ];
        pose proof (valid_finite_inv _ _ _ V) as (Hr & _);
        unfold SpecFloat.emin, emax, prec in Hr; lia.
    + exfalso. destruct Rn as [_ Fn]. revert Fn.
      replace (spacing (S754_finite s 9007199254740991 971)) with (S754_infinity s)
        by (destruct s; vm_compute; reflexivity).
      destruct (of_int n) as [ ? | ? | | ? ? ? ]; cbn; discriminate.
  - replace (spacing (S754_finite s 9007199254740991 971)) with (S754_infinity s)
      by (destruct s; vm_compute; reflexivity).
    change (abs (S754_infinity s)) with (S754_infinity false).
    destruct (Z.eq_dec n 0) as [ -> | N0 ].
    + change (of_int 0 * S754_infinity false) with nan.
      unfold leb, SFleb.
      destruct (abs (S754_finite s 9007199254740991 971 - y)); cbn; discriminate.
    + assert (Hpos : forall k, (1 <= k < 2 ^ 53)%Z ->
                of_int k * S754_infinity false = S754_infinity false).
      { intros k Hk. destruct (of_int_worth k ltac:(lia)) as [[Vk Fk] Uk].
        pose proof (pow2_pos 1074 ltac:(lia)).
        destruct (of_int k) as [ ? | ? | | [ | ] mk ek ]; try discriminate;
          cbn [units cond_Zopp] in Uk; try reflexivity; lia. }
      rewrite !Hpos by lia. trivial.
Qed.

Lemma ulps_away_more_bits_witness :
  ulps_away (of_int 2) (of_int 2 - dyadic 1 (-51)) 42 = inr true.
Proof.
  apply (ulps_away_more_bits (of_int 2) (of_int 2 - dyadic 1 (-51)) 1 42).
  - split; reflexivity.
  - lia.
  - reflexivity.
  - vm_compute. reflexivity.
Defined.

(** *** [cross_product] *)

Lemma mul_comm (x y : float) : x * y = y * x.
Proof.
  destruct x as [sx | sx | | sx mx ex], y as [sy | sy | | sy my ey];
    cbn [mul SFmul]; unfold mul, SFmul; rewrite ?(xorb_comm sx sy); try reflexivity.
  now rewrite (Pos.mul_comm mx my), (Z.add_comm ex ey).
Qed.

Lemma sub_swap (a b : float) :
  b - a = - (a - b) \/ (a - b = zero /\ b - a = zero).
Proof.
  destruct a as [sa | sa | | sa ma ea], b as [sb | sb | | sb mb eb];
    try (left; reflexivity);
    try (destruct sa, sb; ((left; reflexivity) || (right; split; reflexivity)));
    try (destruct sa; left; reflexivity); try (destruct sb; left; reflexivity).
  unfold sub, SFsub. rewrite (Z.min_comm eb ea).
  set (A := cond_Zopp sa _). set (B := cond_Zopp sb _).
  replace (B - A)%Z with (- (A - B))%Z by lia.
  destruct (A - B)%Z as [ | p | p ]; cbn [Z.opp binary_normalize].
  - right. split; reflexivity.
  - left. apply binary_round_opp.
  - left. rewrite binary_round_opp. unfold opp.
    now destruct (binary_round prec emax false p (Z.min ea eb)) as [ [ | ] | [ | ] | | [ | ] ? ? ].
Qed.

(** X17. [cross_product] is antisymmetric for all floats, rounding
    included: swapping the vectors negates the result, except that a
    difference that cancels is [+0.0] both ways. *)
Theorem cross_product_antisymmetric (vec0 vec1 : point) :
  cross_product vec1 vec0 = - cross_product vec0 vec1
  \/ (cross_product vec0 vec1 = zero /\ cross_product vec1 vec0 = zero).
Proof.
  unfold cross_product.
  rewrite (mul_comm (fst vec1) (snd vec0)), (mul_comm (snd vec1) (fst vec0)).
  apply sub_swap.
Qed.

(** *** [vector_close]: reflexive, and never true of a NaN *)

Lemma vsub_self (v : vector) :
  Forall (fun x => is_finite x = true) v ->
  vsub v v = map (fun _ => zero) v.
Proof.
  induction 1 as [ | x v Hx Hv IH ]; [ reflexivity | ].
  unfold vsub in *. cbn [combine map fst snd]. rewrite IH. f_equal.
  destruct x as [ [ | ] | | | s m e ]; try discriminate; try reflexivity.
  apply sub_self_finite.
Qed.

Lemma norm_zeros {A : Type} (v : list A) : norm (map (fun _ => zero) v) = zero.
Proof.
  unfold norm, dot.
  assert (H : fold_left (fun acc xy => acc + fst xy * snd xy)
                (combine (map (fun _ : A => zero) v) (map (fun _ : A => zero) v)) zero = zero).
  { induction v as [ | a v IH ]; [ reflexivity | ]. cbn [map combine fold_left fst snd].
    change (zero + zero * zero) with zero. exact IH. }
  rewrite H. reflexivity.
Qed.

Lemma positive_product (a b : float) :
  has_sign false a -> (a == zero) = false ->
  has_sign false b -> (b == zero) = false ->
  has_sign false (a * b).
Proof.
  destruct a as [sa | sa | | sa ma ea], b as [sb | sb | | sb mb eb];
    cbn [has_sign]; try tauto; try discriminate; intros -> _ -> _; try reflexivity.
  unfold mul, SFmul. apply binary_round_aux_sign. lia.
Qed.

(** X15. A vector of finite entries is close to itself for every
    threshold [eps > 0], even when its norm overflows. *)
Theorem vector_close_refl (vec : vector) (eps : float) :
  Forall (fun x => is_finite x = true) vec ->
  (zero <? eps) = true ->
  vector_close vec vec eps = true.
Proof.
  intros Hv He.
  assert (Hs : has_sign false eps /\ (eps == zero) = false).
  { destruct eps as [ [ | ] | [ | ] | | [ | ] m e ]; try discriminate; split; reflexivity. }
  destruct Hs as [Hs Hz].
  unfold vector_close. cbv zeta.
  pose proof (norm_sign vec Hv) as Hn.
  destruct (norm vec == zero) eqn:Z1.
  - apply eqb_zero_inv in Z1 as [s ->].
    rewrite (leb_zero_l s false). now apply leb_zero_sign.
  - rewrite vsub_self, norm_zeros by assumption.
    apply leb_zero_sign. apply positive_product; try assumption.
    + unfold py_min. now destruct (norm vec <? norm vec).
    + unfold py_min. now destruct (norm vec <? norm vec).
Qed.

Lemma vector_close_refl_witness :
  vector_close [of_int 3; of_int 4] [of_int 3; of_int 4] EPS = true.
Proof.
  apply (vector_close_refl [of_int 3; of_int 4] EPS).
  - repeat constructor.
  - reflexivity.
Defined.

Lemma add_nan_r (x : float) : x + nan = nan.
Proof. now destruct x. Qed.

Lemma fold_dot_nan (l : list (float * float)) :
  fold_left (fun acc xy => acc + fst xy * snd xy) l nan = nan.
Proof. induction l as [ | a l IH ]; [ reflexivity | exact IH ]. Qed.

Lemma dot_nan (v w : vector) :
  length v = length w -> In nan v -> dot v w = nan.
Proof.
  unfold dot. generalize zero as acc. revert w.
  induction v as [ | x v IH ]; intros [ | y w ] acc Hl Hin; try discriminate;
    [ destruct Hin | ].
  cbn [combine fold_left fst snd]. destruct Hin as [ -> | Hin ].
  - change (nan * y) with nan. rewrite add_nan_r. apply fold_dot_nan.
  - apply IH; [ cbn [length] in Hl; congruence | exact Hin ].
Qed.

Lemma vsub_nan (v w : vector) :
  length v = length w -> In nan v -> In nan (vsub v w).
Proof.
  revert w. induction v as [ | x v IH ]; intros [ | y w ] Hl Hin; try discriminate;
    [ destruct Hin | ].
  unfold vsub. cbn [combine map fst snd]. destruct Hin as [ -> | Hin ].
  - left. reflexivity.
  - right. apply IH; [ cbn [length] in Hl; congruence | exact Hin ].
Qed.

Lemma vsub_length (v w : vector) : length v = length w -> length (vsub v w) = length v.
Proof.
  intros H. unfold vsub. rewrite length_map, length_combine. lia.
Qed.

Lemma norm_nan (v : vector) : In nan v -> norm v = nan.
Proof. intros H. unfold norm. now rewrite dot_nan. Qed.

(** X16. Two vectors of the same dimension are never close when one of
    them has a NaN entry, whatever the threshold. *)
Theorem vector_close_nan (vec1 vec2 : vector) (eps : float) :
  length vec1 = length vec2 -> In nan vec1 \/ In nan vec2 ->
  vector_close vec1 vec2 eps = false.
Proof.
  intros Hl Hin. unfold vector_close. cbv zeta.
  assert (Hd : norm (vsub vec1 vec2) = nan).
  { apply norm_nan. destruct Hin as [ H | H ].
    - now apply vsub_nan.
    - clear - Hl H. revert vec2 Hl H.
      induction vec1 as [ | x v IH ]; intros [ | y w ] Hl Hin; try discriminate;
        [ destruct Hin | ].
      unfold vsub. cbn [combine map fst snd]. destruct Hin as [ -> | Hin ].
      + left. now destruct x.
      + right. apply IH; [ cbn [length] in Hl; congruence | exact Hin ]. }
  rewrite Hd.
  destruct Hin as [ H | H ]; rewrite (norm_nan _ H).
  - change (nan == zero) with false. cbv iota.
    destruct (norm vec2 == zero); reflexivity.
  - change (nan == zero) with false.
    destruct (norm vec1 == zero); [ | reflexivity ].
    unfold leb, SFleb. now destruct (norm vec1).
Qed.

Lemma vector_close_nan_witness :
  vector_close [one; nan] [one; one] EPS = false.
Proof.
  apply (vector_close_nan [one; nan] [one; one] EPS).
  - reflexivity.
  - left. right. left. reflexivity.
Defined.

(** *** [ulps_away] never holds of a NaN *)

Lemma ulps_away_nan_cases (x : float) (num_bits : Z) :
  (ulps_away nan x num_bits = inr false
   \/ ulps_away nan x num_bits = inl OverflowError
      /\ float_of_int num_bits = inl OverflowError)
  /\ (ulps_away x nan num_bits = inr false
      \/ ulps_away x nan num_bits = inl OverflowError
         /\ float_of_int num_bits = inl OverflowError).
Proof.
  assert (Hconv : (exists bits, float_of_int num_bits = inr bits)
                  \/ float_of_int num_bits = inl OverflowError).
  { unfold float_of_int. cbv zeta. destruct (is_inf (of_int num_bits)); eauto. }
  unfold ulps_away. split.
  - change (nan == zero) with false. cbv iota zeta.
    destruct (x == zero); [ now left | ].
    destruct Hconv as [ [bits ->] | -> ]; [ left | now right ].
    replace (nan - x) with nan by (now destruct x). reflexivity.
  - destruct (x == zero); [ now left | ].
    change (nan == zero) with false. cbv iota zeta.
    destruct Hconv as [ [bits ->] | -> ]; [ left | now right ].
    replace (x - nan) with nan by (now destruct x). reflexivity.
Qed.

(** X14. [ulps_away] never returns [True] when one of the two values is
    a NaN, whatever [num_bits] is; and it returns [False], the zero
    branches included, when [num_bits] is below [2^1023] in magnitude (a
    larger one can make the product raise [OverflowError] instead). *)
Theorem ulps_away_nan (x : float) (num_bits : Z) :
  (ulps_away nan x num_bits <> inr true /\ ulps_away x nan num_bits <> inr true)
  /\ ((Z.abs num_bits < 2 ^ 1023)%Z ->
      ulps_away nan x num_bits = inr false /\ ulps_away x nan num_bits = inr false).
Proof.
  destruct (ulps_away_nan_cases x num_bits) as [H1 H2]. split.
  - split; [ destruct H1 as [ -> | [-> _] ] | destruct H2 as [ -> | [-> _] ] ];
      discriminate.
  - intros Hn. pose proof (float_of_int_fits num_bits Hn) as E.
    split; [ destruct H1 as [ H | [_ H] ] | destruct H2 as [ H | [_ H] ] ];
      (exact H || congruence).
Qed.

Lemma ulps_away_nan_witness :
  ulps_away nan one 8 = inr false /\ ulps_away one nan 8 = inr false.
Proof.
  apply (proj2 (ulps_away_nan one 8)). reflexivity.
Defined.

(** *** The box of the nodes *)

Lemma min_max_columns (d : nat) (row : vector) (rows : list vector) :
  Forall (fun r => length r = d /\ Forall real r) (row :: rows) ->
  let mins := fold_left (map2 np_minimum) rows row in
  let maxs := fold_left (map2 np_maximum) rows row in
  length mins = d /\ length maxs = d
  /\ Forall real mins /\ Forall real maxs
  /\ forall j, (j < d)%nat ->
       is_min_of (column j (row :: rows)) (nth j mins zero)
       /\ is_max_of (column j (row :: rows)) (nth j maxs zero).
Proof.
  intros Hnodes mins maxs.
  apply Forall_cons_iff in Hnodes as [[Hlrow Hrrow] Hrows].
  assert (Hlens : Forall (fun r => length r = d) rows)
    by (eapply Forall_impl; [ | exact Hrows ]; cbn; tauto).
  destruct (fold_map2_column np_minimum d rows row Hlrow Hlens) as [Lmin Nmin].
  destruct (fold_map2_column np_maximum d rows row Hlrow Hlens) as [Lmax Nmax].
  fold mins in Lmin, Nmin. fold maxs in Lmax, Nmax.
  split; [ exact Lmin | ]. split; [ exact Lmax | ].
  split; [ apply (fold_map2_real np_minimum d); auto using np_minimum_keeps_real | ].
  split; [ apply (fold_map2_real np_maximum d); auto using np_maximum_keeps_real | ].
  intros j Hj. rewrite (Nmin j Hj), (Nmax j Hj). cbn [column map].
  fold (column j rows).
  assert (Rc : Forall real (column j rows)) by (now apply (column_real j d)).
  assert (Ra : real (nth j row zero)) by (apply nth_real; [ assumption | lia ]).
  split; [ apply fold_minimum_spec | apply fold_maximum_spec ]; assumption.
Qed.

Lemma contains_nd_of_node (d : nat) (nodes : list vector) (node : vector) :
  Forall (fun row => length row = d /\ Forall real row) nodes ->
  In node nodes ->
  contains_nd nodes node = Some true.
Proof.
  intros Hnodes Hin.
  destruct nodes as [ | row rows ]; [ destruct Hin | ].
  destruct (min_max_columns d row rows Hnodes) as (Lmin & Lmax & Rmin & Rmax & Hcol).
  rewrite Forall_forall in Hnodes. destruct (Hnodes node Hin) as [Ln Rn].
  rewrite (contains_nd_bool (row :: rows) node _ _ eq_refl eq_refl).
  f_equal. apply andb_true_iff.
  rewrite !all_le_spec by (assumption || congruence).
  rewrite Lmin, Ln. split; intros j Hj; destruct (Hcol j Hj) as [[_ Hmn] [_ Hmx]].
  - apply Hmn. unfold column. apply in_map_iff. now exists node.
  - apply Hmx. unfold column. apply in_map_iff. now exists node.
Qed.

(** X9. Every node is inside the box of the nodes: [contains_nd(nodes, p)]
    is [True] for every row [p] of a finite array [nodes], in any
    dimension. *)
Theorem contains_nd_own_nodes (d : nat) (nodes : list vector) (node : vector) :
  Forall (fun row => length row = d /\ Forall real row) nodes ->
  In node nodes ->
  contains_nd nodes node = Some true.
Proof. apply contains_nd_of_node. Qed.

Lemma contains_nd_own_nodes_witness :
  contains_nd unit_square [one; zero] = Some true.
Proof.
  apply (contains_nd_own_nodes 2 unit_square [one; zero]).
  - repeat constructor.
  - right. left. reflexivity.
Defined.

(** X10. For a non-empty [N x 2] array of finite nodes, [bbox] returns the
    least and the greatest first coordinate, then the least and the
    greatest second coordinate, each of them attained by a node. *)
Theorem bbox_spec (nodes : list vector) :
  nodes <> [] ->
  Forall (fun row => length row = 2%nat /\ Forall real row) nodes ->
  exists left_ right_ bottom top,
    bbox nodes = Some (left_, right_, bottom, top)
    /\ is_min_of (column 0 nodes) left_ /\ is_max_of (column 0 nodes) right_
    /\ is_min_of (column 1 nodes) bottom /\ is_max_of (column 1 nodes) top.
Proof.
  intros Hne Hnodes.
  destruct nodes as [ | row rows ]; [ congruence | ].
  destruct (min_max_columns 2 row rows Hnodes) as (Lmin & Lmax & _ & _ & Hcol).
  unfold bbox. cbn [np_min_axis0 np_max_axis0].
  destruct (fold_left (map2 np_minimum) rows row) as [ | l [ | b [ | ? ? ] ] ];
    try discriminate.
  destruct (fold_left (map2 np_maximum) rows row) as [ | r [ | t [ | ? ? ] ] ];
    try discriminate.
  exists l, r, b, t. split; [ reflexivity | ].
  destruct (Hcol 0%nat ltac:(lia)) as [H0 H0'].
  destruct (Hcol 1%nat ltac:(lia)) as [H1 H1'].
  cbn [nth] in *. tauto.
Qed.

Lemma bbox_spec_witness :
  exists left_ right_ bottom top,
    bbox unit_square = Some (left_, right_, bottom, top)
    /\ is_min_of (column 0 unit_square) left_ /\ is_max_of (column 0 unit_square) right_
    /\ is_min_of (column 1 unit_square) bottom /\ is_max_of (column 1 unit_square) top.
Proof.
  apply (bbox_spec unit_square).
  - discriminate.
  - repeat constructor.
Defined.

(** X11. [bbox] unpacks two columns: on nodes of any other dimension, and
    on an array without rows, it raises. *)
Theorem bbox_wrong_dimension (d : nat) (nodes : list vector) :
  Forall (fun row => length row = d) nodes -> d <> 2%nat ->
  bbox nodes = None.
Proof.
  intros Hnodes Hd. unfold bbox.
  destruct nodes as [ | row rows ]; [ reflexivity | ].
  apply Forall_cons_iff in Hnodes as [Hrow Hrows].
  destruct (fold_map2_column np_minimum d rows row Hrow Hrows) as [Lmin _].
  cbn [np_min_axis0 np_max_axis0].
  destruct (fold_left (map2 np_minimum) rows row) as [ | l [ | b [ | ? ? ] ] ];
    try reflexivity.
  cbn [length] in Lmin. congruence.
Qed.

Lemma bbox_wrong_dimension_witness :
  bbox [ [zero; one; zero]; [one; one; one] ] = None.
Proof.
  apply (bbox_wrong_dimension 3 [ [zero; one; zero]; [one; one; one] ]).
  - repeat constructor.
  - discriminate.
Defined.

(** *** [in_interval] *)

Lemma leb_refl (x : float) : is_nan x = false -> (x <=? x) = true.
Proof.
  unfold leb, SFleb.
  destruct x as [ s | s | | s m e ]; try discriminate; intros _; cbn [SFcompare];
    try (destruct s; reflexivity).
  destruct s; rewrite Z.compare_refl;
    change (Pos.compare_cont Eq m m) with (m ?= m)%positive;
    now rewrite Pos.compare_refl.
Qed.

Lemma leb_ltb_false (x y : float) : (x <=? y) = true -> (y <? x) = false.
Proof.
  unfold leb, SFleb, ltb, SFltb. rewrite (compare_antisym x y).
  destruct (SFcompare x y) as [ [ | | ] | ]; cbn; congruence.
Qed.

(** X22. [in_interval] includes its endpoints when [start <= end], and is
    empty when [end < start]: no value, finite or not, is in it. *)
Theorem in_interval_bounds (start end_ : float) :
  ((start <=? end_) = true ->
     in_interval start start end_ = true /\ in_interval end_ start end_ = true)
  /\ ((end_ <? start) = true ->
        forall value, in_interval value start end_ = false).
Proof.
  unfold in_interval. split.
  - intros H.
    assert (Hs : is_nan start = false)
      by (unfold leb, SFleb in H; now destruct start, end_).
    assert (He : is_nan end_ = false)
      by (unfold leb, SFleb in H; destruct start, end_; try reflexivity; discriminate).
    now rewrite H, (leb_refl _ Hs), (leb_refl _ He).
  - intros H value.
    destruct (start <=? value) eqn:H1; [ | reflexivity ].
    destruct (value <=? end_) eqn:H2; [ | reflexivity ].
    pose proof (leb_ltb_false _ _ (leb_trans _ _ _ H1 H2)). congruence.
Qed.

(** *** [contains_nd] and a NaN *)

Lemma all_le_nan_r (a b : vector) :
  length a = length b -> In nan b -> all_le a b = false.
Proof.
  revert b. induction a as [ | x a IH ]; intros [ | y b ] Hl Hin; try discriminate;
    [ destruct Hin | ].
  unfold all_le. cbn [combine forallb fst snd]. destruct Hin as [ -> | Hin ].
  - replace (x <=? nan) with false by (unfold leb, SFleb; now destruct x). reflexivity.
  - unfold all_le in IH. rewrite (IH b) by (cbn [length] in Hl; congruence || assumption).
    apply andb_false_r.
Qed.

(** X23. A point with a NaN coordinate is in no box: [contains_nd] is
    [False] for it, whatever the nodes. *)
Theorem contains_nd_nan (d : nat) (nodes : list vector) (point : vector) :
  nodes <> [] -> Forall (fun row => length row = d) nodes ->
  length point = d -> In nan point ->
  contains_nd nodes point = Some false.
Proof.
  intros Hne Hall Hl Hin. destruct nodes as [ | row rows ]; [ congruence | ].
  apply Forall_cons_iff in Hall as [Hrow Hrows].
  destruct (fold_map2_column np_minimum d rows row Hrow Hrows) as [Lmin _].
  unfold contains_nd. cbn [np_min_axis0].
  rewrite all_le_nan_r by (assumption || congruence). reflexivity.
Qed.

Lemma contains_nd_nan_witness :
  contains_nd unit_square [dyadic 1 (-1); nan] = Some false.
Proof.
  apply (contains_nd_nan 2 unit_square [dyadic 1 (-1); nan]).
  - discriminate.
  - repeat constructor.
  - reflexivity.
  - right. left. reflexivity.
Defined.

End HelpersEdgeFacts.

(* ================================================================= *)
(** ** The hull of points on a grid *)

Module GridFacts.

Import F64 Helpers F64Facts RoundingFacts Exact HullSpec HullFacts.
Local Open Scope Z_scope.
Local Open Scope f64_scope.

Lemma sub_grid (g b1 b2 : Z) (x y : float) :
  (0 <= g <= 2045)%Z -> (b1 + b2 < 2 ^ 53)%Z ->
  on_grid g b1 x -> on_grid g b2 y ->
  on_grid g (b1 + b2) (x - y) /\ units (x - y) = (units x - units y)%Z.
Proof.
  intros Hg Hb (Rx & kx & Ex & Bx) (Ry & ky & Ey & By).
  destruct (sub_worth x y (kx - ky) g Rx Ry Hg) as [R U]; [ rewrite Ex, Ey; ring | lia | ].
  split; [ split; [ exact R | exists (kx - ky)%Z; split; [ exact U | lia ] ] | ].
  rewrite U, Ex, Ey. ring.
Qed.

Lemma mul_grid (g b1 b2 : Z) (x y : float) :
  (537 <= g <= 1559)%Z -> (0 <= b1)%Z -> (0 <= b2)%Z -> (b1 * b2 < 2 ^ 53)%Z ->
  on_grid g b1 x -> on_grid g b2 y ->
  on_grid (2 * g - 1074) (b1 * b2) (x * y)
  /\ (units (x * y) * 2 ^ 1074 = units x * units y)%Z.
Proof.
  intros Hg H1 H2 Hb (Rx & kx & Ex & Bx) (Ry & ky & Ey & By).
  assert (HK : (Z.abs (kx * ky) <= b1 * b2)%Z).
  { rewrite Z.abs_mul. apply Z.mul_le_mono_nonneg; lia. }
  assert (E2 : (2 ^ g * 2 ^ g = 2 ^ (2 * g - 1074 + 1074))%Z).
  { rewrite <- pow2_split by lia. f_equal. lia. }
  destruct (mul_worth x y (kx * ky) (2 * g - 1074) Rx Ry) as [R U];
    [ lia | rewrite Ex, Ey, <- E2; ring | lia | ].
  split; [ split; [ exact R | exists (kx * ky)%Z; split; [ exact U | exact HK ] ] | ].
  rewrite U, Ex, Ey, <- Z.mul_assoc, <- pow2_split, <- E2 by lia. ring.
Qed.

(** On such a grid the orientation test is computed without any rounding. *)
Lemma cross_product_compare_grid (G : Z) (start candidate1 candidate2 : point) :
  (-537 <= G <= 485)%Z ->
  grid_point G start -> grid_point G candidate1 -> grid_point G candidate2 ->
  real (cross_product_compare start candidate1 candidate2)
  /\ (units (cross_product_compare start candidate1 candidate2) * 2 ^ 1074
      = cross_Z (pos start) (pos candidate1) (pos candidate2))%Z.
Proof.
  intros HG [Sx Sy] [Ax Ay] [Bx By].
  unfold cross_product_compare, cross_product, psub. cbn [fst snd].
  set (g := (G + 1074)%Z) in *.
  assert (Hg : (0 <= g <= 2045)%Z) by (subst g; lia).
  assert (Hg' : (537 <= g <= 1559)%Z) by (subst g; lia).
  assert (H53 : (2 ^ 24 + 2 ^ 24 < 2 ^ 53)%Z) by reflexivity.
  destruct (sub_grid g _ _ _ _ Hg H53 Ax Sx) as [D1x U1x].
  destruct (sub_grid g _ _ _ _ Hg H53 Ay Sy) as [D1y U1y].
  destruct (sub_grid g _ _ _ _ Hg H53 Bx Sx) as [D2x U2x].
  destruct (sub_grid g _ _ _ _ Hg H53 By Sy) as [D2y U2y].
  assert (Hb : (0 <= 2 ^ 24 + 2 ^ 24)%Z) by (vm_compute; discriminate).
  assert (Hbb : ((2 ^ 24 + 2 ^ 24) * (2 ^ 24 + 2 ^ 24) < 2 ^ 53)%Z) by reflexivity.
  destruct (mul_grid g _ _ _ _ Hg' Hb Hb Hbb D1x D2y) as [P1 UP1].
  destruct (mul_grid g _ _ _ _ Hg' Hb Hb Hbb D1y D2x) as [P2 UP2].
  assert (Hg2 : (0 <= 2 * g - 1074 <= 2045)%Z) by lia.
  assert (Hbbb : ((2 ^ 24 + 2 ^ 24) * (2 ^ 24 + 2 ^ 24)
                  + (2 ^ 24 + 2 ^ 24) * (2 ^ 24 + 2 ^ 24) < 2 ^ 53)%Z) by reflexivity.
  destruct (sub_grid _ _ _ _ _ Hg2 Hbbb P1 P2) as [[R _] U].
  split; [ exact R | ].
  rewrite U, Z.mul_sub_distr_r, UP1, UP2, U1x, U1y, U2x, U2y.
  unfold cross_Z, pos. cbn [fst snd]. ring.
Qed.

Lemma grid_point_real (G : Z) (p : point) : grid_point G p -> real_point p.
Proof. intros [[R1 _] [R2 _]]. now split. Qed.

Lemma turn_exact_grid (G : Z) (a b c : point) :
  (-537 <= G <= 485)%Z ->
  grid_point G a -> grid_point G b -> grid_point G c ->
  turn_exact a b c = true.
Proof.
  intros HG Ha Hb Hc. unfold turn_exact.
  destruct (cross_product_compare_grid G a b c HG Ha Hb Hc) as [R U].
  rewrite (leb_real _ zero R) by (split; reflexivity).
  change (units zero) with 0%Z. rewrite <- U.
  pose proof (pow2_pos 1074 ltac:(lia)) as HP.
  set (u := units (cross_product_compare a b c)) in *.
  destruct (Z.leb_spec u 0), (Z.leb_spec (u * 2 ^ 1074) 0); try reflexivity; nia.
Qed.

Lemma exact_turns_grid (G : Z) (points : list point) :
  (-537 <= G <= 485)%Z -> Forall (grid_point G) points ->
  exact_turns points = true.
Proof.
  intros HG Hall. rewrite Forall_forall in Hall. unfold exact_turns.
  apply forallb_forall. intros a Ha. apply forallb_forall. intros b Hb.
  apply forallb_forall. intros c Hc.
  apply (turn_exact_grid G); auto.
Qed.

(** X6. For points whose coordinates are multiples of [2^G], at most [2^24]
    of them, with [-537 <= G <= 485], [cross_product_compare] is computed
    without rounding: it is a finite number, the exact cross product of the
    two differences. *)
Theorem cross_product_compare_exact (G : Z) (start candidate1 candidate2 : point) :
  (-537 <= G <= 485)%Z ->
  grid_point G start -> grid_point G candidate1 -> grid_point G candidate2 ->
  real (cross_product_compare start candidate1 candidate2)
  /\ (units (cross_product_compare start candidate1 candidate2) * 2 ^ 1074
      = cross_Z (pos start) (pos candidate1) (pos candidate2))%Z.
Proof. apply cross_product_compare_grid. Qed.

(** X5. For points whose coordinates are multiples of [2^G], at most [2^24]
    of them, with [-537 <= G <= 485] (integers up to [2^24] are the case
    [G = 0]), [simple_convex_hull] is right: its vertices are input points,
    every input point is inside or on the polygon, and unless the points
    are collinear the polygon starts at the least point, has at least three
    vertices and turns strictly left at each. *)
Theorem simple_convex_hull_on_grid (G : Z) (points : list point) :
  (-537 <= G <= 485)%Z -> Forall (grid_point G) points ->
  incl (simple_convex_hull points) points
  /\ (forall q, In q points -> inside_polygon (simple_convex_hull points) q)
  /\ (not_collinear points ->
      (exists p0 rest,
          simple_convex_hull points = p0 :: rest
          /\ forall q, In q points -> lex_le (pos p0) (pos q))
      /\ (3 <= length (simple_convex_hull points))%nat
      /\ counter_clockwise (simple_convex_hull points)).
Proof.
  intros HG Hall.
  assert (Hr : Forall real_point points).
  { eapply Forall_impl; [ | exact Hall ]. intros p. apply grid_point_real. }
  pose proof (exact_turns_grid G points HG Hall) as Ht.
  split; [ apply simple_convex_hull_incl | ].
  split; [ intros q; now apply hull_contains | ].
  now apply hull_counter_clockwise.
Qed.

Lemma on_grid_quarter (k : Z) (x : float) :
  real x -> units x = (k * 2 ^ 1072)%Z -> (Z.abs k <= 2 ^ 24)%Z ->
  on_grid (-2 + 1074) (2 ^ 24) x.
Proof. intros R U B. split; [ exact R | exists k; split; assumption ]. Qed.

Lemma triangle_points_on_grid : Forall (grid_point (-2)) triangle_points.
Proof.
  assert (H0 : on_grid (-2 + 1074) (2 ^ 24) zero).
  { apply (on_grid_quarter 0); [ split; reflexivity | reflexivity | vm_compute; discriminate ]. }
  assert (H1 : on_grid (-2 + 1074) (2 ^ 24) one).
  { apply (on_grid_quarter 4); [ split; reflexivity | vm_compute; reflexivity | vm_compute; discriminate ]. }
  assert (Hq : on_grid (-2 + 1074) (2 ^ 24) (dyadic 1 (-2))).
  { apply (on_grid_quarter 1); [ split; reflexivity | vm_compute; reflexivity | vm_compute; discriminate ]. }
  unfold triangle_points.
  repeat (apply Forall_cons; [ split; assumption | ]). apply Forall_nil.
Qed.

Lemma simple_convex_hull_on_grid_witness :
  incl (simple_convex_hull triangle_points) triangle_points
  /\ (forall q, In q triangle_points ->
        inside_polygon (simple_convex_hull triangle_points) q)
  /\ (not_collinear triangle_points ->
      (exists p0 rest,
          simple_convex_hull triangle_points = p0 :: rest
          /\ forall q, In q triangle_points -> lex_le (pos p0) (pos q))
      /\ (3 <= length (simple_convex_hull triangle_points))%nat
      /\ counter_clockwise (simple_convex_hull triangle_points)).
Proof.
  apply (simple_convex_hull_on_grid (-2) triangle_points).
  - lia.
  - exact triangle_points_on_grid.
Defined.

Lemma cross_product_compare_exact_witness :
  real (cross_product_compare (zero, zero) (one, zero) (zero, one))
  /\ (units (cross_product_compare (zero, zero) (one, zero) (zero, one)) * 2 ^ 1074
      = cross_Z (pos (zero, zero)) (pos (one, zero)) (pos (zero, one)))%Z.
Proof.
  pose proof triangle_points_on_grid as H. rewrite Forall_forall in H.
  apply (cross_product_compare_exact (-2)).
  - lia.
  - apply H. right. left. reflexivity.
  - apply H. left. reflexivity.
  - apply H. right. right. left. reflexivity.
Defined.

End GridFacts.

(* ================================================================= *)
(** ** The hull, the order of the points, and their box *)

Module HullOrderFacts.

Import F64 Helpers F64Facts HelpersFacts HelpersEdgeFacts Exact ExactFacts HullSpec HullFacts.
Local Open Scope Z_scope.
Local Open Scope f64_scope.

(** *** The hull depends on the positions of the points only *)

Lemma lex_lt_irrefl (a : zpoint) : ~ lex_lt a a.
Proof. unfold lex_lt. lia. Qed.

Lemma lex_lt_asym (a b : zpoint) : lex_lt a b -> ~ lex_lt b a.
Proof. unfold lex_lt. lia. Qed.

Lemma strictly_sorted_eq (l1 : list zpoint) :
  forall l2, StronglySorted lex_lt l1 -> StronglySorted lex_lt l2 ->
    (forall x, In x l1 <-> In x l2) -> l1 = l2.
Proof.
  induction l1 as [ | a l1 IH ]; intros l2 S1 S2 Hiff.
  - destruct l2 as [ | b l2 ]; [ reflexivity | ].
    exfalso. apply (proj2 (Hiff b)). now left.
  - destruct l2 as [ | b l2 ]; [ exfalso; apply (proj1 (Hiff a)); now left | ].
    inversion S1 as [ | ? ? S1' F1 ]; subst. inversion S2 as [ | ? ? S2' F2 ]; subst.
    rewrite Forall_forall in F1, F2.
    assert (Eab : a = b).
    { destruct (proj1 (Hiff a) (or_introl eq_refl)) as [ E | Ha ]; [ now symmetry | ].
      destruct (proj2 (Hiff b) (or_introl eq_refl)) as [ E | Hb ]; [ exact E | ].
      exfalso. exact (lex_lt_asym _ _ (F1 _ Hb) (F2 _ Ha)). }
    subst b. f_equal. apply IH; try assumption.
    intros x. split; intros Hx.
    + destruct (proj1 (Hiff x) (or_intror Hx)) as [ E | H ]; [ | exact H ].
      subst x. exfalso. exact (lex_lt_irrefl _ (F1 _ Hx)).
    + destruct (proj2 (Hiff x) (or_intror Hx)) as [ E | H ]; [ | exact H ].
      subst x. exfalso. exact (lex_lt_irrefl _ (F2 _ Hx)).
Qed.

Lemma unique_positions (points : list point) :
  Forall real_point points ->
  forall z, In z (map pos (np_unique points)) <-> In z (map pos points).
Proof.
  intros Hr z. split; intros Hz.
  - apply in_map_iff in Hz as (y & <- & Hy). apply in_map. now apply unique_incl.
  - apply in_map_iff in Hz as (q & <- & Hq). now apply in_pos_unique.
Qed.

Lemma hull_of_positions (points : list point) :
  Forall real_point points -> exact_turns points = true -> points <> [] ->
  map pos (simple_convex_hull points)
  = if (Z.of_nat (length (map pos (np_unique points))) <? 2)%Z
    then map pos (np_unique points)
    else hull_exact (map pos (np_unique points)).
Proof.
  intros Hr Ht Hne. rewrite length_map.
  destruct (Z.of_nat (length (np_unique points)) <? 2)%Z eqn:Hlen.
  - rewrite (simple_convex_hull_nonempty points Hne). cbv zeta. now rewrite Hlen.
  - now apply hull_refines.
Qed.

(** X7. The hull depends on the set of positions of the input points only,
    not on their order or on repetitions: two inputs of finite points with
    the same positions (and exact orientation tests) have hulls with the
    same positions, vertex by vertex. *)
Theorem simple_convex_hull_of_positions (points1 points2 : list point) :
  Forall real_point points1 -> Forall real_point points2 ->
  exact_turns points1 = true -> exact_turns points2 = true ->
  (forall z, In z (map pos points1) <-> In z (map pos points2)) ->
  map pos (simple_convex_hull points1) = map pos (simple_convex_hull points2).
Proof.
  intros R1 R2 T1 T2 Hsame.
  destruct points1 as [ | p1 l1 ].
  - destruct points2 as [ | p2 l2 ]; [ reflexivity | ].
    exfalso. apply (proj2 (Hsame (pos p2))). now left.
  - destruct points2 as [ | p2 l2 ].
    + exfalso. apply (proj1 (Hsame (pos p1))). now left.
    + rewrite !hull_of_positions by (assumption || discriminate).
      assert (E : map pos (np_unique (p1 :: l1)) = map pos (np_unique (p2 :: l2))).
      { apply strictly_sorted_eq.
        - apply StronglySorted_map_pos. now apply unique_sorted.
        - apply StronglySorted_map_pos. now apply unique_sorted.
        - intros z. rewrite !unique_positions by assumption. apply Hsame. }
      now rewrite E.
Qed.

Lemma simple_convex_hull_of_positions_witness :
  map pos (simple_convex_hull triangle_points)
  = map pos (simple_convex_hull
               [ (zero, one); (dyadic 1 (-2), dyadic 1 (-2)); (zero, S754_zero true);
                 (one, zero); (one, zero) ]).
Proof.
  apply (simple_convex_hull_of_positions triangle_points).
  - exact triangle_points_real.
  - repeat constructor.
  - vm_compute. reflexivity.
  - vm_compute. reflexivity.
  - intros z. vm_compute. tauto.
Defined.

(** X8. The hull stays inside the bounding box: every vertex returned by
    [simple_convex_hull] passes [contains_nd] against the input points
    (taken as the rows of an [N x 2] array), for all finite points. *)
Theorem hull_inside_bbox (points : list point) (vertex : point) :
  Forall real_point points ->
  In vertex (simple_convex_hull points) ->
  contains_nd (map as_row points) (as_row vertex) = Some true.
Proof.
  intros Hr Hv. apply (contains_nd_of_node 2).
  - rewrite Forall_map. eapply Forall_impl; [ | exact Hr ].
    intros p [R1 R2]. split; [ reflexivity | ].
    unfold as_row. apply Forall_cons; [ exact R1 | apply Forall_cons; [ exact R2 | apply Forall_nil ] ].
  - apply in_map. now apply simple_convex_hull_incl.
Qed.

Lemma hull_inside_bbox_witness :
  contains_nd (map as_row triangle_points) (as_row (zero, one)) = Some true.
Proof.
  apply (hull_inside_bbox triangle_points (zero, one)).
  - exact triangle_points_real.
  - vm_compute. right. right. left. reflexivity.
Defined.

End HullOrderFacts.

(* ================================================================= *)
(** ** The vertices of the hull are distinct *)

Module HullDistinctFacts.

Import F64 Helpers F64Facts HelpersFacts Exact ExactFacts HullSpec HullFacts HullOrderFacts.
Local Open Scope Z_scope.

(** *** No vertex of the hull is returned twice *)

Lemma sorted_NoDup {A : Type} (R : A -> A -> Prop) (l : list A) :
  (forall a, ~ R a a) -> StronglySorted R l -> NoDup l.
Proof.
  intros Hirr. induction 1 as [ | a l Hs IH Ha ]; constructor; [ | exact IH ].
  intros Hin. rewrite Forall_forall in Ha. exact (Hirr a (Ha a Hin)).
Qed.

Lemma adj2_strong {A : Type} (R : A -> A -> Prop) (l : list A) :
  (forall a b c, R a b -> R b c -> R a c) -> adj2 R l -> StronglySorted R l.
Proof.
  intros Ht. induction l as [ | a l IH ]; intros H; [ constructor | ].
  destruct l as [ | b l ]; [ constructor; constructor | ].
  rewrite adj2_cons in H. destruct H as [Hab H]. specialize (IH H).
  constructor; [ exact IH | ].
  inversion IH as [ | ? ? _ Hb ]; subst. constructor; [ exact Hab | ].
  eapply Forall_impl; [ | exact Hb ]. intros c Hc. exact (Ht _ _ _ Hab Hc).
Qed.

(** A vertex strictly inside a chain has a neighbour on either side. *)
Lemma interior_neighbours {A : Type} (top bot x : A) (l : list A) :
  In x l -> exists pre b a post, top :: l ++ [bot] = pre ++ b :: x :: a :: post.
Proof.
  intros Hin. apply in_split in Hin as (l1 & l2 & ->).
  destruct (snoc_cases top l1) as (f & b & E).
  destruct (l2 ++ [bot]) as [ | a post ] eqn:E2; [ destruct l2; discriminate | ].
  exists f, b, a, post.
  rewrite <- app_assoc. cbn [app]. rewrite E2, app_comm_cons, E, <- app_assoc.
  reflexivity.
Qed.

Lemma adj2_at {A : Type} (R : A -> A -> Prop) (pre : list A) (b x : A) (post : list A) :
  adj2 R (pre ++ b :: x :: post) -> R b x.
Proof.
  intros H. apply adj2_unglue in H as [_ H]. rewrite adj2_cons in H. tauto.
Qed.

Lemma adj3_at {A : Type} (T : A -> A -> A -> Prop) (pre : list A) (b x a : A)
    (post : list A) :
  adj3 T (pre ++ b :: x :: a :: post) -> T b x a.
Proof.
  induction pre as [ | p pre IH ]; cbn [app]; intros H.
  - rewrite adj3_cons in H. tauto.
  - apply IH. destruct pre as [ | p' pre ]; cbn [app] in *.
    + rewrite adj3_cons in H. tauto.
    + destruct pre as [ | p'' pre ]; cbn [app] in *; rewrite adj3_cons in H; tauto.
Qed.

(** A vertex [x] where the lower chain turns strictly left (from [a] to
    [b]) is not a vertex of the upper chain (going on to [d]): the edges
    [x -> b] and [x -> d] would both have the other's end on their left. *)
Lemma chains_apart (a x b d : zpoint) :
  lex_lt a x -> lex_lt x b -> lex_lt d x ->
  0 < cross_Z a x b -> 0 <= cross_Z x b d -> 0 <= cross_Z x d b ->
  0 <= cross_Z a x d -> False.
Proof.
  destruct a as [ax ay], x as [xx xy], b as [bx by_], d as [dx dy].
  unfold lex_lt, cross_Z; cbn [fst snd]. intros La Lb Ld T E1 E2 E3.
  pose proof (parallel_sign (bx - xx, by_ - xy) (xx - dx, xy - dy) (ax - xx, ay - xy)) as P.
  unfold lexpos, cross_v in P; cbn [fst snd] in P.
  assert (P' : (bx - xx) * (ay - xy) - (by_ - xy) * (ax - xx) = 0)
    by (apply P; lia).
  lia.
Qed.

Lemma hull_exact_NoDup (pmin pmax : zpoint) (mid : list zpoint) :
  StronglySorted lex_lt (pmin :: mid ++ [pmax]) ->
  NoDup (hull_exact (pmin :: mid ++ [pmax])).
Proof.
  intros Hs.
  destruct (pass_shape false pmin pmax mid Hs) as (l' & El & Il).
  pose proof (rev_pts pmin pmax mid) as Hrev.
  assert (Hrs : StronglySorted (before true) (pmax :: rev mid ++ [pmin])).
  { rewrite <- Hrev. apply (StronglySorted_rev lex_lt). exact Hs. }
  destruct (pass_shape true pmax pmin (rev mid) Hrs) as (u' & Eu & Iu).
  rewrite <- Hrev in Eu.
  assert (EH : hull_exact (pmin :: mid ++ [pmax]) = (pmin :: rev l') ++ (pmax :: rev u')).
  { unfold hull_exact. rewrite El, Eu. cbn [rev]. rewrite !rev_app_distr. cbn [rev app].
    change (pmin :: rev l' ++ [pmax]) with ((pmin :: rev l') ++ [pmax]).
    change (pmax :: rev u' ++ [pmin]) with ((pmax :: rev u') ++ [pmin]).
    now rewrite !removelast_snoc. }
  destruct Il as (Li & _ & _ & L2 & L3 & Lq).
  destruct Iu as (Ui & _ & _ & U2 & _ & Uq).
  assert (NL : NoDup (pmax :: l' ++ [pmin])).
  { apply (sorted_NoDup (fun y x => before false x y)); [ intros a; apply before_irrefl | ].
    apply adj2_strong; [ | exact L2 ].
    intros a b c H1 H2. exact (before_trans _ _ _ _ H2 H1). }
  assert (NU : NoDup (pmin :: u' ++ [pmax])).
  { apply (sorted_NoDup (fun y x => before true x y)); [ intros a; apply before_irrefl | ].
    apply adj2_strong; [ | exact U2 ].
    intros a b c H1 H2. exact (before_trans _ _ _ _ H2 H1). }
  assert (Hlo : forall q, In q (pmax :: l' ++ [pmin]) ->
                  In q (rev (rev mid ++ [pmin]) ++ [pmax])).
  { intros q Hq. apply in_done_upper, in_done_lower, Li, Hq. }
  assert (Hup : forall q, In q (pmin :: u' ++ [pmax]) ->
                  In q (rev (mid ++ [pmax]) ++ [pmin])).
  { intros q Hq. apply in_done_lower, in_done_upper, Ui, Hq. }
  rewrite EH. apply NoDup_app.
  - apply NoDup_cons_iff in NL as [_ NL]. apply NoDup_rev in NL.
    rewrite rev_app_distr in NL. exact NL.
  - apply NoDup_cons_iff in NU as [_ NU]. apply NoDup_rev in NU.
    rewrite rev_app_distr in NU. exact NU.
  - intros x Hx1 Hx2.
    apply NoDup_cons_iff in NL as [NL1 _]. apply NoDup_cons_iff in NU as [NU1 _].
    rewrite in_app_iff in NL1, NU1. cbn [In] in NL1, NU1, Hx1, Hx2.
    rewrite <- in_rev in Hx1, Hx2.
    destruct Hx1 as [ <- | Hx1 ].
    { destruct Hx2 as [ E | Hx2 ]; [ apply NL1; right; left; symmetry; exact E | ].
      apply NU1. now left. }
    destruct Hx2 as [ <- | Hx2 ]; [ apply NL1; now left | ].
    destruct (interior_neighbours pmax pmin x l' Hx1) as (pre & b & a & post & E1).
    destruct (interior_neighbours pmin pmax x u' Hx2) as (pre' & d & c & post' & E2).
    rewrite E1 in L2, L3, Lq, Hlo. rewrite E2 in U2, Uq, Hup.
    assert (Hb : In b (pre ++ b :: x :: a :: post)) by (apply in_or_app; right; now left).
    assert (Hd : In d (pre' ++ d :: x :: c :: post')) by (apply in_or_app; right; now left).
    apply (chains_apart a x b d).
    + change (pre ++ b :: x :: a :: post) with (pre ++ [b] ++ x :: a :: post) in L2.
      rewrite app_assoc in L2. exact (adj2_at _ _ _ _ _ L2).
    + exact (adj2_at _ _ _ _ _ L2).
    + exact (adj2_at _ _ _ _ _ U2).
    + exact (adj3_at _ _ _ _ _ _ L3).
    + exact (adj2_at _ _ _ _ _ (Lq d (Hup d Hd))).
    + exact (adj2_at _ _ _ _ _ (Uq b (Hlo b Hb))).
    + specialize (Lq d (Hup d Hd)).
      change (pre ++ b :: x :: a :: post) with (pre ++ [b] ++ x :: a :: post) in Lq.
      rewrite app_assoc in Lq. exact (adj2_at _ _ _ _ _ Lq).
Qed.

(** X26. No vertex is returned twice: for finite points with exact
    orientation tests the vertices returned by [simple_convex_hull] are at
    pairwise different positions (the least and the greatest point, which
    both passes reach, are kept once, and no point is a vertex of both the
    lower and the upper chain). *)
Theorem simple_convex_hull_distinct (points : list point) :
  Forall real_point points -> exact_turns points = true ->
  NoDup (map pos (simple_convex_hull points))
  /\ NoDup (simple_convex_hull points).
Proof.
  intros Hr Ht.
  assert (Hpos : NoDup (map pos (simple_convex_hull points))).
  { destruct points as [ | p l ]; [ constructor | ].
    rewrite hull_of_positions by (assumption || discriminate).
    pose proof (StronglySorted_map_pos _ (unique_sorted (p :: l) Hr)) as Hs.
    destruct (Z.of_nat (length (map pos (np_unique (p :: l)))) <? 2)%Z eqn:Hlen.
    - apply (sorted_NoDup lex_lt); [ exact lex_lt_irrefl | exact Hs ].
    - destruct (map pos (np_unique (p :: l))) as [ | pmin rest ]; [ discriminate | ].
      destruct rest as [ | y rest ]; [ discriminate | ].
      destruct (snoc_cases y rest) as (mid & pmax & E). rewrite E in *.
      now apply hull_exact_NoDup. }
  split; [ exact Hpos | exact (NoDup_map_inv pos _ Hpos) ].
Qed.

Lemma simple_convex_hull_distinct_witness :
  NoDup (map pos (simple_convex_hull triangle_points))
  /\ NoDup (simple_convex_hull triangle_points).
Proof.
  apply (simple_convex_hull_distinct triangle_points).
  - exact triangle_points_real.
  - vm_compute. reflexivity.
Defined.

End HullDistinctFacts.

(* ================================================================= *)
(** ** [_verify_data] accepts what is in order *)

Module VerifyDataFacts.

Import F64 Helpers F64Facts RoundingFacts RuntimeUtils RuntimeUtilsFacts.
Local Open Scope Z_scope.
Local Open Scope f64_scope.

Lemma leb_not_lt (x a : float) : (x <=? a) = true -> np_lt a x = false.
Proof.
  unfold np_lt, leb, SFleb, ltb, SFltb. rewrite (compare_antisym x a).
  destruct (SFcompare x a) as [ c | ] eqn:E; [ | discriminate ].
  intros H. replace (is_nan x) with false by (now destruct x).
  destruct c; cbn; try reflexivity; discriminate.
Qed.

Lemma np_insert_last (a : float) (acc : list float) :
  Forall (fun x => (x <=? a) = true) acc -> np_insert a acc = acc ++ [a].
Proof.
  induction 1 as [ | x acc Hx Hacc IH ]; [ reflexivity | ].
  cbn [np_insert app]. now rewrite (leb_not_lt x a Hx), IH.
Qed.

Lemma ascending_tail (a : float) (l : list float) :
  ascending (a :: l) = true -> ascending l = true.
Proof.
  destruct l as [ | b l ]; [ reflexivity | ]. cbn [ascending].
  intros H. now apply andb_true_iff in H as [_ H].
Qed.

Lemma ascending_snoc (acc : list float) (a : float) :
  ascending (acc ++ [a]) = true -> Forall (fun x => (x <=? a) = true) acc.
Proof.
  induction acc as [ | x acc IH ]; intros H; [ constructor | ].
  pose proof (IH (ascending_tail _ _ H)) as Hacc.
  constructor; [ | exact Hacc ].
  destruct acc as [ | y acc' ].
  - cbn in H. now apply andb_true_iff in H as [H _].
  - cbn [app ascending] in H. apply andb_true_iff in H as [Hxy _].
    inversion Hacc as [ | ? ? Hy _ ]; subst. exact (leb_trans _ _ _ Hxy Hy).
Qed.

Lemma ascending_prefix (acc rest : list float) :
  ascending (acc ++ rest) = true -> ascending acc = true.
Proof.
  revert rest. induction acc as [ | x acc IH ]; intros rest H; [ reflexivity | ].
  destruct acc as [ | y acc' ]; [ reflexivity | ].
  cbn [app ascending] in *. apply andb_true_iff in H as [Hxy H].
  rewrite Hxy. exact (IH rest H).
Qed.

Lemma np_sort_ascending (l : list float) : ascending l = true -> np_sort l = l.
Proof.
  unfold np_sort.
  assert (H : forall rest acc, ascending (acc ++ rest) = true ->
                fold_left (fun acc a => np_insert a acc) rest acc = acc ++ rest).
  { induction rest as [ | a rest IH ]; intros acc Hasc; cbn [fold_left].
    - now rewrite app_nil_r.
    - replace (acc ++ a :: rest) with ((acc ++ [a]) ++ rest) in *
        by (now rewrite <- app_assoc).
      rewrite np_insert_last; [ now apply IH | ].
      apply ascending_snoc. exact (ascending_prefix _ _ Hasc). }
  intros Hl. exact (H l [] Hl).
Qed.

(** X2. [_verify_data] raises no [ValueError] on parameters in ascending
    order without a NaN: [np.sort] leaves them as they are. *)
Theorem verify_data_accepts (curve1_params : list float) :
  ascending curve1_params = true ->
  Forall (fun x => is_nan x = false) curve1_params ->
  verify_data curve1_params = true.
Proof.
  intros Hasc Hnan. unfold verify_data. cbv zeta.
  rewrite (np_sort_ascending _ Hasc).
  induction Hnan as [ | x l Hx Hl IH ]; [ reflexivity | ].
  cbn [combine forallb fst snd]. rewrite (IH (ascending_tail _ _ Hasc)), andb_true_r.
  unfold eqb, SFeqb.
  destruct x as [ s | s | | s m e ]; try discriminate; cbn [SFcompare];
    try (destruct s; reflexivity).
  destruct s; rewrite Z.compare_refl;
    change (Pos.compare_cont Eq m m) with (m ?= m)%positive;
    now rewrite Pos.compare_refl.
Qed.

Lemma verify_data_accepts_witness :
  verify_data [zero; S754_zero true; dyadic 1 (-1); one; one] = true.
Proof.
  apply (verify_data_accepts [zero; S754_zero true; dyadic 1 (-1); one; one]).
  - reflexivity.
  - repeat constructor.
Defined.

End VerifyDataFacts.

(* ================================================================= *)
(** ** [clean_file] *)

Module CleanCythonFacts.
Import PyStr CleanCython.

Lemma is_space_newline : is_space newline = true.
Proof. reflexivity. Qed.

Lemma lstrip_idem (s : str) : lstrip (lstrip s) = lstrip s.
Proof.
  induction s as [ | c s IH ]; [ reflexivity | ]. cbn [lstrip].
  destruct (is_space c) eqn:E; [ exact IH | ]. cbn [lstrip]. now rewrite E.
Qed.

Lemma rstrip_idem (s : str) : rstrip (rstrip s) = rstrip s.
Proof. unfold rstrip. now rewrite rev_involutive, lstrip_idem. Qed.

Lemma lstrip_suffix (s : str) : exists spaces, s = spaces ++ lstrip s /\ forallb is_space spaces = true.
Proof.
  induction s as [ | c s (sp & E & H) ]; [ now exists [] | ]. cbn [lstrip].
  destruct (is_space c) eqn:Ec.
  - exists (c :: sp). split; [ cbn; congruence | cbn; now rewrite Ec ].
  - now exists [].
Qed.

(** [rstrip] only cuts whitespace off the end. *)
Lemma rstrip_prefix (s : str) :
  exists spaces, s = rstrip s ++ spaces /\ forallb is_space spaces = true.
Proof.
  destruct (lstrip_suffix (rev s)) as (sp & E & H).
  exists (rev sp). split.
  - unfold rstrip. rewrite <- rev_app_distr, <- E. now rewrite rev_involutive.
  - rewrite forallb_forall in *. intros x Hx. apply H. now apply in_rev.
Qed.

Lemma lstrip_head (s : str) :
  match lstrip s with c :: _ => is_space c = false | [] => True end.
Proof.
  induction s as [ | c s IH ]; [ exact I | ]. cbn [lstrip].
  destruct (is_space c) eqn:E; [ exact IH | exact E ].
Qed.

Lemma lstrip_fix (s : str) :
  match s with c :: _ => is_space c = false | [] => True end -> lstrip s = s.
Proof. destruct s as [ | c s ]; [ reflexivity | ]. cbn [lstrip]. now intros ->. Qed.

Lemma no_newline_rstrip (line : str) : ~ In newline line -> ~ In newline (rstrip line).
Proof.
  intros H Hin. apply H. destruct (rstrip_prefix line) as (sp & E & _).
  rewrite E. apply in_or_app. now left.
Qed.

Lemma split_lines_nonempty (s : str) : split newline s <> [].
Proof.
  induction s as [ | c s IH ]; cbn [split]; [ discriminate | ].
  destruct (c =? newline)%N; [ discriminate | ].
  destruct (split newline s); [ congruence | discriminate ].
Qed.

Lemma split_lines_no_newline (s : str) :
  Forall (fun line => ~ In newline line) (split newline s).
Proof.
  induction s as [ | c s IH ]; cbn [split].
  - constructor; [ intros [] | constructor ].
  - destruct (N.eqb_spec c newline) as [ -> | Hc ].
    + constructor; [ intros [] | exact IH ].
    + destruct (split newline s) as [ | line lines ].
      * constructor; [ | constructor ]. intros [ E | [] ]. congruence.
      * inversion IH as [ | ? ? Hl Hls ]; subst. constructor; [ | exact Hls ].
        intros [ E | Hin ]; [ congruence | now apply Hl ].
Qed.

(** Lines written one after the other read back as those lines, and an
    empty last piece after the final newline. *)
Lemma split_lines_written (lines : list str) :
  Forall (fun line => ~ In newline line) lines ->
  split newline (concat (map (fun line => line ++ [newline]) lines)) = lines ++ [[]].
Proof.
  induction 1 as [ | line lines Hline Hlines IH ]; [ reflexivity | ].
  cbn [map concat app]. rewrite <- app_assoc. cbn [app].
  induction line as [ | c line IHl ]; cbn [app split].
  - rewrite N.eqb_refl. now rewrite IH.
  - destruct (N.eqb_spec c newline) as [ -> | Hc ]; [ exfalso; apply Hline; now left | ].
    rewrite IHl by (intros Hin; apply Hline; now right). reflexivity.
Qed.

Lemma map_rstrip_written (lines : list str) :
  map (fun line => rstrip line ++ [newline]) lines
  = map (fun line => line ++ [newline]) (map rstrip lines).
Proof. now rewrite map_map. Qed.

(** X18. Every line of the file that [clean_file] writes back is free of
    trailing whitespace; the lines are those of the contents read, with
    the trailing whitespace of the file and the path removed, each
    stripped; and the file ends with a newline. *)
Theorem clean_file_lines (py_version virtualenv_dirname contents : str) :
  let cleaned := remove_all (rstrip contents) (lib_path py_version virtualenv_dirname) in
  let written := clean_file py_version virtualenv_dirname contents in
  split newline written = map rstrip (split newline cleaned) ++ [[]]
  /\ Forall trimmed (split newline written)
  /\ exists body, written = body ++ [newline].
Proof.
  cbv zeta. unfold clean_file. cbv zeta.
  set (lines := split newline (remove_all _ _)).
  rewrite map_rstrip_written.
  assert (Hno : Forall (fun line => ~ In newline line) (map rstrip lines)).
  { rewrite Forall_map. eapply Forall_impl; [ | apply split_lines_no_newline ].
    intros line. apply no_newline_rstrip. }
  rewrite (split_lines_written _ Hno).
  split; [ reflexivity | ]. split.
  - apply Forall_app. split.
    + rewrite Forall_map. apply Forall_forall. intros line _. apply rstrip_idem.
    + constructor; [ reflexivity | constructor ].
  - destruct (exists_last (split_lines_nonempty (remove_all (rstrip contents)
        (lib_path py_version virtualenv_dirname)))) as (front & last_ & E).
    fold lines in E. rewrite E, !map_app, concat_app. cbn [map concat].
    rewrite app_nil_r, app_assoc. eexists. reflexivity.
Qed.

(** *** The path that [clean_file] removes *)

Lemma join2_empty (path : str) :
  path <> [] -> endswith_sep (join2 path []) = true /\ join2 path [] <> [].
Proof.
  intros Hne. unfold join2. cbn [startswith].
  destruct path as [ | c path' ] eqn:E; [ congruence | ]. rewrite <- E.
  destruct (endswith_sep path) eqn:Es.
  - rewrite app_nil_r. split; [ exact Es | congruence ].
  - split; [ | destruct path; discriminate ].
    unfold endswith_sep. rewrite rev_app_distr. reflexivity.
Qed.

Lemma join2_nonempty (path b : str) : b <> [] -> join2 path b <> [].
Proof.
  intros Hb. unfold join2. destruct (startswith b [sep]); [ exact Hb | ].
  destruct path as [ | c path' ]; [ exact Hb | ].
  destruct (endswith_sep (c :: path')); discriminate.
Qed.

(** X24. The path that [clean_file] removes is never empty and ends with
    the separator, whatever the directory name and the version are:
    [str.replace] is never asked to replace the empty string. *)
Theorem lib_path_ends_with_sep (py_version virtualenv_dirname : str) :
  lib_path py_version virtualenv_dirname <> []
  /\ endswith_sep (lib_path py_version virtualenv_dirname) = true.
Proof.
  unfold lib_path, path_join. cbn [fold_left].
  set (path := join2 _ site_packages).
  assert (Hne : path <> []) by (apply join2_nonempty; discriminate).
  destruct (join2_empty path Hne) as [H1 H2]. now split.
Qed.

(** *** Cleaning a clean file *)

Lemma join_split (s : str) : join_lines (split newline s) = s.
Proof.
  induction s as [ | c s IH ]; [ reflexivity | ]. cbn [split].
  pose proof (split_lines_nonempty s) as Hne.
  destruct (N.eqb_spec c newline) as [ -> | Hc ].
  - cbn [join_lines]. destruct (split newline s) as [ | l ls ]; [ congruence | ].
    cbn [app]. now rewrite IH.
  - destruct (split newline s) as [ | l ls ]; [ congruence | ].
    cbn [join_lines] in *. destruct ls; cbn [app]; now rewrite IH.
Qed.

Lemma split_cons_line (c : N) (s : str) :
  c <> newline ->
  split newline (c :: s)
  = match split newline s with line :: lines => (c :: line) :: lines | [] => [[c]] end.
Proof. intros Hc. cbn [split]. now destruct (N.eqb_spec c newline). Qed.

Lemma split_app_line (line rest : str) :
  ~ In newline line ->
  split newline (line ++ newline :: rest) = line :: split newline rest.
Proof.
  induction line as [ | c line IH ]; intros Hno; cbn [app].
  - cbn [split]. now rewrite N.eqb_refl.
  - rewrite split_cons_line by (intros ->; apply Hno; now left).
    rewrite IH by (intros Hin; apply Hno; now right). reflexivity.
Qed.

Lemma split_one_line (line : str) : ~ In newline line -> split newline line = [line].
Proof.
  induction line as [ | c line IH ]; intros Hno; [ reflexivity | ].
  rewrite split_cons_line by (intros ->; apply Hno; now left).
  rewrite IH by (intros Hin; apply Hno; now right). reflexivity.
Qed.

Lemma split_join (lines : list str) :
  lines <> [] -> Forall (fun line => ~ In newline line) lines ->
  split newline (join_lines lines) = lines.
Proof.
  induction lines as [ | line lines IH ]; intros Hne Hall; [ congruence | ].
  apply Forall_cons_iff in Hall as [Hline Hlines].
  cbn [join_lines]. destruct lines as [ | line' lines' ].
  - now apply split_one_line.
  - rewrite split_app_line by assumption. f_equal. apply IH; [ discriminate | exact Hlines ].
Qed.

Lemma written_join (lines : list str) :
  lines <> [] ->
  concat (map (fun line => line ++ [newline]) lines) = join_lines lines ++ [newline].
Proof.
  induction lines as [ | line lines IH ]; [ congruence | ]. intros _.
  cbn [map concat join_lines]. destruct lines as [ | line' lines' ].
  - cbn [map concat]. now rewrite app_nil_r.
  - rewrite IH by discriminate. rewrite <- !app_assoc. reflexivity.
Qed.

Lemma rstrip_newline (s : str) : rstrip (s ++ [newline]) = rstrip s.
Proof. unfold rstrip. rewrite rev_app_distr. reflexivity. Qed.

Lemma trimmed_ends_well (s : str) : trimmed s <-> ends_well s.
Proof.
  unfold trimmed, ends_well, rstrip. split.
  - intros E. pose proof (lstrip_head (rev s)) as H.
    assert (E' : lstrip (rev s) = rev s).
    { apply (f_equal (@rev N)) in E. now rewrite rev_involutive in E. }
    now rewrite E' in H.
  - intros H. rewrite (lstrip_fix _ H). apply rev_involutive.
Qed.

Lemma rstrip_ends_well (s : str) : ends_well (rstrip s).
Proof. apply trimmed_ends_well, rstrip_idem. Qed.

Lemma ends_well_app (a b : str) : b <> [] -> (ends_well (a ++ b) <-> ends_well b).
Proof.
  intros Hb. unfold ends_well. rewrite rev_app_distr.
  destruct (rev b) as [ | c r ] eqn:E; [ | reflexivity ].
  exfalso. apply Hb. apply (f_equal (@rev N)) in E. now rewrite rev_involutive in E.
Qed.

Lemma ends_well_newline (a : str) : ~ ends_well (a ++ [newline]).
Proof. unfold ends_well. rewrite rev_app_distr. cbn. discriminate. Qed.

(** The lines of a text without trailing whitespace: the last line has
    none, and it is empty only when the text is. *)
Lemma join_ends_well (lines : list str) :
  ends_well (join_lines lines) ->
  Forall (fun line => ~ In newline line) lines ->
  ends_well (join_lines (map rstrip lines)).
Proof.
  induction lines as [ | line lines IH ]; intros Hw Hno; [ exact I | ].
  cbn [map join_lines] in *. destruct lines as [ | line' lines' ].
  - cbn [map]. apply rstrip_ends_well.
  - cbn [map]. cbn [map] in IH.
    apply Forall_cons_iff in Hno as [_ Hno].
    set (tail := join_lines (line' :: lines')) in *.
    assert (Htail : tail <> []).
    { intros E. rewrite E in Hw. apply (ends_well_newline line).
      exact Hw. }
    change (line ++ newline :: tail) with (line ++ (newline :: tail)) in Hw.
    apply (ends_well_app line (newline :: tail)) in Hw; [ | discriminate ].
    change (newline :: tail) with ([newline] ++ tail) in Hw.
    apply (ends_well_app [newline] tail Htail) in Hw.
    specialize (IH Hw Hno).
    set (tail' := join_lines (rstrip line' :: map rstrip lines')) in *.
    destruct tail' as [ | c t ] eqn:Et.
    + (* the stripped tail is empty: then so was the tail *)
      exfalso. subst tail'. clear - Et Hw Htail Hno.
      assert (Hall : forall ls, join_lines (map rstrip ls) = [] ->
                       ends_well (join_lines ls) -> join_lines ls = []).
      { intros ls. induction ls as [ | l ls IHls ]; [ reflexivity | ].
        cbn [map join_lines]. destruct ls as [ | l' ls' ]; cbn [map join_lines].
        - intros E W. apply trimmed_ends_well in W. unfold trimmed in W. congruence.
        - intros E. destruct (rstrip l); discriminate. }
      apply Htail. apply (Hall (line' :: lines')); assumption.
    + change (rstrip line ++ newline :: c :: t)
        with (rstrip line ++ ((newline :: c :: t))).
      apply (ends_well_app (rstrip line) (newline :: c :: t)); [ discriminate | ].
      change (newline :: c :: t) with ([newline] ++ (c :: t)).
      apply (ends_well_app [newline] (c :: t)); [ discriminate | exact IH ].
Qed.

(** X19. Cleaning a file twice is cleaning it once, when neither pass
    finds a path to remove. *)
Theorem clean_file_idempotent (py_version virtualenv_dirname contents : str) :
  let written := clean_file py_version virtualenv_dirname contents in
  untouched (rstrip contents) (lib_path py_version virtualenv_dirname) ->
  untouched (rstrip written) (lib_path py_version virtualenv_dirname) ->
  clean_file py_version virtualenv_dirname written = written.
Proof.
  cbv zeta. intros H1 H2.
  unfold clean_file at 1. cbv zeta. rewrite H2.
  unfold clean_file. cbv zeta. rewrite H1.
  set (lines := split newline (rstrip contents)).
  assert (Hne : lines <> []) by apply split_lines_nonempty.
  assert (Hno : Forall (fun line => ~ In newline line) lines)
    by apply split_lines_no_newline.
  assert (Hno' : Forall (fun line => ~ In newline line) (map rstrip lines)).
  { rewrite Forall_map. eapply Forall_impl; [ | exact Hno ].
    intros line. apply no_newline_rstrip. }
  assert (Hne' : map rstrip lines <> []) by (destruct lines; [ congruence | discriminate ]).
  rewrite !map_rstrip_written. rewrite (written_join (map rstrip lines) Hne').
  rewrite rstrip_newline.
  assert (Hw : ends_well (join_lines (map rstrip lines))).
  { apply join_ends_well; [ | exact Hno ].
    unfold lines. rewrite join_split. apply rstrip_ends_well. }
  apply trimmed_ends_well in Hw. unfold trimmed in Hw. rewrite Hw.
  rewrite (split_join _ Hne' Hno').
  rewrite <- (written_join _ Hne'). f_equal. rewrite !map_map.
  apply map_ext. intros line. now rewrite rstrip_idem.
Qed.

Lemma clean_file_idempotent_witness :
  clean_file python36 venv (clean_file python36 venv some_source)
  = clean_file python36 venv some_source.
Proof.
  apply (clean_file_idempotent python36 venv some_source); reflexivity.
Defined.

(** The path to the packages of the virtual environment is removed. *)
Lemma clean_file_example :
  clean_file python36 venv
    (lib_path python36 venv ++ [120; 46; 104; 32; 10; 10]%N)
  = [120; 46; 104; 10]%N.
Proof. reflexivity. Qed.

End CleanCythonFacts.

(* ================================================================= *)
(** ** [_convert_float] *)

Module ConvertFloatFacts.

Import F64 Python F64Facts RoundingFacts HelpersEdgeFacts PyStr ConvertFloat.
Local Open Scope Z_scope.
Local Open Scope f64_scope.

(** *** Strings that are no fractions *)

Lemma split_length (c : N) (s : str) : length (split c s) = S (count_occ N.eq_dec s c).
Proof.
  induction s as [ | x s IH ]; [ reflexivity | ]. cbn [split count_occ].
  destruct (N.eqb_spec x c) as [ -> | Hx ].
  - destruct (N.eq_dec c c); [ | congruence ]. cbn [length]. now rewrite IH.
  - destruct (N.eq_dec x c); [ congruence | ].
    destruct (split c s) as [ | part parts ]; [ discriminate | ].
    cbn [length] in *. exact IH.
Qed.

Section Builtins.

Variable float_fromhex : str -> exn + float.
Variable float_of_str : str -> exn + float.

Let convert := convert_float float_fromhex float_of_str.

(** X20. [_convert_float] turns an integer of at most 53 bits into the
    float of exactly its value. *)
Theorem convert_float_int_exact (n : Z) :
  (Z.abs n < 2 ^ 53)%Z ->
  exists x, convert (JInt n) = inr (PFloat x) /\ real x /\ units x = (n * 2 ^ 1074)%Z.
Proof.
  intros Hn. destruct (of_int_worth n Hn) as [[V F] U].
  exists (of_int n). unfold convert. cbn [convert_float]. unfold float_of_int.
  replace (is_inf (of_int n)) with false by (now destruct (of_int n)).
  repeat split; assumption.
Qed.

(** X21. [_convert_float] converts a list element by element, in order:
    it succeeds when every element does, with one result per element, and
    otherwise raises what the first failing element raises. *)
Theorem convert_float_list (elements : list value) :
  match convert (JList elements) with
  | inr r =>
      exists cs, r = PList cs /\ Forall2 (fun v c => convert v = inr c) elements cs
  | inl e =>
      exists before element after,
        elements = before ++ element :: after
        /\ Forall (fun v => exists c, convert v = inr c) before
        /\ convert element = inl e
  end.
Proof.
  unfold convert. cbn [convert_float].
  set (convert_all := fix convert_all (l : list value) : exn + list converted :=
          match l with
          | [] => inr []
          | element :: l' =>
              match convert_float float_fromhex float_of_str element with
              | inl e => inl e
              | inr c =>
                  match convert_all l' with
                  | inl e => inl e
                  | inr cs => inr (c :: cs)
                  end
              end
          end).
  assert (H : match convert_all elements with
              | inr cs => Forall2 (fun v c => convert_float float_fromhex float_of_str v = inr c) elements cs
              | inl e =>
                  exists before element after,
                    elements = before ++ element :: after
                    /\ Forall (fun v => exists c, convert_float float_fromhex float_of_str v = inr c) before
                    /\ convert_float float_fromhex float_of_str element = inl e
              end).
  { induction elements as [ | v l IH ]; [ constructor | ].
    cbn [convert_all]. fold convert_all.
    destruct (convert_float float_fromhex float_of_str v) as [ e | c ] eqn:Ev.
    - exists [], v, l. repeat split; [ constructor | exact Ev ].
    - destruct (convert_all l) as [ e | cs ].
      + destruct IH as (before & element & after & -> & Hb & He).
        exists (v :: before), element, after. repeat split; [ | exact He ].
        constructor; [ now exists c | exact Hb ].
      + now constructor. }
  destruct (convert_all elements) as [ e | cs ]; [ exact H | ].
  now exists cs.
Qed.

(** X25. A string that is no hexadecimal literal must have exactly one
    [/]: with none, or with two or more, unpacking the result of
    [split] raises [ValueError] (so a decimal literal such as ['0.5'] is
    refused), whatever [float] and [float.fromhex] do. *)
Theorem convert_float_needs_one_slash (s : str) :
  startswith s [48; 120]%N = false -> startswith s [45; 48; 120]%N = false ->
  count_occ N.eq_dec s slash <> 1%nat ->
  convert_float float_fromhex float_of_str (JStr s) = inl ValueError.
Proof.
  intros H1 H2 Hc. cbn [convert_float]. unfold convert_str. rewrite H1, H2. cbn [orb].
  pose proof (split_length slash s) as Hl.
  destruct (split slash s) as [ | a [ | b [ | c l ] ] ]; try reflexivity.
  cbn [length] in Hl. congruence.
Qed.

End Builtins.

Lemma convert_float_int_exact_witness :
  exists x,
    convert_float (fun _ => inl ValueError) (fun _ => inl ValueError) (JInt 3)
    = inr (PFloat x)
    /\ real x /\ units x = (3 * 2 ^ 1074)%Z.
Proof.
  apply (convert_float_int_exact
           (fun _ => inl ValueError) (fun _ => inl ValueError) 3).
  reflexivity.
Defined.

Lemma convert_float_needs_one_slash_witness :
  convert_float (fun _ => inl OverflowError) (fun _ => inr zero) (JStr [48; 46; 53]%N)
  = inl ValueError.
Proof.
  apply (convert_float_needs_one_slash
           (fun _ => inl OverflowError) (fun _ => inr zero) [48; 46; 53]%N).
  - reflexivity.
  - reflexivity.
  - discriminate.
Defined.

End ConvertFloatFacts.
